(** * ATC-LLM-Interface: the judgment pipeline

    A shallow embedding of the alignment core of the repository
    (answer parsing, judge gateway, filtering, tournament sorting, policy
    loading and the conflict lifecycle cleaning step) together with the
    properties established for it.

    Conventions of the model.
    - A Python [str] is a [string] holding its UTF-8 encoding.  Searching
      for the answer pattern, removing newlines, decoding JSON and testing
      set membership are exact on this representation; [lower] and [strip]
      act on the ASCII letters and ASCII white space only, which is what
      Python does whenever the value is ASCII.
    - Interpreter resource limits (recursion depth, digit count of integer
      literals) are not part of the model.
    - Log output is not modelled. *)

From Stdlib Require Import ZArith NArith Ascii String List Lia.
From stdpp Require Import base option list strings gmap.

Local Open Scope Z_scope.

(** ** Python string methods used by the parser *)

Module Py.

Definition newline : ascii := "010"%char.

(** [text.replace("\n", "")] *)
Fixpoint remove_newlines (s : string) : string :=
  match s with
  | EmptyString => EmptyString
  | String c s' =>
      if Ascii.eqb c newline then remove_newlines s'
      else String c (remove_newlines s')
  end.

Definition code (c : ascii) : N := N_of_ascii c.

Definition between (lo hi : N) (c : ascii) : bool :=
  ((lo <=? code c) && (code c <=? hi))%N.

Definition lower_char (c : ascii) : ascii :=
  if between 65 90 c then ascii_of_N (code c + 32) else c.

(** [s.lower()] *)
Fixpoint lower (s : string) : string :=
  match s with
  | EmptyString => EmptyString
  | String c s' => String (lower_char c) (lower s')
  end.

(** White space removed by [str.strip()]: TAB, LF, VT, FF, CR, the
    separators FS, GS, RS, US and the space. *)
Definition is_space (c : ascii) : bool :=
  between 9 13 c || between 28 32 c.

Fixpoint lstrip (s : string) : string :=
  match s with
  | EmptyString => EmptyString
  | String c s' => if is_space c then lstrip s' else s
  end.

Definition rstrip (s : string) : string :=
  String.rev (lstrip (String.rev s)).

(** [s.strip()] *)
Definition strip (s : string) : string := rstrip (lstrip s).

Fixpoint take (n : nat) (s : string) : string :=
  match n, s with
  | S n', String c s' => String c (take n' s')
  | _, _ => EmptyString
  end.

End Py.

(** ** The answer pattern

    [answer_pattern] is the regular expression [{[^{]+}], compiled in
    verbose mode with one named group spanning the whole match. *)

Module Pattern.

Definition is_open (c : ascii) : bool := Ascii.eqb c "{"%char.
Definition is_close (c : ascii) : bool := Ascii.eqb c "}"%char.

(** The remainder [[^{]* }] of the pattern, once one character of the
    class has been taken.  The repetition is greedy: a character is
    first given to the class, and only when the rest cannot match that
    way is it tried as the closing bracket. *)
Fixpoint body_rest (s : string) : option string :=
  match s with
  | EmptyString => None
  | String c s' =>
      if is_open c then None
      else match body_rest s' with
           | Some m => Some (String c m)
           | None => if is_close c then Some (String c EmptyString) else None
           end
  end.

(** A match starting at the first character of [s]. *)
Definition match_at (s : string) : option string :=
  match s with
  | String c0 (String c1 s') =>
      if is_open c0 && negb (is_open c1)
      then match body_rest s' with
           | Some m => Some (String c0 (String c1 m))
           | None => None
           end
      else None
  | _ => None
  end.

(** [re.search(answer_pattern, s)]: the leftmost match, as the text of
    group [answer]. *)
Fixpoint search (s : string) : option string :=
  match match_at s with
  | Some m => Some m
  | None =>
      match s with
      | EmptyString => None
      | String _ s' => search s'
      end
  end.

End Pattern.


(** ** JSON values and [json.loads] *)

Local Set Warnings "-register-all".

(** Decoded values.  A number keeps the text it was written with (the
    constants [NaN], [Infinity] and [-Infinity] included); an object is
    the dictionary built from its members, in insertion order. *)
Inductive json : Type :=
| JNull
| JBool (b : bool)
| JNumber (lexeme : string)
| JString (s : string)
| JArray (items : list json)
| JObject (members : list (string * json)).

Module Dict.

(** Insertion-ordered dictionaries with string keys. *)
Definition t : Type := list (string * json).

Fixpoint get (d : t) (k : string) : option json :=
  match d with
  | [] => None
  | (k', v) :: d' => if String.eqb k k' then Some v else get d' k
  end.

(** [d[k] = v]: an existing key keeps its position and takes the new
    value, a new key goes last. *)
Fixpoint set (d : t) (k : string) (v : json) : t :=
  match d with
  | [] => [(k, v)]
  | (k', v') :: d' =>
      if String.eqb k k' then (k, v) :: d' else (k', v') :: set d' k v
  end.

(** [dict(pairs)] *)
Definition of_pairs (pairs : list (string * json)) : t :=
  fold_left (fun d kv => set d (fst kv) (snd kv)) pairs [].

End Dict.

Module Json.

Inductive token : Type :=
| TLBrace | TRBrace | TLBracket | TRBracket | TColon | TComma
| TScalar (v : json).

Definition is_ws (c : ascii) : bool :=
  match c with
  | " " | "009" | "010" | "013" => true
  | _ => false
  end%char.

Definition is_digit (c : ascii) : bool := Py.between 48 57 c.

Definition hex_val (c : ascii) : option N :=
  if Py.between 48 57 c then Some (Py.code c - 48)%N
  else if Py.between 97 102 c then Some (Py.code c - 87)%N
  else if Py.between 65 70 c then Some (Py.code c - 55)%N
  else None.

Definition hex4 (a b c d : ascii) : option N :=
  match hex_val a, hex_val b, hex_val c, hex_val d with
  | Some x, Some y, Some z, Some w => Some (((x * 16 + y) * 16 + z) * 16 + w)%N
  | _, _, _, _ => None
  end.

Definition byte (n : N) : ascii := ascii_of_N n.

(** UTF-8 encoding of a code point (a lone surrogate is encoded like any
    other three-byte code point). *)
Definition utf8 (cp : N) : string :=
  (if cp <? 128 then String (byte cp) EmptyString
   else if cp <? 2048 then
     String (byte (192 + cp / 64)) (String (byte (128 + cp mod 64)) EmptyString)
   else if cp <? 65536 then
     String (byte (224 + cp / 4096))
       (String (byte (128 + (cp / 64) mod 64))
          (String (byte (128 + cp mod 64)) EmptyString))
   else
     String (byte (240 + cp / 262144))
       (String (byte (128 + (cp / 4096) mod 64))
          (String (byte (128 + (cp / 64) mod 64))
             (String (byte (128 + cp mod 64)) EmptyString))))%N.

Definition simple_escape (c : ascii) : option ascii :=
  match c with
  | "034" => Some "034"
  | "\" => Some "\"
  | "/" => Some "/"
  | "b" => Some "008"
  | "f" => Some "012"
  | "n" => Some "010"
  | "r" => Some "013"
  | "t" => Some "009"
  | _ => None
  end%char.

Definition is_high_surrogate (cp : N) : bool := ((55296 <=? cp) && (cp <=? 56319))%N.
Definition is_low_surrogate (cp : N) : bool := ((56320 <=? cp) && (cp <=? 57343))%N.

(** What a string literal is made of: characters standing for
    themselves (or written with a one-letter escape), and [\uXXXX]
    escapes. *)
Inductive piece : Type :=
| Raw (c : ascii)
| Esc (cp : N).

(** The body of a string literal, from just after the opening quote:
    its pieces and the number of characters read, closing quote
    included.  Control characters are refused (strict mode). *)
Fixpoint scan_string (s : string) : option (list piece * nat) :=
  match s with
  | EmptyString => None
  | String c s1 =>
      if Ascii.eqb c "034" then Some ([], 1%nat)
      else if Ascii.eqb c "\" then
        match s1 with
        | EmptyString => None
        | String e s2 =>
            match simple_escape e with
            | Some d =>
                match scan_string s2 with
                | Some (r, n) => Some (Raw d :: r, (n + 2)%nat)
                | None => None
                end
            | None =>
                if Ascii.eqb e "u" then
                  match s2 with
                  | String h1 (String h2 (String h3 (String h4 s6))) =>
                      match hex4 h1 h2 h3 h4, scan_string s6 with
                      | Some cp, Some (r, n) => Some (Esc cp :: r, (n + 6)%nat)
                      | _, _ => None
                      end
                  | _ => None
                  end
                else None
            end
        end
      else if (Py.code c <? 32)%N then None
      else
        match scan_string s1 with
        | Some (r, n) => Some (Raw c :: r, S n)
        | None => None
        end
  end.

(** The decoded string: an escaped high surrogate directly followed by
    an escaped low surrogate is one code point. *)
Fixpoint decode (ps : list piece) : string :=
  match ps with
  | [] => EmptyString
  | Raw c :: ps' => String c (decode ps')
  | Esc hi :: ps' =>
      match ps' with
      | Esc lo :: ps'' =>
          if is_high_surrogate hi && is_low_surrogate lo
          then utf8 (65536 + (hi - 55296) * 1024 + (lo - 56320))%N +:+ decode ps''
          else utf8 hi +:+ decode ps'
      | _ => utf8 hi +:+ decode ps'
      end
  end.

Fixpoint digits (s : string) : nat :=
  match s with
  | String c s' => if is_digit c then S (digits s') else 0%nat
  | EmptyString => 0%nat
  end.

Fixpoint drop (n : nat) (s : string) : string :=
  match n, s with
  | S n', String _ s' => drop n' s'
  | _, _ => s
  end.

(** Length of the integer part at the head of [s]: an optional minus
    sign, then either a single zero or a non-zero digit followed by
    digits. *)
Definition int_part (s : string) : option nat :=
  let unsigned (u : string) : option nat :=
    match u with
    | String c u' =>
        if Ascii.eqb c "0" then Some 1%nat
        else if is_digit c then Some (S (digits u'))
        else None
    | EmptyString => None
    end in
  match s with
  | String "-" s' => S <$> unsigned s'
  | _ => unsigned s
  end.

(** Length of the optional fraction at the head of [s]: a dot and at
    least one digit. *)
Definition frac_part (s : string) : nat :=
  match s with
  | String "." s' => match digits s' with 0%nat => 0%nat | S d => S (S d) end
  | _ => 0%nat
  end.

(** Length of the optional exponent: [e] or [E], an optional sign and at
    least one digit. *)
Definition exp_part (s : string) : nat :=
  match s with
  | String e s' =>
      if Ascii.eqb e "e" || Ascii.eqb e "E" then
        match s' with
        | String g s'' =>
            if Ascii.eqb g "+" || Ascii.eqb g "-" then
              match digits s'' with 0%nat => 0%nat | S d => S (S (S d)) end
            else match digits s' with 0%nat => 0%nat | S d => S (S d) end
        | EmptyString => 0%nat
        end
      else 0%nat
  | EmptyString => 0%nat
  end.

(** Length of the number literal at the head of [s], if there is one. *)
Definition scan_number (s : string) : option nat :=
  match int_part s with
  | Some i =>
      let f := frac_part (drop i s) in
      let e := exp_part (drop (i + f) s) in
      Some (i + f + e)%nat
  | None => None
  end.

(** A literal or number at the head of [s], with its length, in the
    order the scanner tries them. *)
Definition scan_word (s : string) : option (json * nat) :=
  if String.prefix "null" s then Some (JNull, 4%nat)
  else if String.prefix "true" s then Some (JBool true, 4%nat)
  else if String.prefix "false" s then Some (JBool false, 5%nat)
  else match scan_number s with
       | Some n => Some (JNumber (Py.take n s), n)
       | None =>
           if String.prefix "NaN" s then Some (JNumber "NaN", 3%nat)
           else if String.prefix "Infinity" s then Some (JNumber "Infinity", 8%nat)
           else if String.prefix "-Infinity" s then Some (JNumber "-Infinity", 9%nat)
           else None
       end.

Definition punctuation (c : ascii) : option token :=
  match c with
  | "{" => Some TLBrace
  | "}" => Some TRBrace
  | "[" => Some TLBracket
  | "]" => Some TRBracket
  | ":" => Some TColon
  | "," => Some TComma
  | _ => None
  end%char.

(** Tokens of [s]; [skip] counts the characters ahead that belong to
    the token already produced. *)
Fixpoint lex (skip : nat) (s : string) : option (list token) :=
  match s with
  | EmptyString => Some []
  | String c s' =>
      match skip with
      | S k => lex k s'
      | O =>
          if is_ws c then lex 0 s'
          else
            match punctuation c with
            | Some t => cons t <$> lex 0 s'
            | None =>
                if Ascii.eqb c "034" then
                  match scan_string s' with
                  | Some (ps, n) =>
                      cons (TScalar (JString (decode ps))) <$> lex n s'
                  | None => None
                  end
                else
                  match scan_word (String c s') with
                  | Some (v, n) => cons (TScalar v) <$> lex (Nat.pred n) s'
                  | None => None
                  end
            end
      end
  end.

(** The containers being built, innermost first. *)
Inductive frame : Type :=
| InArray (items_rev : list json)
| InObject (pairs_rev : list (string * json)) (key : string).

(** What may come next. *)
Inductive expect : Type :=
| Value          (* a value *)
| FirstItem      (* a value or the end of an array just opened *)
| FirstKey       (* a key or the end of an object just opened *)
| Key            (* a key, after a comma *)
| Colon          (* the colon after a key *)
| Next           (* a comma or the end of the current container *)
| Done (v : json).

Definition push (v : json) (stack : list frame) : expect * list frame :=
  match stack with
  | [] => (Done v, [])
  | InArray items :: st => (Next, InArray (v :: items) :: st)
  | InObject pairs k :: st => (Next, InObject ((k, v) :: pairs) k :: st)
  end.

Definition open_or_scalar (t : token) (stack : list frame)
  : option (expect * list frame) :=
  match t with
  | TScalar v => Some (push v stack)
  | TLBracket => Some (FirstItem, InArray [] :: stack)
  | TLBrace => Some (FirstKey, InObject [] EmptyString :: stack)
  | _ => None
  end.

Definition step (e : expect) (stack : list frame) (t : token)
  : option (expect * list frame) :=
  match e, t, stack with
  | Value, _, _ => open_or_scalar t stack
  | FirstItem, TRBracket, InArray _ :: st => Some (push (JArray []) st)
  | FirstItem, _, _ => open_or_scalar t stack
  | FirstKey, TRBrace, InObject _ _ :: st => Some (push (JObject []) st)
  | (FirstKey | Key), TScalar (JString k), InObject pairs _ :: st =>
      Some (Colon, InObject pairs k :: st)
  | Colon, TColon, _ => Some (Value, stack)
  | Next, TComma, InArray _ :: _ => Some (Value, stack)
  | Next, TRBracket, InArray items :: st => Some (push (JArray (rev items)) st)
  | Next, TComma, InObject _ _ :: _ => Some (Key, stack)
  | Next, TRBrace, InObject pairs _ :: st =>
      Some (push (JObject (Dict.of_pairs (rev pairs))) st)
  | _, _, _ => None
  end.

Fixpoint run (e : expect) (stack : list frame) (ts : list token) : option json :=
  match ts with
  | [] => match e with Done v => Some v | _ => None end
  | t :: ts' =>
      match step e stack t with
      | Some (e', stack') => run e' stack' ts'
      | None => None
      end
  end.

(** [json.loads(s)]; [None] stands for [JSONDecodeError]. *)
Definition loads (s : string) : option json :=
  match lex 0 s with
  | Some ts => run Value [] ts
  | None => None
  end.

End Json.


(** ** Exceptions and outcomes *)

Inductive exn : Type :=
| InvalidAnswerError
| SortingFailureError
| FilteringFailureError
| ResponseError            (* ollama.ResponseError *)
| ValidationError          (* pydantic.ValidationError *)
| JSONDecodeError
| TypeError
| ValueError
| AssertionError
| AttributeError
| IndexError
| KeyError
| StopIteration
| ConnectionError
| Exception.               (* a bare [Exception] *)

Global Instance exn_eq_dec : EqDecision exn.
Proof. solve_decision. Defined.

(** How a call ends: with a value, with an exception, or not within the
    number of loop iterations it was given. *)
Inductive outcome (A : Type) : Type :=
| Ok (a : A)
| Raise (e : exn)
| OutOfFuel.

Arguments Ok {A} a.
Arguments Raise {A} e.
Arguments OutOfFuel {A}.

Definition is_ok {A} (o : outcome A) : bool :=
  match o with Ok _ => true | _ => false end.

(** ** The answer parser (alignment/utils.py) *)

(** Python's [str()] of a decoded number, list or dictionary (the text of
    a float, the [repr] of a container) is left to the interpreter. *)
Class PyRuntime : Type := py_repr : json -> string.

Section AnswerParser.

Context `{PyRuntime}.

(** [str(v)] for a decoded JSON value. *)
Definition py_str (v : json) : string :=
  match v with
  | JString s => s
  | JBool true => "True"
  | JBool false => "False"
  | JNull => "None"
  | _ => py_repr v
  end.

Definition is_lower (x : string) : bool := String.eqb x (Py.lower x).

Definition answer_parser (text : string) (valid_answers : gset string)
  : outcome (string * string) :=
  if negb (forallb is_lower (elements valid_answers)) then Raise AssertionError
  else
    let explanation := "" in
    match Pattern.search (Py.remove_newlines text) with
    | Some span =>
        match Json.loads span with
        | None => Raise InvalidAnswerError
        | Some (JObject j) =>
            match Dict.get j "Answer" with
            | None | Some JNull => Raise InvalidAnswerError
            | Some v =>
                let clean_answer := Py.strip (Py.lower (py_str v)) in
                if decide (clean_answer ∈ valid_answers)
                then Ok (clean_answer, explanation)
                else Raise InvalidAnswerError
            end
        | Some _ => Raise AttributeError
        end
    | None => Raise InvalidAnswerError
    end.

End AnswerParser.

Definition VALID_FILTERING_ANSWERS : gset string := {["yes"; "no"]}.
Definition VALID_SORTING_ANSWERS : gset string := {["solution 1"; "solution 2"]}.

(** ** Commands, solutions, rules and policies *)

(** [datetime.timedelta], in microseconds. *)
Definition timedelta : Type := Z.
Definition seconds (n : Z) : timedelta := n * 1000000.

Module Command.
Inductive kind_t : Type := Heading | Altitude | Speed.
(** A clearance: what to change, when, and to which value. *)
Record t : Type := mk { kind : kind_t; time : timedelta; value : Z }.
End Command.

Record Solution : Type := mkSolution {
  callsign : string;
  commands : list Command.t
}.

Module Rule.
(** [Rule(idx, value)]: the key and the value of a policy entry. *)
Record t : Type := mk { id : string; value : json }.
End Rule.

Record ATCPolicy : Type := mkPolicy {
  filtering_rules : list Rule.t;
  sorting_rules : list Rule.t
}.

(** ** The judge gateway (alignment/llm.py) *)

(** The messages of one request, by the data they are rendered from.  A
    filtering request carries the commands of one solution
    ([commands_to_json]) and the filtering rules; a sorting request carries
    the sorting rules (in the system message) and the commands of the two
    solutions compared.  The call sign of a solution is not part of a
    request. *)
Inductive Request : Type :=
| FilterRequest (solution : list Command.t) (policy : list Rule.t)
| SortRequest (policy : list Rule.t) (solution_1 solution_2 : list Command.t).

(** What [CLIENT.chat] followed by the extraction of the message content
    does: it yields the text, or an exception is raised. *)
Inductive reply : Type :=
| Responds (content : string)
| Throws (e : exn).

(** The remote model behind [CLIENT]: a state and its reaction to a
    request.  [ollama.Client] and [MockedClient] are two such clients. *)
Class Client : Type := {
  remote : Type;
  client_chat : Request -> remote -> reply * remote
}.

(** [MockedClient]: replies with its [answer] attribute. *)
Definition MockedClient : Client := {|
  remote := string;
  client_chat := fun _ answer => (Responds answer, answer)
|}.

(** A client that replays a script of replies, then keeps raising
    [ConnectionError]. *)
Definition ScriptedClient : Client := {|
  remote := list reply;
  client_chat := fun _ script =>
    match script with
    | r :: script' => (r, script')
    | [] => (Throws ConnectionError, [])
    end
|}.

(** What can be observed of a run: judge calls ([llm.chat] entered),
    attempts to reach the model ([CLIENT.chat]) and sleeps, in
    milliseconds. *)
Inductive event : Type :=
| Asked (r : Request)
| Attempt (r : Request)
| Slept (ms : Z).

(** Computations that act on a state and may raise. *)
Definition ST (Σ A : Type) : Type := Σ -> outcome A * Σ.

Section StateAndExceptions.

Context {Σ : Type}.

Definition ret {A} (a : A) : ST Σ A := fun σ => (Ok a, σ).
Definition raise {A} (e : exn) : ST Σ A := fun σ => (Raise e, σ).
Definition out_of_fuel {A} : ST Σ A := fun σ => (OutOfFuel, σ).
Definition lift {A} (o : outcome A) : ST Σ A := fun σ => (o, σ).

Definition bind {A B} (c : ST Σ A) (k : A -> ST Σ B) : ST Σ B :=
  fun σ =>
    match c σ with
    | (Ok a, σ') => k a σ'
    | (Raise e, σ') => (Raise e, σ')
    | (OutOfFuel, σ') => (OutOfFuel, σ')
    end.

End StateAndExceptions.

Global Instance ST_ret {Σ} : MRet (ST Σ) := @ret Σ.
Global Instance ST_bind {Σ} : MBind (ST Σ) := fun A B k c => bind c k.

Section Gateway.

Context `{Client}.

(** The world outside the program: the remote model and what has been
    observed so far. *)
Record World : Type := mkWorld {
  service : remote;
  trace : list event
}.

Definition emit (e : event) : ST World unit :=
  fun w => (Ok tt, {| service := service w; trace := trace w ++ [e] |}).

(** [CLIENT.chat(...).get("message").get("content")] *)
Definition CLIENT_chat (messages : Request) : ST World reply :=
  fun w =>
    let (r, s) := client_chat messages (service w) in
    (Ok r, {| service := s; trace := trace w ++ [Attempt messages] |}).

End Gateway.

Arguments World {_}.
Arguments mkWorld {_} _ _.

Abbreviation M := (ST World).

Definition N_RETRIES : nat := 5.

(** The exception classes named by the handler of [chat]; a
    [JSONDecodeError] is a [ValueError]. *)
Definition chat_handles (e : exn) : bool :=
  match e with
  | ResponseError | ValidationError | TypeError | ValueError | JSONDecodeError => true
  | _ => false
  end.

(** [min(0.1 + attempt, 5)] seconds, in milliseconds. *)
Definition backoff (attempt : nat) : Z := Z.min (100 + 1000 * Z.of_nat attempt) 5000.

(** The value returned by [chat]: a dictionary with the single key
    [sequences]. *)
Record ChatResult : Type := mkChat { sequences : list string }.

Section Chat.

Context `{Client}.

(** The body of [for attempt in range(N_RETRIES)], over the attempts
    still to be made. *)
Fixpoint chat_attempts (attempts : list nat) (messages : Request) : M ChatResult :=
  match attempts with
  | [] => ret {| sequences := [""] |}
  | attempt :: rest =>
      r ← CLIENT_chat messages;
      match r with
      | Responds content => ret {| sequences := [content] |}
      | Throws e =>
          if chat_handles e
          then emit (Slept (backoff attempt));; chat_attempts rest messages
          else raise e
      end
  end.

Definition chat (messages : Request) : M ChatResult :=
  emit (Asked messages);;
  chat_attempts (seq 0 N_RETRIES) messages.

(** [chat(...)["sequences"][0]] *)
Definition ask (messages : Request) : M string :=
  r ← chat messages;
  match sequences r !! 0%nat with
  | Some response => ret response
  | None => raise IndexError
  end.

End Chat.

(** ** Filtering (alignment/filtering.py) *)

Section Filtering.

Context `{PyRuntime} `{Client}.

(** The body of [for s in solutions], over the solutions still to be
    judged; [valid_solutions] and [keep_mask] are the two lists the loop
    appends to. *)
Fixpoint filter_loop (filtering_rules : list Rule.t) (solutions : list Solution)
    (valid_solutions : list Solution) (keep_mask : list bool)
  : M (list Solution * list bool) :=
  match solutions with
  | [] => ret (valid_solutions, keep_mask)
  | s :: rest =>
      response ← ask (FilterRequest (commands s) filtering_rules);
      '(violation, _) ← lift (answer_parser response VALID_FILTERING_ANSWERS);
      if String.eqb violation "yes" then
        filter_loop filtering_rules rest valid_solutions (keep_mask ++ [false])
      else if String.eqb violation "no" then
        filter_loop filtering_rules rest (valid_solutions ++ [s]) (keep_mask ++ [true])
      else raise InvalidAnswerError
  end.

(** [all(keep_mask[i] == ground_truth[i] for i in range(len(solutions)))],
    over the indices still to be compared. *)
Fixpoint all_equal (indices : list nat) (keep_mask ground_truth : list bool)
  : outcome bool :=
  match indices with
  | [] => Ok true
  | i :: rest =>
      match keep_mask !! i, ground_truth !! i with
      | Some k, Some g =>
          if Bool.eqb k g then all_equal rest keep_mask ground_truth else Ok false
      | _, _ => Raise IndexError
      end
  end.

Definition filter_solutions (solutions : list Solution) (policy : ATCPolicy)
    (ground_truth : option (list bool)) : M (list Solution) :=
  '(valid_solutions, keep_mask) ←
    filter_loop (filtering_rules policy) solutions [] [];
  success ←
    match ground_truth with
    | Some (_ :: _ as truth) =>
        lift (all_equal (seq 0 (length solutions)) keep_mask truth)
    | _ => ret true
    end;
  if success : bool then ret valid_solutions else raise ValueError.

End Filtering.

(** ** Sorting (alignment/sorting.py) *)

Definition MAX_RETRIES : nat := 3.

Section Sorting.

Context `{PyRuntime} `{Client}.

(** The [while len(solutions) > 1] loop; [fuel] bounds the number of
    iterations. *)
Fixpoint sorting_loop (fuel : nat) (sorting_rules : list Rule.t)
    (solutions : list Solution) (failed_attempts : nat) : M (list Solution) :=
  if (1 <? length solutions)%nat then
    match fuel with
    | O => out_of_fuel
    | S fuel' =>
        match solutions !! 0%nat, last solutions with
        | Some s1, Some s2 =>
            response ← ask (SortRequest sorting_rules (commands s1) (commands s2));
            match answer_parser response VALID_SORTING_ANSWERS with
            | Ok (preference, _) =>
                let preferred_solution :=
                  if String.eqb preference "solution 1" then 1%nat else 2%nat in
                let solutions :=
                  if (preferred_solution =? 1)%nat
                  then take (length solutions - 1) solutions
                  else drop 1 solutions in
                sorting_loop fuel' sorting_rules solutions failed_attempts
            | Raise InvalidAnswerError =>
                let failed_attempts := S failed_attempts in
                if (MAX_RETRIES <? failed_attempts)%nat then raise SortingFailureError
                else sorting_loop fuel' sorting_rules solutions failed_attempts
            | Raise e => raise e
            | OutOfFuel => out_of_fuel
            end
        | _, _ => raise IndexError
        end
    end
  else ret solutions.

Definition get_best_solution (solutions : list Solution) (policy : ATCPolicy)
  : M Solution :=
  match solutions with
  | [] => raise Exception
  | [s] => ret s
  | _ =>
      solutions ←
        sorting_loop (length solutions + MAX_RETRIES) (sorting_rules policy)
          solutions 0;
      match last solutions with
      | Some s => ret s
      | None => raise IndexError
      end
  end.

End Sorting.

(** ** Policy loading (alignment/policy.py) *)

Module Policy.

Definition empty : ATCPolicy := {| filtering_rules := []; sorting_rules := [] |}.

(** [for v in value]: the elements a decoded value yields when iterated
    (a string yields its characters, a dictionary its keys). *)
Definition iterate (value : json) : outcome (list json) :=
  match value with
  | JArray items => Ok items
  | JString s => Ok ((fun c => JString (String c EmptyString)) <$> list_ascii_of_string s)
  | JObject d => Ok ((fun kv => JString (fst kv)) <$> d)
  | _ => Raise TypeError
  end.

(** [Rule(next(iter(v.keys())), next(iter(v.values())))] *)
Definition rule_of_entry (v : json) : outcome Rule.t :=
  match v with
  | JObject ((k, x) :: _) => Ok (Rule.mk k x)
  | JObject [] => Raise StopIteration
  | _ => Raise AttributeError
  end.

(** The inner loop: append the rule of every entry to [rules]. *)
Fixpoint append_rules (entries : list json) (rules : list Rule.t)
  : outcome (list Rule.t) :=
  match entries with
  | [] => Ok rules
  | v :: rest =>
      match rule_of_entry v with
      | Ok r => append_rules rest (rules ++ [r])
      | Raise e => Raise e
      | OutOfFuel => OutOfFuel
      end
  end.

Definition extend (value : json) (rules : list Rule.t) : outcome (list Rule.t) :=
  match iterate value with
  | Ok entries => append_rules entries rules
  | Raise e => Raise e
  | OutOfFuel => OutOfFuel
  end.

(** [for key, value in data.items()] *)
Fixpoint parse_items (items : Dict.t) (self : ATCPolicy) : outcome ATCPolicy :=
  match items with
  | [] => Ok self
  | (key, value) :: rest =>
      if String.eqb key "FILTERING_RULES" then
        match extend value (filtering_rules self) with
        | Ok rules =>
            parse_items rest
              {| filtering_rules := rules; sorting_rules := sorting_rules self |}
        | Raise e => Raise e
        | OutOfFuel => OutOfFuel
        end
      else if String.eqb key "SORTING_RULES" then
        match extend value (sorting_rules self) with
        | Ok rules =>
            parse_items rest
              {| filtering_rules := filtering_rules self; sorting_rules := rules |}
        | Raise e => Raise e
        | OutOfFuel => OutOfFuel
        end
      else parse_items rest self
  end.

(** [self.parse_json(json_file)], on the contents of the file. *)
Definition parse_json (contents : string) (self : ATCPolicy) : outcome ATCPolicy :=
  match Json.loads contents with
  | None => Raise JSONDecodeError
  | Some (JObject data) => parse_items data self
  | Some _ => Raise AttributeError
  end.

(** [ATCPolicy(file_path)], on the contents of the file. *)
Definition load (contents : string) : outcome ATCPolicy := parse_json contents empty.

End Policy.

(** ** The conflict lifecycle tracker (ali.py) *)

(** A detected conflict.  Two conflicts are equal when their call signs
    are; the two metrics (floats in the source) play no part in it. *)
Record Conflict : Type := mkConflict {
  callsigns : gset string;
  dcpa : Z;
  tcpa : Z
}.

(** [a == b] on conflicts *)
Definition conflict_eqb (a b : Conflict) : bool :=
  bool_decide (callsigns a = callsigns b).

(** [rc in conf_list] *)
Definition conflict_in (rc : Conflict) (conf_list : list Conflict) : bool :=
  existsb (conflict_eqb rc) conf_list.

(** The two objects the main loop keeps across cycles: the list of
    conflicts under resolution and the dictionary of their solutions,
    keyed by conflict. *)
Record Tracker : Type := mkTracker {
  conflicts_under_reso : list Conflict;
  conflicts_under_reso_solution : gmap (gset string) Solution
}.

Module Tracker.

(** [conflicts_under_reso.pop(idx)] *)
Definition list_pop (idx : nat) (l : list Conflict) : outcome (list Conflict) :=
  if (idx <? length l)%nat then Ok (delete idx l) else Raise IndexError.

(** [conflicts_under_reso_solution.pop(rc)] *)
Definition dict_pop (rc : Conflict) (d : gmap (gset string) Solution)
  : outcome (gmap (gset string) Solution) :=
  match d !! callsigns rc with
  | Some _ => Ok (delete (callsigns rc) d)
  | None => Raise KeyError
  end.

(** The two [pop] calls that drop a record; a failing call leaves what
    was done before it in place. *)
Definition drop_record (idx : nat) (rc : Conflict) (t : Tracker)
  : outcome unit * Tracker :=
  match list_pop idx (conflicts_under_reso t) with
  | Ok l =>
      let t1 := {| conflicts_under_reso := l;
                   conflicts_under_reso_solution := conflicts_under_reso_solution t |} in
      match dict_pop rc (conflicts_under_reso_solution t) with
      | Ok d =>
          (Ok tt, {| conflicts_under_reso := l; conflicts_under_reso_solution := d |})
      | Raise e => (Raise e, t1)
      | OutOfFuel => (OutOfFuel, t1)
      end
  | Raise e => (Raise e, t)
  | OutOfFuel => (OutOfFuel, t)
  end.

Definition GRACE : timedelta := seconds 20.

(** One iteration of the loop, for the pair [(idx, rc)]; [now] is
    [timedelta(seconds=bs.sim.simt)]. *)
Definition clean_step (now : timedelta) (conf_list : list Conflict)
    (idx : nat) (rc : Conflict) (t : Tracker) : outcome unit * Tracker :=
  if negb (conflict_in rc conf_list) then drop_record idx rc t
  else
    match conflicts_under_reso_solution t !! callsigns rc with
    | None => (Raise KeyError, t)
    | Some solution =>
        match commands solution !! 0%nat with
        | None => (Raise IndexError, t)
        | Some first_command =>
            let first_command_exec_time := Command.time first_command in
            if now >? first_command_exec_time + GRACE
            then drop_record idx rc t
            else (Ok tt, t)
        end
    end.

(** [for idx, rc in enumerate(conflicts_under_reso.copy())], over the
    pairs still to be visited. *)
Fixpoint clean_loop (now : timedelta) (conf_list : list Conflict)
    (pairs : list (nat * Conflict)) (t : Tracker) : outcome unit * Tracker :=
  match pairs with
  | [] => (Ok tt, t)
  | (idx, rc) :: rest =>
      match clean_step now conf_list idx rc t with
      | (Ok _, t') => clean_loop now conf_list rest t'
      | failed => failed
      end
  end.

Definition enumerate (l : list Conflict) : list (nat * Conflict) :=
  imap (fun idx rc => (idx, rc)) l.

Definition clean_conflicts_under_resolution (now : timedelta) (t : Tracker)
    (conf_list : list Conflict) : outcome unit * Tracker :=
  clean_loop now conf_list (enumerate (conflicts_under_reso t)) t.

End Tracker.

(** ** Sorting, on the object store

    The same function with its argument as Python has it: a reference to
    a list object whose items are references to [Solution] objects.  A
    slice builds a new list object; the local variable [solutions] is
    rebound to it. *)

Definition loc : Type := positive.

Inductive object : Type :=
| ListObject (items : list loc)
| SolutionObject (s : Solution).

Definition Store : Type := gmap loc object.

Section SortingOnStore.

Context `{PyRuntime} `{Client}.

Definition Mem : Type := (Store * World)%type.

Definition in_world {A} (c : M A) : ST Mem A :=
  fun m => let (o, w) := c (snd m) in (o, (fst m, w)).

(** Reading a list object; the argument is asserted to be one. *)
Definition load_list (l : loc) : ST Mem (list loc) :=
  fun m =>
    match fst m !! l with
    | Some (ListObject items) => (Ok items, m)
    | _ => (Raise AssertionError, m)
    end.

(** Reading a [Solution] object. *)
Definition load_solution (l : loc) : ST Mem Solution :=
  fun m =>
    match fst m !! l with
    | Some (SolutionObject s) => (Ok s, m)
    | _ => (Raise AssertionError, m)
    end.

(** A new list object. *)
Definition new_list (items : list loc) : ST Mem loc :=
  fun m =>
    let l := fresh (dom (fst m)) in
    (Ok l, (<[l := ListObject items]> (fst m), snd m)).

(** [for s in solutions: assert isinstance(s, Solution)] *)
Fixpoint assert_solutions (items : list loc) : ST Mem unit :=
  match items with
  | [] => ret tt
  | r :: rest => load_solution r;; assert_solutions rest
  end.

Fixpoint sorting_loop_ref (fuel : nat) (sorting_rules : list Rule.t)
    (solutions : loc) (failed_attempts : nat) : ST Mem loc :=
  items ← load_list solutions;
  if (1 <? length items)%nat then
    match fuel with
    | O => out_of_fuel
    | S fuel' =>
        match items !! 0%nat, last items with
        | Some r1, Some r2 =>
            s1 ← load_solution r1;
            s2 ← load_solution r2;
            response ←
              in_world (ask (SortRequest sorting_rules (commands s1) (commands s2)));
            match answer_parser response VALID_SORTING_ANSWERS with
            | Ok (preference, _) =>
                let preferred_solution :=
                  if String.eqb preference "solution 1" then 1%nat else 2%nat in
                solutions ←
                  new_list (if (preferred_solution =? 1)%nat
                            then take (length items - 1) items
                            else drop 1 items);
                sorting_loop_ref fuel' sorting_rules solutions failed_attempts
            | Raise InvalidAnswerError =>
                let failed_attempts := S failed_attempts in
                if (MAX_RETRIES <? failed_attempts)%nat then raise SortingFailureError
                else sorting_loop_ref fuel' sorting_rules solutions failed_attempts
            | Raise e => raise e
            | OutOfFuel => out_of_fuel
            end
        | _, _ => raise IndexError
        end
    end
  else ret solutions.

Definition get_best_solution_ref (solutions : loc) (policy : ATCPolicy)
  : ST Mem loc :=
  items ← load_list solutions;
  assert_solutions items;;
  match items with
  | [] => raise Exception
  | [s] => ret s
  | _ =>
      solutions ←
        sorting_loop_ref (length items + MAX_RETRIES) (sorting_rules policy)
          solutions 0;
      items ← load_list solutions;
      match last items with
      | Some s => ret s
      | None => raise IndexError
      end
  end.

End SortingOnStore.


(** ** The callers of the pipeline (ali.py) *)

(** [try: body except Exception: handler].  Every exception of the model
    is a subclass of [Exception], so the handler sees all of them. *)
Definition try_except {Σ A} (body : ST Σ A) (handler : exn -> ST Σ A) : ST Σ A :=
  fun s =>
    match body s with
    | (Raise e, s') => handler e s'
    | finished => finished
    end.

(** [list_conflicts]: the body of [for idx, conflict in
    enumerate(confpairs)], over the pairs still to be visited. *)
Fixpoint list_conflicts_loop (pairs : list (nat * gset string)) (dcpa tcpa : list Z)
    (conflicts_list : list Conflict) : outcome (list Conflict) :=
  match pairs with
  | [] => Ok conflicts_list
  | (idx, conflict) :: rest =>
      match dcpa !! idx, tcpa !! idx with
      | Some d, Some t =>
          list_conflicts_loop rest dcpa tcpa
            (conflicts_list ++ [mkConflict conflict d t])
      | _, _ => Raise IndexError
      end
  end.

Definition list_conflicts (confpairs : list (gset string)) (dcpa tcpa : list Z)
  : outcome (list Conflict) :=
  list_conflicts_loop (imap (fun idx conflict => (idx, conflict)) confpairs)
    dcpa tcpa [].

(** The generator behind the [random] module: [randbelow n] draws a
    number below [n]. *)
Class Random : Type := {
  rng : Type;
  randbelow : nat -> rng -> nat * rng;
  randbelow_lt : forall n g, (0 < n)%nat -> ((randbelow n g).1 < n)%nat
}.

Section Callers.

Context `{PyRuntime} `{Client} `{Random}.

Definition try_filtering (solutions : list Solution) (policy : ATCPolicy)
  : M (list Solution) :=
  try_except
    (valid_solutions ← filter_solutions solutions policy None;
     if (length valid_solutions =? 0)%nat then raise FilteringFailureError
     else ret valid_solutions)
    (fun _ => ret solutions).

(** The world together with the state of the random generator. *)
Record Env : Type := mkEnv {
  world : World;
  generator : rng
}.

Definition in_env {A} (c : M A) : ST Env A :=
  fun e => let (o, w) := c (world e) in (o, mkEnv w (generator e)).

(** [random.choice(seq)] *)
Definition choice (seq : list Solution) : ST Env Solution :=
  fun e =>
    if (length seq =? 0)%nat then (Raise IndexError, e)
    else
      let (i, g) := randbelow (length seq) (generator e) in
      match seq !! i with
      | Some s => (Ok s, mkEnv (world e) g)
      | None => (Raise IndexError, mkEnv (world e) g)
      end.

Definition try_sorting (solutions : list Solution) (policy : ATCPolicy)
  : ST Env Solution :=
  best_solution ← choice solutions;
  try_except (in_env (get_best_solution solutions policy))
    (fun _ => ret best_solution).

(** The two steps as [main] chains them for one conflict. *)
Definition filter_then_sort (solutions : list Solution) (policy : ATCPolicy)
  : ST Env Solution :=
  valid_solutions ← in_env (try_filtering solutions policy);
  try_sorting valid_solutions policy.

End Callers.

(** ** Plain generation (alignment/llm.py) *)

(** [CLIENT.generate(...)] followed by the reading of ["response"]: the
    text, or an exception. *)
Class Generator : Type := {
  backend : Type;
  client_generate : string -> backend -> reply * backend
}.

(** What can be observed of [generate]: the attempts and the sleeps, in
    milliseconds. *)
Inductive generation_event : Type :=
| Tried (prompt : string)
| Paused (ms : Z).

Section Generate.

Context `{Generator}.

Record Session : Type := mkSession {
  server : backend;
  log : list generation_event
}.

(** The body of [for attempt in range(N_RETRIES)], over the attempts
    still to be made; the handler names [ollama.ResponseError] only. *)
Fixpoint generate_attempts (attempts : list nat) (prompt : string)
  : ST Session ChatResult :=
  match attempts with
  | [] => ret {| sequences := [EmptyString] |}
  | attempt :: rest =>
      fun s =>
        let (r, b) := client_generate prompt (server s) in
        let s' := mkSession b (log s ++ [Tried prompt]) in
        match r with
        | Responds response => (Ok {| sequences := [response] |}, s')
        | Throws ResponseError =>
            generate_attempts rest prompt
              (mkSession b (log s' ++ [Paused (backoff attempt)]))
        | Throws e => (Raise e, s')
        end
  end.

Definition generate (prompt : string) : ST Session ChatResult :=
  generate_attempts (seq 0 N_RETRIES) prompt.

End Generate.

(** ** One cycle of the main loop (ali.py, solver/resolution.py) *)

(** A line put on the BlueSky stack by [apply_solution]: [SCHEDULE] with
    the time of the command and its BlueSky form for the call sign, or the
    echo of that line. *)
Inductive StackCommand : Type :=
| SCHEDULE (callsign : string) (command : Command.t)
| ECHO_SCHEDULE (callsign : string) (command : Command.t).

(** [SolverBase.apply_solution]: the lines it stacks. *)
Definition apply_solution (solution : Solution) : list StackCommand :=
  flat_map
    (fun command =>
       [SCHEDULE (callsign solution) command;
        ECHO_SCHEDULE (callsign solution) command])
    (commands solution).

Section MainLoop.

Context `{PyRuntime} `{Client} `{Random}.

(** [conflict_solver.resolve(conflict, bs.traf, bs.sim.simt)], for the
    traffic and the time of the cycle. *)
Variable resolve : Conflict -> outcome (list Solution).

(** What a cycle acts on: the tracker, the world with the random
    generator, and the BlueSky stack. *)
Record Cycle : Type := mkCycle {
  tracker : Tracker;
  env : Env;
  stack : list StackCommand
}.

(** The body of [for idx, conflict in enumerate(conf_list)]. *)
Definition handle_conflict (policy : ATCPolicy) (conflict : Conflict)
  : ST Cycle unit :=
  fun c =>
    if conflict_in conflict (conflicts_under_reso (tracker c)) then (Ok tt, c)
    else
      match resolve conflict with
      | Ok solutions =>
          match filter_then_sort solutions policy (env c) with
          | (Ok best_solution, e) =>
              (Ok tt,
               mkCycle
                 (mkTracker
                    (conflicts_under_reso (tracker c) ++ [conflict])
                    (<[callsigns conflict := best_solution]>
                       (conflicts_under_reso_solution (tracker c))))
                 e
                 (stack c ++ apply_solution best_solution))
          | (Raise err, e) => (Raise err, mkCycle (tracker c) e (stack c))
          | (OutOfFuel, e) => (OutOfFuel, mkCycle (tracker c) e (stack c))
          end
      | Raise err => (Raise err, c)
      | OutOfFuel => (OutOfFuel, c)
      end.

Fixpoint handle_conflicts (policy : ATCPolicy) (conf_list : list Conflict)
  : ST Cycle unit :=
  match conf_list with
  | [] => ret tt
  | conflict :: rest =>
      handle_conflict policy conflict;; handle_conflicts policy rest
  end.

(** The body of the [while] loop of [main], after the simulator has been
    updated: [now] is [timedelta(seconds=bs.sim.simt)], and [confpairs],
    [dcpa] and [tcpa] are what the conflict detection reports. *)
Definition main_loop_body (policy : ATCPolicy) (now : timedelta)
    (confpairs : list (gset string)) (dcpa tcpa : list Z) : ST Cycle unit :=
  fun c =>
    match list_conflicts confpairs dcpa tcpa with
    | Ok conf_list =>
        match Tracker.clean_conflicts_under_resolution now (tracker c) conf_list with
        | (Ok _, t) =>
            let c' := mkCycle t (env c) (stack c) in
            if (0 <? length conf_list)%nat
            then handle_conflicts policy conf_list c'
            else (Ok tt, c')
        | (Raise err, t) => (Raise err, mkCycle t (env c) (stack c))
        | (OutOfFuel, t) => (OutOfFuel, mkCycle t (env c) (stack c))
        end
    | Raise err => (Raise err, c)
    | OutOfFuel => (OutOfFuel, c)
    end.

End MainLoop.

(** ** The dummy solver (solver/resolution.py, solver/command.py) *)

(** The traffic arrays of BlueSky and the arithmetic done on their
    values.  The values are floating-point numbers; none of the
    operations is interpreted here.  [int_of] is [int(x)], which raises
    for a value that is not finite. *)
Class Traffic : Type := {
  float : Type;
  id2idx : string -> Z;
  hdg : Z -> outcome float;
  alt : Z -> outcome float;
  tas : Z -> outcome float;
  float_add : float -> Z -> float;
  float_floordiv : float -> Z -> float;
  float_mod : float -> Z -> float;
  float_sub : float -> float -> float;
  float_abs : float -> float;
  float_lt : float -> Z -> bool;
  to_knots : float -> float;
  reduced : float -> float;
  round2 : float -> float;
  int_of : float -> outcome Z
}.

Definition and_then {A B} (o : outcome A) (k : A -> outcome B) : outcome B :=
  match o with
  | Ok a => k a
  | Raise e => Raise e
  | OutOfFuel => OutOfFuel
  end.

Section DummySolver.

Context `{Traffic}.

Local Notation "'let?' x ':=' o 'in' k" :=
  (and_then o (fun x => k))
  (at level 10, x name, o at level 100, k at level 200).

(** The order in which Python iterates over a set of call signs: some
    order of its elements, the same each time the set is iterated. *)
Variable iteration : gset string -> list string.

(** [HeadingCommand(time=t, value=v)] and the like: [time] is an [int],
    taken as seconds, and [value] is converted with [int]. *)
Definition make_command (kind : Command.kind_t) (time : Z) (value : float)
  : outcome Command.t :=
  let? v := int_of value in Ok (Command.mk kind (seconds time) v).

(** The body of the first [for callsign in conflict.callsigns]; [idx] is
    the value the loop variable of that name is left with. *)
Fixpoint heading_and_altitude (callsigns : list string) (execution_time : Z)
    (solutions : list Solution) (idx : option Z)
  : outcome (list Solution * option Z) :=
  match callsigns with
  | [] => Ok (solutions, idx)
  | callsign :: rest =>
      let idx := id2idx callsign in
      let? h := hdg idx in
      let? turn := make_command Command.Heading execution_time (float_add h 45) in
      let? h' := hdg idx in
      let? back := make_command Command.Heading (execution_time + 60 * 4) h' in
      let solutions := solutions ++ [mkSolution callsign [turn; back]] in
      let? a := alt idx in
      let? level := int_of (float_floordiv (float_add a 500) 100) in
      let new_alt := level * 100 in
      let climb := Command.mk Command.Altitude (seconds execution_time) new_alt in
      let solutions := solutions ++ [mkSolution callsign [climb]] in
      heading_and_altitude rest execution_time solutions (Some idx)
  end.

(** The body of the second loop.  [idx] is not assigned in it: it still
    holds what the first loop left (the case [None], a variable never
    assigned, is not reached, since the second loop runs over the same
    call signs as the first). *)
Fixpoint speed (callsigns : list string) (execution_time : Z) (idx : option Z)
    (solutions : list Solution) : outcome (list Solution) :=
  match callsigns with
  | [] => Ok solutions
  | callsign :: rest =>
      match idx with
      | None => Raise Exception
      | Some i =>
          let? v := tas i in
          let original_speed := round2 (to_knots v) in
          let? v' := tas i in
          let new_speed := round2 (reduced (to_knots v')) in
          let? slow := make_command Command.Speed execution_time new_speed in
          let? resume :=
            make_command Command.Speed (execution_time + 60 * 2) original_speed in
          speed rest execution_time idx
            (solutions ++ [mkSolution callsign [slow; resume]])
      end
  end.

(** [DummySolver.resolve(conflict, traf, current_time)] *)
Definition resolve (conflict : Conflict) (current_time : float)
  : outcome (list Solution) :=
  let? execution_time := int_of (float_add current_time 30) in
  let callsigns := iteration (callsigns conflict) in
  let? first_loop := heading_and_altitude callsigns execution_time [] None in
  let '(solutions, idx) := first_loop in
  match callsigns !! 0%nat with
  | Some cs0 =>
      let? hdg1 := hdg (id2idx cs0) in
      match callsigns !! 1%nat with
      | Some cs1 =>
          let? hdg2 := hdg (id2idx cs1) in
          if float_lt
               (float_abs (float_sub (float_mod hdg1 180) (float_mod hdg2 180))) 30
          then Ok solutions
          else speed callsigns execution_time idx solutions
      | None => Raise IndexError
      end
  | None => Raise IndexError
  end.

End DummySolver.

(** * Vocabulary of the statements *)

Fixpoint all_chars (p : ascii -> bool) (s : string) : bool :=
  match s with
  | EmptyString => true
  | String c s' => p c && all_chars p s'
  end.

Definition no_open_bracket (s : string) : bool :=
  all_chars (fun c => negb (Pattern.is_open c)) s.

(** A closing bracket occurs in [s] before any opening one. *)
Fixpoint closes_first (s : string) : bool :=
  match s with
  | EmptyString => false
  | String c s' =>
      if Pattern.is_open c then false
      else if Pattern.is_close c then true
      else closes_first s'
  end.

(** Characters an explanation may be written with: anything but control
    characters (a newline is allowed), the double quote, the backslash and
    the opening bracket. *)
Definition plain_char (c : ascii) : bool :=
  ((32 <=? Py.code c)%N || Ascii.eqb c Py.newline)
  && negb (Ascii.eqb c "034") && negb (Ascii.eqb c "\") && negb (Pattern.is_open c).

(** The double quote, written by its code. *)
Definition quote : string := String "034" EmptyString.

(** The reply the prompts ask for, as the judge would write it. *)
Definition answer_object (answer explanation : string) : string :=
  "{" +:+ quote +:+ "Answer" +:+ quote +:+ ": " +:+ quote +:+ answer +:+ quote
  +:+ ", " +:+ quote +:+ "Explanation" +:+ quote +:+ ": "
  +:+ quote +:+ explanation +:+ quote +:+ "}".

(** [text] has a span made of an opening bracket, at least one character
    none of which is an opening bracket, and a closing bracket. *)
Definition has_span (text : string) : Prop :=
  exists a b c, text = a +:+ "{" +:+ b +:+ "}" +:+ c
                /\ b <> EmptyString /\ no_open_bracket b = true.

(** ** The answer parser *)

(** Characters a JSON string literal may hold unescaped. *)
Definition json_plain (c : ascii) : bool :=
  (32 <=? Py.code c)%N && negb (Ascii.eqb c "034") && negb (Ascii.eqb c "\").

(** The outermost container being built is an object. *)
Definition object_at_bottom (stack : list Json.frame) : Prop :=
  match last stack with
  | Some (Json.InObject _ _) => True
  | _ => False
  end.

Definition is_object (v : json) : Prop :=
  match v with JObject _ => True | _ => False end.

(** Parser states reached from an opening brace. *)
Definition within_object (e : Json.expect) (stack : list Json.frame) : Prop :=
  match e with
  | Json.Done v => stack = [] /\ is_object v
  | _ => object_at_bottom stack
  end.

(** ** The gateway *)

Definition is_asked (e : event) : bool :=
  match e with Asked _ => true | _ => false end.

Definition is_attempt (e : event) : bool :=
  match e with Attempt _ => true | _ => false end.

(** Number of judge calls in a trace. *)
Definition judge_calls (tr : list event) : nat := length (List.filter is_asked tr).

(** Number of attempts to reach the model in a trace. *)
Definition attempts (tr : list event) : nat := length (List.filter is_attempt tr).

(** The events of a judge call answered at the first attempt. *)
Definition answered (r : Request) : list event := [Asked r; Attempt r].

(** A client that raises the same exception at every call. *)
Definition FailingClient (e : exn) : Client := {|
  remote := unit;
  client_chat := fun _ st => (Throws e, st)
|}.

(** A judge that is a function of the request. *)
Definition FunctionClient (judge : Request -> string) : Client := {|
  remote := unit;
  client_chat := fun r st => (Responds (judge r), st)
|}.

Section GatewayVocabulary.

Context `{Client}.

(** Every attempt to reach the model raises an exception that [chat]
    handles. *)
Definition always_fails : Prop :=
  forall r st, exists e st',
    client_chat r st = (Throws e, st') /\ chat_handles e = true.

(** The events of the attempts numbered [k], [k+1], ... when all fail. *)
Definition failed_attempts_trace (r : Request) (ks : list nat) : list event :=
  flat_map (fun k => [Attempt r; Slept (backoff k)]) ks.

End GatewayVocabulary.

(** ** Sorting *)

Section SortingVocabulary.

Context `{PyRuntime} `{Client}.

(** Every reply of the judge is a text that parses against [valid]. *)
Definition decisive (valid : gset string) : Prop :=
  forall r st, exists content st',
    client_chat r st = (Responds content, st')
    /\ is_ok (answer_parser content valid) = true.

(** [fuel] covers the comparisons and the failures still possible. *)
Definition enough (fuel : nat) (solutions : list Solution) (failed : nat) : Prop :=
  (length solutions + (MAX_RETRIES - failed) <= fuel)%nat.

(** The survivors of a comparison. *)
Definition survivors (preference : string) (solutions : list Solution)
  : list Solution :=
  if String.eqb preference "solution 1"
  then take (length solutions - 1) solutions
  else drop 1 solutions.

(** The loop with the fuel [get_best_solution] gives it. *)
Definition sort_from (rules : list Rule.t) (solutions : list Solution)
    (failed : nat) : M (list Solution) :=
  sorting_loop (length solutions + MAX_RETRIES) rules solutions failed.

End SortingVocabulary.

Section Tournament.

Context `{PyRuntime} `{Client}.

(** The reply is a text whose answer is "solution 1". *)
Definition prefers_first (r : reply) : bool :=
  match r with
  | Responds content =>
      match answer_parser content VALID_SORTING_ANSWERS with
      | Ok (preference, _) => String.eqb preference "solution 1"
      | _ => false
      end
  | Throws _ => false
  end.

(** The elimination described for sorting, written without reference
    to the loop of [get_best_solution]: in each of [rounds] rounds the
    first and the last solution of the list are put to the judge in one
    request, the last one is dropped when the first is preferred and
    the first one otherwise.  The result holds the requests made, the
    solutions left and the state of the judge. *)
Fixpoint tournament (rounds : nat) (rules : list Rule.t)
    (solutions : list Solution) (st : remote)
  : list Request * list Solution * remote :=
  match rounds with
  | O => ([], solutions, st)
  | S rounds' =>
      match solutions !! 0%nat, last solutions with
      | Some first, Some final =>
          let request := SortRequest rules (commands first) (commands final) in
          let (reply, st') := client_chat request st in
          let remaining :=
            if prefers_first reply then removelast solutions else tail solutions in
          let '(requests, winner, st'') := tournament rounds' rules remaining st' in
          (request :: requests, winner, st'')
      | _, _ => ([], solutions, st)
      end
  end.

(** The judge answers "solution 1" whatever it is asked. *)
Definition always_first : Prop :=
  forall r st, exists content st',
    client_chat r st = (Responds content, st')
    /\ answer_parser content VALID_SORTING_ANSWERS = Ok ("solution 1", "").

End Tournament.

(** ** Sorting against a scripted judge *)

(** The world in which the judge gives the [answers], one per call. *)
Definition script_world (answers : list string) (tr : list event)
  : @World ScriptedClient :=
  mkWorld (Responds <$> answers : @remote ScriptedClient) tr.

Section Budget.

Context `{PyRuntime}.

Definition unparseable (text : string) : bool :=
  match answer_parser text VALID_SORTING_ANSWERS with
  | Raise InvalidAnswerError => true
  | _ => false
  end.

Definition parseable (text : string) : bool :=
  is_ok (answer_parser text VALID_SORTING_ANSWERS).

Definition failures (answers : list string) : nat :=
  length (List.filter unparseable answers).

Definition successes (answers : list string) : nat :=
  length (List.filter parseable answers).

(** Length of the longest run of consecutive unparseable answers, [run]
    being the length of the run that [answers] continues. *)
Fixpoint longest_failure_run (run : nat) (answers : list string) : nat :=
  match answers with
  | [] => run
  | text :: rest =>
      if unparseable text then longest_failure_run (S run) rest
      else Nat.max run (longest_failure_run 0 rest)
  end.

End Budget.

(** ** Concrete inputs *)

(** A stand-in for the interpreter's rendering of numbers and containers;
    none of the runs below reaches it. *)
Definition no_repr : PyRuntime := fun _ => EmptyString.

Definition solution_a : Solution :=
  mkSolution "ABC123" [Command.mk Command.Altitude (seconds 1000) 5000].
Definition solution_b : Solution :=
  mkSolution "DEF123" [Command.mk Command.Heading (seconds 1000) 90].
Definition solution_c : Solution :=
  mkSolution "GHI123" [Command.mk Command.Speed (seconds 1000) 250].

Definition says (answer : string) : string :=
  "```json {" +:+ quote +:+ "Explanation" +:+ quote +:+ ": " +:+ quote +:+ " " +:+ quote
  +:+ ", " +:+ quote +:+ "Answer" +:+ quote +:+ ": " +:+ quote +:+ answer +:+ quote
  +:+ "} ```".

Definition garbled : string := "I cannot decide.".

(** ** Filtering *)

Section FilteringVocabulary.

Context `{PyRuntime} `{Client}.

(** The judge always returns a text. *)
Definition responsive : Prop :=
  forall r st, exists content st', client_chat r st = (Responds content, st').

Definition filter_request (rules : list Rule.t) (s : Solution) : Request :=
  FilterRequest (commands s) rules.

(** The texts the judge gives when asked about each solution in turn,
    and the state it is left in. *)
Fixpoint answers (rules : list Rule.t) (solutions : list Solution) (st : remote)
  : list string * remote :=
  match solutions with
  | [] => ([], st)
  | s :: rest =>
      let (r, st') := client_chat (filter_request rules s) st in
      let (texts, st'') := answers rules rest st' in
      (match r with Responds content => content | Throws _ => EmptyString end
         :: texts, st'')
  end.

Definition decided (text : string) : bool :=
  is_ok (answer_parser text VALID_FILTERING_ANSWERS).

Definition says_no (text : string) : bool :=
  match answer_parser text VALID_FILTERING_ANSWERS with
  | Ok (violation, _) => String.eqb violation "no"
  | _ => false
  end.

(** The solutions whose decision is "no", in their order. *)
Fixpoint kept (solutions : list Solution) (texts : list string) : list Solution :=
  match solutions, texts with
  | s :: solutions', text :: texts' =>
      if says_no text then s :: kept solutions' texts' else kept solutions' texts'
  | _, _ => []
  end.

End FilteringVocabulary.

(** ** Sorting leaves the caller's objects alone *)

(** The items of a list object are [Solution] objects holding [sols]. *)
Definition solutions_at (h : Store) (items : list loc) (sols : list Solution) : Prop :=
  Forall2 (fun r s => h !! r = Some (SolutionObject s)) items sols.

(** ** The lifecycle tracker *)

Global Instance command_kind_eq_dec : EqDecision Command.kind_t.
Proof. solve_decision. Defined.
Global Instance command_eq_dec : EqDecision Command.t.
Proof. solve_decision. Defined.
Global Instance solution_eq_dec : EqDecision Solution.
Proof. solve_decision. Defined.
Global Instance conflict_eq_dec : EqDecision Conflict.
Proof. solve_decision. Defined.
Global Instance tracker_eq_dec : EqDecision Tracker.
Proof. solve_decision. Defined.
Global Instance outcome_eq_dec {A} `{EqDecision A} : EqDecision (outcome A).
Proof. solve_decision. Defined.

Definition conflict_A : Conflict := mkConflict {["AAA1"; "AAA2"]} 3 40.
Definition conflict_B : Conflict := mkConflict {["BBB1"; "BBB2"]} 4 50.
Definition conflict_C : Conflict := mkConflict {["CCC1"; "CCC2"]} 5 60.

(** A solution whose first command is scheduled at second 100. *)
Definition at_100 : Solution :=
  mkSolution "AAA1" [Command.mk Command.Heading (seconds 100) 135].

Definition three_tracked : Tracker :=
  mkTracker [conflict_A; conflict_B; conflict_C]
    (<[callsigns conflict_A := at_100]>
       (<[callsigns conflict_B := at_100]> {[callsigns conflict_C := at_100]})).

Definition two_tracked : Tracker :=
  mkTracker [conflict_A; conflict_B]
    (<[callsigns conflict_A := at_100]> {[callsigns conflict_B := at_100]}).

(** ** Policy loading *)

(** The entries listed under [key]: none when the key is absent, the
    items of the array when it holds one. *)
Definition listed (data : Dict.t) (key : string) (entries : list json) : Prop :=
  (Dict.get data key = None /\ entries = [])
  \/ Dict.get data key = Some (JArray entries).

(** An entry the loader accepts: an object with at least one member. *)
Definition is_entry (v : json) : bool :=
  match v with
  | JObject (_ :: _) => true
  | _ => false
  end.

(** The rule made from an entry: its first key and the value under it. *)
Definition rule_of (v : json) : Rule.t :=
  match v with
  | JObject ((k, x) :: _) => Rule.mk k x
  | _ => Rule.mk EmptyString JNull
  end.

(** A scalar token does not carry an object. *)
Definition flat (t : Json.token) : Prop :=
  match t with
  | Json.TScalar (JObject _) => False
  | _ => True
  end.

Definition distinct_keys (v : json) : Prop :=
  match v with
  | JObject d => NoDup d.*1
  | _ => True
  end.

Definition sorting_only : string :=
  "{" +:+ quote +:+ "SORTING_RULES" +:+ quote +:+ ": [{"
  +:+ quote +:+ "S1" +:+ quote +:+ ": " +:+ quote +:+ "Prefer heading changes." +:+ quote
  +:+ "}, {"
  +:+ quote +:+ "S2" +:+ quote +:+ ": " +:+ quote +:+ "Prefer late commands." +:+ quote
  +:+ "}]}".

(** ** Runs on concrete inputs *)

(** A judge that prefers the first solution whatever it is asked. *)
Definition first_judge : Request -> string := fun _ => says "Solution 1".

Definition is_altitude (c : Command.t) : bool :=
  match Command.kind c with Command.Altitude => true | _ => false end.

(** A judge for the rule "no altitude changes". *)
Definition altitude_judge : Request -> string := fun r =>
  match r with
  | FilterRequest solution _ =>
      if existsb is_altitude solution then says "yes" else says "no"
  | SortRequest _ _ _ => garbled
  end.

Definition no_altitude : ATCPolicy :=
  {| filtering_rules := [Rule.mk "F1" (JString "No altitude changes.")];
     sorting_rules := [] |}.


(** ** The callers of the pipeline *)

(** Time spent sleeping in a trace, in milliseconds. *)
Fixpoint slept (tr : list event) : Z :=
  match tr with
  | [] => 0
  | Slept ms :: rest => ms + slept rest
  | _ :: rest => slept rest
  end.

(** The longest a single judge call can sleep: the sum of the five
    delays. *)
Definition MAX_SLEEP : Z := 10500.

Section CallersVocabulary.

Context `{Client}.

(** The client raises [e] at some request, in some state. *)
Definition thrown (e : exn) : Prop :=
  exists r st st', client_chat r st = (Throws e, st').

(** An exception that leaves [chat]: the client raised it and the handler
    of [chat] does not name its class. *)
Definition escapes (e : exn) : Prop := thrown e /\ chat_handles e = false.

(** A piece of trace with at most [calls] judge calls, each of them with
    one to five attempts. *)
Definition within (calls : nat) (tr : list event) : Prop :=
  (judge_calls tr <= calls)%nat
  /\ (judge_calls tr <= attempts tr <= N_RETRIES * judge_calls tr)%nat.

End CallersVocabulary.

Section PositionVocabulary.

Context `{PyRuntime} `{Client}.

(** The judge answers "solution 2" whatever it is asked. *)
Definition always_second : Prop :=
  forall r st, exists content st',
    client_chat r st = (Responds content, st')
    /\ answer_parser content VALID_SORTING_ANSWERS = Ok ("solution 2", "").

End PositionVocabulary.

(** ** The lifecycle tracker, pass by pass *)

(** The first command of the solution recorded for [rc]. *)
Definition first_command (t : Tracker) (rc : Conflict) : option Command.t :=
  match conflicts_under_reso_solution t !! callsigns rc with
  | Some solution => commands solution !! 0%nat
  | None => None
  end.

(** The record of [rc] is due to leave: its conflict is no longer
    detected, or the grace period after its first command is over. *)
Definition removable (now : timedelta) (conf_list : list Conflict) (t : Tracker)
    (rc : Conflict) : bool :=
  negb (conflict_in rc conf_list)
  || match first_command t rc with
     | Some c => now >? Command.time c + Tracker.GRACE
     | None => false
     end.

(** Every conflict of the list has a solution with a first command in
    the dictionary. *)
Definition recorded (t : Tracker) : Prop :=
  forall rc, rc ∈ conflicts_under_reso t -> is_Some (first_command t rc).

(** ** Policies *)

(** The rules of [p], then the rules of [q]. *)
Definition policy_app (p q : ATCPolicy) : ATCPolicy :=
  {| filtering_rules := filtering_rules p ++ filtering_rules q;
     sorting_rules := sorting_rules p ++ sorting_rules q |}.

(** ** The dummy solver *)

(** A solution whose first command is due at [time]. *)
Definition starts_at (time : timedelta) (s : Solution) : Prop :=
  exists first rest, commands s = first :: rest /\ Command.time first = time.

(** ** Concrete inputs of the runs *)

(** A generator that always draws the first element. *)
Definition FirstDraw : Random := {|
  rng := unit;
  randbelow := fun _ g => (0%nat, g);
  randbelow_lt := fun n g Hn => Hn
|}.

(** A judge that prefers the second solution whatever it is asked. *)
Definition second_judge : Request -> string := fun _ => says "Solution 2".

(** A server that answers every prompt with [ollama.ResponseError]. *)
Definition FailingGenerator : Generator := {|
  backend := unit;
  client_generate := fun _ b => (Throws ResponseError, b)
|}.

(** Two aircraft on crossing tracks, with whole numbers for the values of
    the traffic arrays. *)
Definition crossing_traffic : Traffic := {|
  float := Z;
  id2idx := fun callsign => if String.eqb callsign "AAA1" then 0 else 1;
  hdg := fun idx => Ok (if idx =? 0 then 90 else 180);
  alt := fun idx => Ok 3000;
  tas := fun idx => Ok (if idx =? 0 then 200 else 250);
  float_add := Z.add;
  float_floordiv := Z.div;
  float_mod := Z.modulo;
  float_sub := Z.sub;
  float_abs := Z.abs;
  float_lt := Z.ltb;
  to_knots := fun x => 2 * x;
  reduced := fun x => x - 50;
  round2 := fun x => x;
  int_of := fun x => Ok x
|}.

(** The call signs of conflict A, first [AAA1], then [AAA2]. *)
Definition in_order : gset string -> list string := fun _ => ["AAA1"; "AAA2"].

(** A tracker that lists conflict A and has lost its solution. *)
Definition unrecorded : Tracker := mkTracker [conflict_A] ∅.

(** A solver with the same two solutions for every conflict. *)
Definition two_solutions : Conflict -> outcome (list Solution) :=
  fun _ => Ok [solution_a; solution_b].

(** A store with a list of two solutions at location 1. *)
Definition two_in_store : Store :=
  <[1%positive := ListObject [2%positive; 3%positive]]>
    (<[2%positive := SolutionObject solution_a]>
       {[3%positive := SolutionObject solution_b]}).

(** A solver that finds nothing. *)
Definition no_solution : Conflict -> outcome (list Solution) := fun _ => Ok [].

(** * Lemmas and theorems *)

(** ** The answer parser *)

Section StringFacts.

Lemma string_app_cons c (s t : string) : String c s +:+ t = String c (s +:+ t).
Proof. reflexivity. Qed.

Lemma string_app_nil_l (t : string) : EmptyString +:+ t = t.
Proof. reflexivity. Qed.

Lemma string_app_nil_r (s : string) : s +:+ EmptyString = s.
Proof. induction s as [|c s IH]; [reflexivity|]. by rewrite string_app_cons, IH. Qed.

Lemma string_app_assoc (s t u : string) : (s +:+ t) +:+ u = s +:+ t +:+ u.
Proof. induction s as [|c s IH]; [reflexivity|]. by rewrite !string_app_cons, IH. Qed.

Lemma all_chars_app p (s t : string) :
  all_chars p (s +:+ t) = all_chars p s && all_chars p t.
Proof.
  induction s as [|c s IH]; [reflexivity|].
  rewrite string_app_cons. simpl. by rewrite IH, andb_assoc.
Qed.

Lemma remove_newlines_app (s t : string) :
  Py.remove_newlines (s +:+ t) = Py.remove_newlines s +:+ Py.remove_newlines t.
Proof.
  induction s as [|c s IH]; [reflexivity|].
  rewrite string_app_cons. simpl. destruct (Ascii.eqb c Py.newline); [done|].
  by rewrite string_app_cons, IH.
Qed.

(** Newlines can be put back into the two halves of a split. *)
Lemma remove_newlines_split (t x y : string) :
  Py.remove_newlines t = x +:+ y ->
  exists x' y', t = x' +:+ y'
                /\ Py.remove_newlines x' = x /\ Py.remove_newlines y' = y.
Proof.
  revert x. induction t as [|c t IH]; intros x Heq; simpl in Heq.
  - destruct x; [|discriminate]. rewrite string_app_nil_l in Heq. subst y.
    by exists EmptyString, EmptyString.
  - destruct (Ascii.eqb c Py.newline) eqn:Hc.
    + destruct (IH x Heq) as (x' & y' & -> & Hx & Hy).
      exists (String c x'), y'. split; [done|]. split; [|done].
      simpl. by rewrite Hc.
    + destruct x as [|d x].
      * rewrite string_app_nil_l in Heq. exists EmptyString, (String c t).
        repeat split; try done. simpl. by rewrite Hc.
      * rewrite string_app_cons in Heq. injection Heq as -> Heq.
        destruct (IH x Heq) as (x' & y' & -> & Hx & Hy).
        exists (String d x'), y'. split; [done|]. split; [|done].
        simpl. by rewrite Hc, Hx.
Qed.

End StringFacts.

Section PatternFacts.

Import Pattern.

Lemma newline_not_open c : Ascii.eqb c Py.newline = true -> is_open c = false.
Proof. intros ->%Ascii.eqb_eq. reflexivity. Qed.

Lemma newline_not_close c : Ascii.eqb c Py.newline = true -> is_close c = false.
Proof. intros ->%Ascii.eqb_eq. reflexivity. Qed.

Lemma no_open_remove_newlines s :
  no_open_bracket (Py.remove_newlines s) = no_open_bracket s.
Proof.
  unfold no_open_bracket. induction s as [|c s IH]; [reflexivity|]. simpl.
  destruct (Ascii.eqb c Py.newline) eqn:Hc; simpl; rewrite IH; [|done].
  by rewrite (newline_not_open c Hc).
Qed.

Lemma closes_first_remove_newlines s :
  closes_first (Py.remove_newlines s) = closes_first s.
Proof.
  induction s as [|c s IH]; [reflexivity|]. simpl.
  destruct (Ascii.eqb c Py.newline) eqn:Hc; simpl; rewrite IH; [|done].
  by rewrite (newline_not_open c Hc), (newline_not_close c Hc).
Qed.

(** What [body_rest] returns is a part of the text that ends with a
    closing bracket and holds no opening one. *)
Lemma body_rest_sound s m :
  body_rest s = Some m ->
  exists b c, s = b +:+ "}" +:+ c /\ m = b +:+ "}" /\ no_open_bracket b = true.
Proof.
  revert m. induction s as [|d s IH]; intros m Hm; [discriminate|].
  simpl in Hm. destruct (is_open d) eqn:Hd; [discriminate|].
  destruct (body_rest s) as [m'|] eqn:Hs.
  - injection Hm as <-. destruct (IH m' eq_refl) as (b & c & -> & -> & Hb).
    exists (String d b), c. repeat split; try done.
    unfold no_open_bracket in *. simpl. by rewrite Hd, Hb.
  - destruct (is_close d) eqn:Hc; [|discriminate]. injection Hm as <-.
    apply Ascii.eqb_eq in Hc as ->. by exists EmptyString, s.
Qed.

Lemma match_at_sound s m :
  match_at s = Some m ->
  exists b c, s = "{" +:+ b +:+ "}" +:+ c
              /\ b <> EmptyString /\ no_open_bracket b = true.
Proof.
  destruct s as [|c0 [|c1 s]]; try discriminate. simpl.
  destruct (is_open c0) eqn:H0; [|discriminate].
  destruct (is_open c1) eqn:H1; [discriminate|]. simpl.
  destruct (body_rest s) as [m'|] eqn:Hs; [|discriminate]. intros _.
  destruct (body_rest_sound _ _ Hs) as (b & c & -> & _ & Hb).
  apply Ascii.eqb_eq in H0 as ->.
  exists (String c1 b), c. repeat split; try done.
  unfold no_open_bracket in *. simpl. by rewrite H1, Hb.
Qed.

Lemma search_cons d s :
  search (String d s)
  = match match_at (String d s) with Some m => Some m | None => search s end.
Proof. reflexivity. Qed.

Lemma search_sound s m : search s = Some m -> has_span s.
Proof.
  induction s as [|d s IH]; intros Hm.
  - discriminate.
  - rewrite search_cons in Hm.
    destruct (match_at (String d s)) as [m'|] eqn:Hat.
    + destruct (match_at_sound _ _ Hat) as (b & c & Heq & Hb).
      exists EmptyString, b, c. by rewrite string_app_nil_l.
    + destruct (IH Hm) as (a & b & c & -> & Hb).
      exists (String d a), b, c. by rewrite string_app_cons.
Qed.

Lemma remove_newlines_head y d z :
  Py.remove_newlines y = String d z ->
  exists n y', y = n +:+ String d y'
               /\ Py.remove_newlines n = EmptyString /\ Py.remove_newlines y' = z.
Proof.
  induction y as [|c y IH]; [discriminate|]. simpl.
  destruct (Ascii.eqb c Py.newline) eqn:Hc.
  - intros (n & y' & -> & Hn & Hy)%IH. exists (String c n), y'.
    repeat split; try done. simpl. by rewrite Hc.
  - intros [= -> Hy]. by exists EmptyString, y.
Qed.

Lemma has_span_remove_newlines t : has_span (Py.remove_newlines t) -> has_span t.
Proof.
  induction t as [|c t IH]; simpl.
  - intros ([|? a] & b & c & Heq & _); discriminate.
  - destruct (Ascii.eqb c Py.newline) eqn:Hc.
    + intros (a & b & c' & -> & Hb)%IH.
      exists (String c a), b, c'. by rewrite string_app_cons.
    + intros ([|d a] & b & c' & Heq & Hne & Hb).
      * rewrite string_app_nil_l in Heq. injection Heq as -> Heq.
        rewrite string_app_nil_l in Heq.
        destruct (remove_newlines_split _ _ _ Heq) as (x' & y' & -> & Hx & Hy).
        change ("}" +:+ c') with (String "}" c') in Hy.
        destruct (remove_newlines_head _ _ _ Hy) as (n & y2 & -> & Hn & _).
        exists EmptyString, (x' +:+ n), y2. rewrite string_app_nil_l.
        split; [by rewrite !string_app_assoc|]. split.
        -- intros Hxn. destruct x'; [|discriminate]. by subst b.
        -- unfold no_open_bracket. rewrite all_chars_app.
           fold (no_open_bracket x') (no_open_bracket n).
           rewrite <- (no_open_remove_newlines x'), <- (no_open_remove_newlines n).
           by rewrite Hx, Hn, Hb.
      * rewrite string_app_cons in Heq. injection Heq as -> Heq.
        assert (has_span (Py.remove_newlines t)) as (a' & b' & c'' & -> & Hb')%IH
          by (by exists a, b, c').
        exists (String d a'), b', c''. by rewrite string_app_cons.
Qed.

Lemma search_skip pre s :
  no_open_bracket pre = true -> search (pre +:+ s) = search s.
Proof.
  unfold no_open_bracket. induction pre as [|c pre IH]; [done|].
  cbn [all_chars]. intros [Hc Hpre]%andb_prop. rewrite string_app_cons, search_cons.
  assert (match_at (String c (pre +:+ s)) = None) as ->.
  { unfold match_at. destruct (pre +:+ s); [done|].
    by destruct (is_open c). }
  by apply IH.
Qed.

Lemma body_rest_none post : closes_first post = false -> body_rest post = None.
Proof.
  induction post as [|c post IH]; [done|]. simpl.
  destruct (is_open c); [done|]. destruct (is_close c); [done|].
  by intros ->%IH.
Qed.

Lemma body_rest_closing x post :
  no_open_bracket x = true -> closes_first post = false ->
  body_rest (x +:+ String "}" post) = Some (x +:+ "}").
Proof.
  unfold no_open_bracket. intros Hx Hpost.
  induction x as [|c x IH].
  - rewrite !string_app_nil_l. simpl. by rewrite (body_rest_none _ Hpost).
  - simpl in Hx. apply andb_prop in Hx as [Hc Hx]. rewrite !string_app_cons. simpl.
    destruct (is_open c); [done|]. by rewrite (IH Hx).
Qed.

(** A bracketed text with nothing to confuse it before or after is what
    the search returns. *)
Lemma search_finds pre c1 x post :
  no_open_bracket pre = true -> is_open c1 = false ->
  no_open_bracket x = true -> closes_first post = false ->
  search (pre +:+ String "{" (String c1 (x +:+ String "}" post)))
  = Some (String "{" (String c1 (x +:+ "}"))).
Proof.
  intros Hpre Hc1 Hx Hpost. rewrite (search_skip _ _ Hpre), search_cons.
  unfold match_at. by rewrite Hc1, (body_rest_closing _ _ Hx Hpost).
Qed.

End PatternFacts.

Section JsonFacts.

Import Json.

Lemma scan_string_plain x rest :
  all_chars json_plain x = true ->
  scan_string (x +:+ String "034" rest)
  = Some (Raw <$> list_ascii_of_string x, S (String.length x)).
Proof.
  induction x as [|c x IH]; [done|]. cbn [all_chars].
  intros [Hc Hx]%andb_prop. rewrite string_app_cons. cbn [scan_string].
  unfold json_plain in Hc.
  apply andb_prop in Hc as [[Hc1 Hc2]%andb_prop Hc3].
  apply negb_true_iff in Hc2, Hc3. rewrite Hc2, Hc3.
  apply N.leb_le in Hc1. destruct (N.ltb_spec (Py.code c) 32); [lia|].
  by rewrite (IH Hx).
Qed.

Lemma decode_raw l : decode (Raw <$> l) = string_of_list_ascii l.
Proof.
  induction l as [|c l IH]; [done|].
  rewrite fmap_cons. cbn [decode string_of_list_ascii]. by rewrite IH.
Qed.

Lemma lex_skip x n rest : lex (String.length x + n) (x +:+ rest) = lex n rest.
Proof. induction x as [|c x IH]; [done|]. by rewrite string_app_cons. Qed.

Lemma lex_string x rest :
  all_chars json_plain x = true ->
  lex 0 (String "034" (x +:+ String "034" rest))
  = cons (TScalar (JString x)) <$> lex 0 rest.
Proof.
  intros Hx.
  change (lex 0 (String "034" (x +:+ String "034" rest)))
    with (match scan_string (x +:+ String "034" rest) with
          | Some (ps, n) =>
              cons (TScalar (JString (decode ps)))
                <$> lex n (x +:+ String "034" rest)
          | None => None
          end).
  rewrite (scan_string_plain _ _ Hx). cbv beta iota.
  rewrite decode_raw, string_of_list_ascii_of_string.
  replace (S (String.length x)) with (String.length x + 1)%nat by lia.
  by rewrite lex_skip.
Qed.

Lemma answer_object_shape a e :
  answer_object a e
  = String "{" (String "034" ("Answer" +:+ String "034" (String ":" (String " "
      (String "034" (a +:+ String "034" (String "," (String " "
         (String "034" ("Explanation" +:+ String "034" (String ":" (String " "
            (String "034" (e +:+ String "034" (String "}" EmptyString))))))))))))))).
Proof. reflexivity. Qed.

Lemma loads_answer_object a e :
  all_chars json_plain a = true -> all_chars json_plain e = true ->
  loads (answer_object a e)
  = Some (JObject (Dict.of_pairs [("Answer", JString a); ("Explanation", JString e)])).
Proof.
  intros Ha He. unfold loads. rewrite answer_object_shape.
  change (lex 0 (String "{" ?s)) with (cons TLBrace <$> lex 0 s).
  rewrite (lex_string "Answer") by done.
  change (lex 0 (String ":" (String " " ?s))) with (cons TColon <$> lex 0 s).
  rewrite (lex_string a) by done.
  change (lex 0 (String "," (String " " ?s))) with (cons TComma <$> lex 0 s).
  rewrite (lex_string "Explanation") by done.
  change (lex 0 (String ":" (String " " ?s))) with (cons TColon <$> lex 0 s).
  rewrite (lex_string e) by done.
  reflexivity.
Qed.

End JsonFacts.

Section AnswerParserFacts.

Context `{PyRuntime}.

Lemma filtering_answers_lower :
  forallb is_lower (elements VALID_FILTERING_ANSWERS) = true.
Proof. vm_compute. reflexivity. Qed.

Lemma sorting_answers_lower :
  forallb is_lower (elements VALID_SORTING_ANSWERS) = true.
Proof. vm_compute. reflexivity. Qed.

Lemma answer_parser_no_match text valid :
  forallb is_lower (elements valid) = true ->
  Pattern.search (Py.remove_newlines text) = None ->
  answer_parser text valid = Raise InvalidAnswerError.
Proof. intros Hv Hs. unfold answer_parser. by rewrite Hv, Hs. Qed.

Lemma plain_remove_newlines e :
  all_chars plain_char e = true ->
  all_chars json_plain (Py.remove_newlines e) = true
  /\ no_open_bracket (Py.remove_newlines e) = true.
Proof.
  unfold no_open_bracket.
  induction e as [|c e IH]; [done|]. cbn [all_chars Py.remove_newlines].
  intros [Hc [He1 He2]%IH]%andb_prop.
  destruct (Ascii.eqb c Py.newline) eqn:Hnl; [done|].
  cbn [all_chars]. rewrite He1, He2, !andb_true_r.
  unfold plain_char, json_plain in *. rewrite Hnl, orb_false_r in Hc.
  apply andb_prop in Hc as [Hc ->]. by rewrite Hc.
Qed.

Lemma answer_parser_on_object pre e post :
  no_open_bracket pre = true -> all_chars plain_char e = true ->
  closes_first post = false ->
  answer_parser (pre +:+ answer_object "yes" e +:+ post) VALID_FILTERING_ANSWERS
  = Ok ("yes", "").
Proof.
  intros Hpre [He Hopen]%plain_remove_newlines Hpost.
  unfold answer_parser. rewrite filtering_answers_lower. cbn [negb].
  rewrite !remove_newlines_app.
  assert (Py.remove_newlines (answer_object "yes" e)
          = answer_object "yes" (Py.remove_newlines e)) as ->.
  { unfold answer_object. by rewrite !remove_newlines_app. }
  set (e' := Py.remove_newlines e) in *.
  set (x := "Answer" +:+ quote +:+ ": " +:+ quote +:+ "yes" +:+ quote +:+ ", "
            +:+ quote +:+ "Explanation" +:+ quote +:+ ": " +:+ quote +:+ e' +:+ quote).
  assert (answer_object "yes" e' = String "{" (String "034" (x +:+ "}"))) as Hshape.
  { unfold answer_object, x. by rewrite !string_app_assoc. }
  assert (no_open_bracket x = true) as Hx.
  { unfold x, no_open_bracket. rewrite !all_chars_app.
    fold (no_open_bracket e'). by rewrite Hopen. }
  rewrite Hshape, !string_app_cons, string_app_assoc.
  change ("}" +:+ ?s) with (String "}" s).
  rewrite search_finds; [|by rewrite no_open_remove_newlines|done|done
                         |by rewrite closes_first_remove_newlines].
  rewrite <- Hshape, loads_answer_object by done.
  reflexivity.
Qed.

Lemma answer_parser_without_span text :
  ~ has_span text ->
  answer_parser text VALID_FILTERING_ANSWERS = Raise InvalidAnswerError.
Proof.
  intros Hno. apply answer_parser_no_match; [apply filtering_answers_lower|].
  destruct (Pattern.search (Py.remove_newlines text)) as [m|] eqn:Hs; [|done].
  destruct Hno. by eapply has_span_remove_newlines, search_sound.
Qed.

End AnswerParserFacts.

Section ParserFacts.

Import Json.

Lemma step_within_object e stack t e' stack' :
  within_object e stack -> step e stack t = Some (e', stack') ->
  within_object e' stack'.
Proof.
  intros Hin Hstep.
  destruct e; destruct t as [| | | | | |[]];
    destruct stack as [|[?|? ?] [|[?|? ?] stack]];
    cbn in *; try done; simplify_eq; cbn; try done.
  all: unfold object_at_bottom in *; by destruct stack.
Qed.

Lemma run_within_object ts e stack v :
  within_object e stack -> run e stack ts = Some v -> is_object v.
Proof.
  revert e stack. induction ts as [|t ts IH]; intros e stack Hin; simpl.
  - destruct e; try discriminate. intros [= <-]. by destruct Hin.
  - destruct (step e stack t) as [[e' stack']|] eqn:Hstep; [|discriminate].
    apply IH. by eapply step_within_object.
Qed.

(** A text that starts with an opening brace decodes to a dictionary
    or not at all. *)
Lemma loads_brace s v : loads (String "{" s) = Some v -> is_object v.
Proof.
  unfold loads.
  change (lex 0 (String "{" s)) with (cons TLBrace <$> lex 0 s).
  destruct (lex 0 s) as [ts|]; [|discriminate]. cbn.
  by apply run_within_object.
Qed.

Lemma match_at_brace s m : Pattern.match_at s = Some m -> exists m', m = String "{" m'.
Proof.
  destruct s as [|c0 [|c1 s]]; try discriminate. simpl.
  destruct (Pattern.is_open c0) eqn:H0; [|discriminate].
  destruct (Pattern.is_open c1); [discriminate|]. simpl.
  destruct (Pattern.body_rest s); [|discriminate]. intros [= <-].
  apply Ascii.eqb_eq in H0 as ->. eauto.
Qed.

Lemma search_brace s m : Pattern.search s = Some m -> exists m', m = String "{" m'.
Proof.
  induction s as [|d s IH].
  - discriminate.
  - rewrite search_cons. destruct (Pattern.match_at (String d s)) eqn:Hat; [|done].
    intros [= <-]. by eapply match_at_brace.
Qed.

End ParserFacts.

Section AnswerParserOutcome.

Context `{PyRuntime}.

(** With a vocabulary in lower case, the parser returns a token of the
    vocabulary and an empty explanation, or raises [InvalidAnswerError];
    nothing else. *)
Lemma answer_parser_outcome text valid :
  forallb is_lower (elements valid) = true ->
  (exists token, answer_parser text valid = Ok (token, "") /\ token ∈ valid)
  \/ answer_parser text valid = Raise InvalidAnswerError.
Proof.
  intros Hv. unfold answer_parser. rewrite Hv. cbn [negb].
  destruct (Pattern.search _) as [span|] eqn:Hs; [|by right].
  destruct (search_brace _ _ Hs) as [m ->].
  destruct (Json.loads _) as [v|] eqn:Hl; [|by right].
  apply loads_brace in Hl. destruct v; try done.
  destruct (Dict.get _ _) as [a|]; [|by right].
  destruct a; try (by right); case_decide; try (by right); left; eauto.
Qed.

End AnswerParserOutcome.

(** ** The gateway *)

Section GatewayFacts.

Context `{Client}.

Lemma judge_calls_app tr1 tr2 :
  judge_calls (tr1 ++ tr2) = (judge_calls tr1 + judge_calls tr2)%nat.
Proof. unfold judge_calls. by rewrite List.filter_app, length_app. Qed.

Lemma attempts_app tr1 tr2 :
  attempts (tr1 ++ tr2) = (attempts tr1 + attempts tr2)%nat.
Proof. unfold attempts. by rewrite List.filter_app, length_app. Qed.

Lemma ask_responds r w content st' :
  client_chat r (service w) = (Responds content, st') ->
  ask r w = (Ok content, mkWorld st' (trace w ++ answered r)).
Proof.
  intros Hc. unfold ask, chat, mbind, ST_bind, bind, emit, N_RETRIES.
  cbn [seq chat_attempts]. unfold mbind, ST_bind, bind, CLIENT_chat.
  cbn [service trace]. rewrite Hc. cbn. by rewrite <- app_assoc.
Qed.

Lemma chat_attempts_all_fail r ks w :
  always_fails ->
  exists st',
    chat_attempts ks r w
    = (Ok {| sequences := [""] |},
       mkWorld st' (trace w ++ failed_attempts_trace r ks)).
Proof.
  intros Hfail. revert w. induction ks as [|k ks IH]; intros w.
  - exists (service w). cbn. rewrite app_nil_r. by destruct w.
  - cbn [chat_attempts]. unfold mbind, ST_bind, bind, CLIENT_chat.
    destruct (Hfail r (service w)) as (e & st1 & -> & ->).
    unfold emit. cbn [service trace].
    destruct (IH (mkWorld st1 ((trace w ++ [Attempt r]) ++ [Slept (backoff k)])))
      as [st' ->].
    exists st'. cbn [trace]. by rewrite <- !app_assoc.
Qed.

(** An exception of a class the handler does not name ends [chat] at
    the attempt that raised it. *)
Lemma chat_propagates_unhandled r w e st' :
  client_chat r (service w) = (Throws e, st') -> chat_handles e = false ->
  chat r w = (Raise e, mkWorld st' (trace w ++ [Asked r; Attempt r])).
Proof.
  intros Hc He. unfold chat, mbind, ST_bind, bind, emit, N_RETRIES.
  cbn [seq chat_attempts]. unfold mbind, ST_bind, bind, CLIENT_chat.
  cbn [service trace]. rewrite Hc, He. unfold raise.
  by rewrite <- app_assoc.
Qed.

End GatewayFacts.

(** ** Sorting *)

Ltac unfold_st :=
  unfold mbind, ST_bind, mret, ST_ret, bind, ret, raise, out_of_fuel, lift in *.

Section SortingFacts.

Context `{PyRuntime} `{Client}.

Lemma survivors_length preference solutions :
  length (survivors preference solutions) = (length solutions - 1)%nat.
Proof.
  unfold survivors. destruct (String.eqb _ _).
  - rewrite length_take. lia.
  - by rewrite length_drop.
Qed.

(** One iteration of the loop, when there is fuel for it. *)
Lemma sorting_loop_step fuel rules solutions failed w :
  (1 < length solutions)%nat ->
  sorting_loop (S fuel) rules solutions failed w
  = match solutions !! 0%nat, last solutions with
    | Some s1, Some s2 =>
        match ask (SortRequest rules (commands s1) (commands s2)) w with
        | (Ok response, w') =>
            match answer_parser response VALID_SORTING_ANSWERS with
            | Ok (preference, _) =>
                sorting_loop fuel rules (survivors preference solutions) failed w'
            | Raise InvalidAnswerError =>
                if (MAX_RETRIES <? S failed)%nat then (Raise SortingFailureError, w')
                else sorting_loop fuel rules solutions (S failed) w'
            | Raise e => (Raise e, w')
            | OutOfFuel => (OutOfFuel, w')
            end
        | (Raise e, w') => (Raise e, w')
        | (OutOfFuel, w') => (OutOfFuel, w')
        end
    | _, _ => (Raise IndexError, w)
    end.
Proof.
  intros Hlen%Nat.ltb_lt. cbn [sorting_loop]. rewrite Hlen.
  destruct (solutions !! 0%nat) as [s1|]; [|done].
  destruct (last solutions) as [s2|]; [|done].
  unfold_st. destruct (ask _ w) as [[response|e|] w']; try done.
  destruct (answer_parser response _) as [[preference explanation]|e|]; try done.
  - unfold survivors. by destruct (String.eqb preference _).
  - destruct e; try done. by destruct (MAX_RETRIES <? S failed)%nat.
Qed.

Lemma sorting_loop_done fuel rules solutions failed w :
  (length solutions <= 1)%nat ->
  sorting_loop fuel rules solutions failed w = (Ok solutions, w).
Proof.
  intros Hlen. assert ((1 <? length solutions)%nat = false) as Hlt
    by (apply Nat.ltb_ge; lia).
  destruct fuel; cbn [sorting_loop]; by rewrite Hlt.
Qed.

(** Beyond what is enough, fuel makes no difference. *)
Lemma sorting_loop_fuel fuel1 fuel2 rules solutions failed w :
  (failed <= MAX_RETRIES)%nat ->
  enough fuel1 solutions failed -> enough fuel2 solutions failed ->
  sorting_loop fuel1 rules solutions failed w
  = sorting_loop fuel2 rules solutions failed w.
Proof.
  unfold enough.
  revert fuel2 solutions failed w.
  induction fuel1 as [|fuel1 IH]; intros fuel2 solutions failed w Hf H1 H2.
  - rewrite !sorting_loop_done; [done|lia..].
  - destruct (decide (1 < length solutions)%nat) as [Hlen|Hlen].
    + destruct fuel2 as [|fuel2]; [lia|].
      rewrite !sorting_loop_step by done.
      destruct (solutions !! 0%nat) as [s1|]; [|done].
      destruct (last solutions) as [s2|]; [|done].
      destruct (ask _ w) as [[response|e|] w']; try done.
      destruct (answer_parser response _) as [[preference explanation]|e|];
        try done.
      * apply IH; rewrite ?survivors_length; lia.
      * destruct e; try done.
        destruct (MAX_RETRIES <? S failed)%nat eqn:Hmax; [done|].
        apply Nat.ltb_ge in Hmax. apply IH; lia.
    + rewrite !sorting_loop_done; [done|lia..].
Qed.

Lemma sort_from_step rules solutions failed w :
  (1 < length solutions)%nat -> (failed <= MAX_RETRIES)%nat ->
  sort_from rules solutions failed w
  = match solutions !! 0%nat, last solutions with
    | Some s1, Some s2 =>
        match ask (SortRequest rules (commands s1) (commands s2)) w with
        | (Ok response, w') =>
            match answer_parser response VALID_SORTING_ANSWERS with
            | Ok (preference, _) =>
                sort_from rules (survivors preference solutions) failed w'
            | Raise InvalidAnswerError =>
                if (MAX_RETRIES <? S failed)%nat then (Raise SortingFailureError, w')
                else sort_from rules solutions (S failed) w'
            | Raise e => (Raise e, w')
            | OutOfFuel => (OutOfFuel, w')
            end
        | (Raise e, w') => (Raise e, w')
        | (OutOfFuel, w') => (OutOfFuel, w')
        end
    | _, _ => (Raise IndexError, w)
    end.
Proof.
  intros Hlen Hf. unfold sort_from.
  replace (length solutions + MAX_RETRIES)%nat
    with (S (length solutions - 1 + MAX_RETRIES)) by lia.
  rewrite sorting_loop_step by done.
  destruct (solutions !! 0%nat) as [s1|]; [|done].
  destruct (last solutions) as [s2|]; [|done].
  destruct (ask _ w) as [[response|e|] w']; try done.
  destruct (answer_parser response _) as [[preference explanation]|e|]; try done.
  - by rewrite survivors_length.
  - destruct e; try done.
    destruct (MAX_RETRIES <? S failed)%nat eqn:Hmax; [done|].
    apply Nat.ltb_ge in Hmax.
    apply sorting_loop_fuel; unfold enough; lia.
Qed.

Lemma sort_from_done rules solutions failed w :
  (length solutions <= 1)%nat ->
  sort_from rules solutions failed w = (Ok solutions, w).
Proof. apply sorting_loop_done. Qed.

Lemma get_best_solution_unfold solutions policy w :
  get_best_solution solutions policy w
  = match solutions with
    | [] => (Raise Exception, w)
    | [s] => (Ok s, w)
    | _ =>
        match sort_from (sorting_rules policy) solutions 0 w with
        | (Ok remaining, w') =>
            match last remaining with
            | Some s => (Ok s, w')
            | None => (Raise IndexError, w')
            end
        | (Raise e, w') => (Raise e, w')
        | (OutOfFuel, w') => (OutOfFuel, w')
        end
    end.
Proof.
  destruct solutions as [|s1 [|s2 rest]]; try done.
  unfold get_best_solution, sort_from. unfold_st.
  destruct (sorting_loop _ _ _ _ w) as [[remaining|e|] w']; try done.
  by destruct (last remaining).
Qed.

Lemma get_best_solution_many solutions policy w :
  (2 <= length solutions)%nat ->
  get_best_solution solutions policy w
  = match sort_from (sorting_rules policy) solutions 0 w with
    | (Ok remaining, w') =>
        match last remaining with
        | Some s => (Ok s, w')
        | None => (Raise IndexError, w')
        end
    | (Raise e, w') => (Raise e, w')
    | (OutOfFuel, w') => (OutOfFuel, w')
    end.
Proof.
  intros Hlen. rewrite get_best_solution_unfold.
  destruct solutions as [|s1 [|s2 rest]]; cbn in Hlen; try lia. reflexivity.
Qed.

End SortingFacts.

Section TournamentFacts.

Context `{PyRuntime} `{Client}.

Lemma survivors_spec preference (solutions : list Solution) :
  survivors preference solutions
  = if String.eqb preference "solution 1"
    then removelast solutions else tail solutions.
Proof.
  unfold survivors. destruct (String.eqb _ _).
  - rewrite removelast_firstn_len. f_equal. lia.
  - by destruct solutions.
Qed.

Lemma world_eta (w : World) : mkWorld (service w) (trace w) = w.
Proof. by destruct w. Qed.

Lemma judge_calls_answered requests :
  judge_calls (flat_map answered requests) = length requests.
Proof. induction requests as [|r rs IH]; [done|]. cbn. by rewrite <- IH. Qed.

Lemma sort_from_tournament rules n solutions failed w :
  decisive VALID_SORTING_ANSWERS ->
  length solutions = S n -> (failed <= MAX_RETRIES)%nat ->
  exists requests s st',
    tournament n rules solutions (service w) = (requests, [s], st')
    /\ length requests = n
    /\ sort_from rules solutions failed w
       = (Ok [s], mkWorld st' (trace w ++ flat_map answered requests)).
Proof.
  intros Hdec. revert solutions w.
  induction n as [|n IH]; intros solutions w Hlen Hf.
  - destruct solutions as [|s [|? ?]]; try done.
    exists [], s, (service w). cbn [tournament flat_map].
    rewrite sort_from_done, app_nil_r, world_eta by (cbn; lia). done.
  - rewrite sort_from_step by lia. cbn [tournament].
    destruct (solutions !! 0%nat) as [s1|] eqn:H1;
      [|apply lookup_ge_None in H1; lia].
    destruct (last solutions) as [s2|] eqn:H2;
      [|apply last_None in H2; subst; done].
    set (request := SortRequest rules (commands s1) (commands s2)).
    destruct (Hdec request (service w)) as (content & st1 & Hc & Hok).
    rewrite (ask_responds _ _ _ _ Hc), Hc. unfold prefers_first.
    destruct (answer_parser content _) as [[preference explanation]|e|];
      try done.
    rewrite survivors_spec.
    set (remaining := if String.eqb preference _ then _ else _).
    assert (length remaining = S n) as Hrem.
    { unfold remaining. rewrite <- survivors_spec, survivors_length. lia. }
    destruct (IH remaining (mkWorld st1 (trace w ++ answered request)) Hrem Hf)
      as (requests & s & st' & Ht & Hn & Hs).
    cbn [service trace] in Ht, Hs. rewrite Ht, Hs.
    exists (request :: requests), s, st'. cbn [flat_map length].
    by rewrite Hn, <- app_assoc.
Qed.

End TournamentFacts.

Section SortingTheorems.

Context `{PyRuntime} `{Client}.

Lemma chat_attempts_returns ks r w : (chat_attempts ks r w).1 <> OutOfFuel.
Proof.
  revert w. induction ks as [|k ks IH]; intros w; [done|].
  cbn [chat_attempts]. unfold_st. unfold CLIENT_chat.
  destruct (client_chat r (service w)) as [[content|e] st']; [done|].
  destruct (chat_handles e); [|done]. unfold emit. apply IH.
Qed.

Lemma ask_returns r w : (ask r w).1 <> OutOfFuel.
Proof.
  unfold ask, chat. unfold_st. unfold emit.
  pose proof (chat_attempts_returns (seq 0 N_RETRIES) r
                (mkWorld (service w) (trace w ++ [Asked r]))) as Hc.
  destruct (chat_attempts _ _ _) as [[[texts]|e|] w']; try done.
  cbn. by destruct texts.
Qed.

Lemma answer_parser_returns text valid : answer_parser text valid <> OutOfFuel.
Proof.
  unfold answer_parser. repeat (case_match; try done).
Qed.

(** With the fuel it is given, the loop always ends. *)
Lemma sorting_loop_returns fuel rules solutions failed w :
  (failed <= MAX_RETRIES)%nat -> enough fuel solutions failed ->
  (sorting_loop fuel rules solutions failed w).1 <> OutOfFuel.
Proof.
  unfold enough. revert solutions failed w.
  induction fuel as [|fuel IH]; intros solutions failed w Hf Hfuel.
  - by rewrite sorting_loop_done by lia.
  - destruct (decide (1 < length solutions)%nat) as [Hlen|Hlen];
      [|by rewrite sorting_loop_done by lia].
    rewrite sorting_loop_step by done.
    destruct (solutions !! 0%nat) as [s1|]; [|done].
    destruct (last solutions) as [s2|]; [|done].
    pose proof (ask_returns (SortRequest rules (commands s1) (commands s2)) w)
      as Hask.
    destruct (ask _ w) as [[response|e|] w']; [|discriminate|by destruct Hask].
    pose proof (answer_parser_returns response VALID_SORTING_ANSWERS) as Hp.
    destruct (answer_parser response _) as [[preference explanation]|e|];
      [|destruct e; try discriminate|by destruct Hp].
    + apply IH; rewrite ?survivors_length; lia.
    + destruct (MAX_RETRIES <? S failed)%nat eqn:Hmax; [discriminate|].
      apply Nat.ltb_ge in Hmax. apply IH; lia.
Qed.

(** [get_best_solution] always returns or raises, whatever the judge
    does. *)
Lemma get_best_solution_returns solutions policy w :
  (get_best_solution solutions policy w).1 <> OutOfFuel.
Proof.
  rewrite get_best_solution_unfold.
  destruct solutions as [|s1 [|s2 rest]]; try done.
  pose proof (sorting_loop_returns (length (s1 :: s2 :: rest) + MAX_RETRIES)
                (sorting_rules policy) (s1 :: s2 :: rest) 0 w) as Hr.
  unfold sort_from. destruct (sorting_loop _ _ _ _ w) as [[remaining|e|] w'].
  - by destruct (last remaining).
  - done.
  - destruct Hr; [unfold MAX_RETRIES; lia|unfold enough; lia|done].
Qed.

(** With a judge whose every answer parses, the function is the
    tournament. *)
Lemma get_best_solution_decisive solutions policy w :
  decisive VALID_SORTING_ANSWERS -> (2 <= length solutions)%nat ->
  exists requests s st',
    tournament (length solutions - 1) (sorting_rules policy) solutions (service w)
    = (requests, [s], st')
    /\ length requests = (length solutions - 1)%nat
    /\ get_best_solution solutions policy w
       = (Ok s, mkWorld st' (trace w ++ flat_map answered requests)).
Proof.
  intros Hdec Hlen.
  destruct (sort_from_tournament (sorting_rules policy) (length solutions - 1)
              solutions 0 w Hdec) as (requests & s & st' & Ht & Hn & Hs);
    [lia|unfold MAX_RETRIES; lia|].
  exists requests, s, st'. repeat split; try done.
  rewrite get_best_solution_unfold, Hs.
  by destruct solutions as [|? [|? ?]]; try (cbn in Hlen; lia).
Qed.

(** C2.  With a judge whose every reply parses to a sorting answer and
    at least two solutions, [get_best_solution] returns the winner of
    [tournament]: each round asks once about the first and the last
    solution of the current list, drops the last one when the answer is
    "solution 1" and the first one otherwise, keeps the order of the
    others, and returns the one left.  The judge is asked the requests
    of the tournament, in their order, and nothing else.  For two
    solutions and a judge that always answers "solution 1", the first
    one is returned. *)
Theorem get_best_solution_is_tournament solutions policy w :
  decisive VALID_SORTING_ANSWERS -> (2 <= length solutions)%nat ->
  (exists requests s st',
      tournament (length solutions - 1) (sorting_rules policy) solutions (service w)
      = (requests, [s], st')
      /\ get_best_solution solutions policy w
         = (Ok s, mkWorld st' (trace w ++ flat_map answered requests)))
  /\ (forall a b, solutions = [a; b] -> always_first ->
      (get_best_solution solutions policy w).1 = Ok a).
Proof.
  intros Hdec Hlen.
  destruct (get_best_solution_decisive solutions policy w Hdec Hlen)
    as (requests & s & st' & Ht & Hn & Hbest).
  split; [by eauto|].
  intros a b -> Hfirst. rewrite Hbest. cbn [fst]. f_equal.
  cbn in Ht. destruct (Hfirst (SortRequest (sorting_rules policy) (commands a)
                                 (commands b)) (service w))
    as (content & st1 & Hc & Hp).
  rewrite Hc in Ht. unfold prefers_first in Ht. rewrite Hp in Ht.
  cbn in Ht. by injection Ht as _ <- _.
Qed.


End SortingTheorems.

(** ** Sorting against a scripted judge *)

Section BudgetFacts.

Context `{PyRuntime}.

Local Existing Instance ScriptedClient.

Lemma ask_script r text answers tr :
  ask r (script_world (text :: answers) tr)
  = (Ok text, script_world answers (tr ++ answered r)).
Proof. by apply ask_responds. Qed.

Lemma parseable_or_not text : parseable text = negb (unparseable text).
Proof.
  unfold parseable, unparseable.
  destruct (answer_parser_outcome text VALID_SORTING_ANSWERS
              sorting_answers_lower) as [(token & -> & _)| ->]; done.
Qed.

(** The loop reads a prefix of the script that leaves it with at least
    two solutions and within its budget of failures. *)
Lemma sort_from_reads rules pre rest solutions failed tr :
  (failed + failures pre <= MAX_RETRIES)%nat ->
  (successes pre + 2 <= length solutions)%nat ->
  exists remaining requests,
    length remaining = (length solutions - successes pre)%nat
    /\ length requests = length pre
    /\ sort_from rules solutions failed (script_world (pre ++ rest) tr)
       = sort_from rules remaining (failed + failures pre)
           (script_world rest (tr ++ flat_map answered requests)).
Proof.
  revert solutions failed tr.
  induction pre as [|text pre IH]; intros solutions failed tr Hf Hs.
  - exists solutions, []. cbn. rewrite Nat.sub_0_r, Nat.add_0_r, app_nil_r. done.
  - unfold failures, successes in Hf, Hs. cbn [List.filter] in Hf, Hs.
    rewrite parseable_or_not in Hs.
    rewrite sort_from_step by lia.
    destruct (solutions !! 0%nat) as [s1|] eqn:H1;
      [|apply lookup_ge_None in H1; lia].
    destruct (last solutions) as [s2|] eqn:H2;
      [|apply last_None in H2; subst; cbn in Hs; lia].
    set (request := SortRequest rules (commands s1) (commands s2)).
    cbn [app]. rewrite ask_script.
    unfold failures at 1, successes at 1. cbn [List.filter].
    rewrite parseable_or_not.
    destruct (answer_parser_outcome text VALID_SORTING_ANSWERS
                sorting_answers_lower) as [(token & Hp & _)|Hp].
    + assert (unparseable text = false) as Hu
        by (unfold unparseable; by rewrite Hp).
      rewrite Hu in *. rewrite Hp. cbn [negb length] in *.
      destruct (IH (survivors token solutions) failed (tr ++ answered request))
        as (remaining & requests & Hrem & Hreq & Heq).
      * exact Hf.
      * rewrite survivors_length. unfold successes. lia.
      * exists remaining, (request :: requests).
        rewrite survivors_length in Hrem. unfold successes in Hrem.
        split; [lia|]. split; [cbn [length]; lia|].
        rewrite Heq. cbn [flat_map]. by rewrite <- app_assoc.
    + assert (unparseable text = true) as Hu
        by (unfold unparseable; by rewrite Hp).
      rewrite Hu in *. rewrite Hp. cbn [negb length] in *.
      destruct (MAX_RETRIES <? S failed)%nat eqn:Hmax;
        [apply Nat.ltb_lt in Hmax; lia|].
      destruct (IH solutions (S failed) (tr ++ answered request))
        as (remaining & requests & Hrem & Hreq & Heq).
      * unfold failures. lia.
      * unfold successes. lia.
      * exists remaining, (request :: requests).
        split; [exact Hrem|]. split; [cbn [length]; lia|].
        rewrite Heq. cbn [flat_map]. rewrite <- app_assoc.
        by replace (S failed + failures pre)%nat
          with (failed + S (length (List.filter unparseable pre)))%nat
          by (unfold failures; lia).
Qed.

End BudgetFacts.

Section BudgetTheorems.

Context `{PyRuntime}.

Local Existing Instance ScriptedClient.

Lemma unparseable_raises text :
  unparseable text = true ->
  answer_parser text VALID_SORTING_ANSWERS = Raise InvalidAnswerError.
Proof.
  unfold unparseable.
  destruct (answer_parser text _) as [?|[]|]; done.
Qed.

Lemma parseable_returns text :
  parseable text = true ->
  exists token, answer_parser text VALID_SORTING_ANSWERS = Ok (token, "").
Proof.
  unfold parseable.
  destruct (answer_parser_outcome text VALID_SORTING_ANSWERS
              sorting_answers_lower) as [(token & -> & _)| ->]; [eauto|done].
Qed.


End BudgetTheorems.

(** ** Concrete inputs *)

Section Examples.

Local Existing Instance no_repr.
Local Existing Instance ScriptedClient.



End Examples.

(** ** Filtering *)

Section FilteringFacts.

Context `{PyRuntime} `{Client}.

Lemma kept_sublist solutions texts : sublist (kept solutions texts) solutions.
Proof.
  revert texts. induction solutions as [|s solutions IH]; intros [|text texts];
    cbn; try apply sublist_nil_l.
  destruct (says_no text); [apply sublist_skip|apply sublist_cons]; apply IH.
Qed.

Lemma decision_cases text :
  (answer_parser text VALID_FILTERING_ANSWERS = Ok ("yes", "")
   /\ decided text = true /\ says_no text = false)
  \/ (answer_parser text VALID_FILTERING_ANSWERS = Ok ("no", "")
      /\ decided text = true /\ says_no text = true)
  \/ (answer_parser text VALID_FILTERING_ANSWERS = Raise InvalidAnswerError
      /\ decided text = false /\ says_no text = false).
Proof.
  unfold decided, says_no.
  destruct (answer_parser_outcome text VALID_FILTERING_ANSWERS
              filtering_answers_lower) as [(token & -> & Hin)| ->]; [|auto].
  unfold VALID_FILTERING_ANSWERS in Hin.
  apply elem_of_union in Hin as [->%elem_of_singleton| ->%elem_of_singleton];
    auto.
Qed.

(** The loop when every decision parses. *)
Lemma filter_loop_decided rules solutions valid mask w :
  responsive ->
  forallb decided (answers rules solutions (service w)).1 = true ->
  filter_loop rules solutions valid mask w
  = (Ok (valid ++ kept solutions (answers rules solutions (service w)).1,
         mask ++ (says_no <$> (answers rules solutions (service w)).1)),
     mkWorld (answers rules solutions (service w)).2
       (trace w ++ flat_map answered (filter_request rules <$> solutions))).
Proof.
  intros Hresp. revert valid mask w.
  induction solutions as [|s solutions IH]; intros valid mask w.
  - intros _. cbn. by rewrite !app_nil_r, world_eta.
  - cbn [answers filter_loop]. unfold_st.
    destruct (Hresp (filter_request rules s) (service w)) as (content & st1 & Hc).
    fold (filter_request rules s). rewrite (ask_responds _ _ _ _ Hc), Hc.
    pose proof (IH valid (mask ++ [false])
                  (mkWorld st1 (trace w ++ answered (filter_request rules s))))
      as IHyes.
    pose proof (IH (valid ++ [s]) (mask ++ [true])
                  (mkWorld st1 (trace w ++ answered (filter_request rules s))))
      as IHno.
    cbn [service trace] in IHyes, IHno.
    destruct (answers rules solutions st1) as [texts st2] eqn:Ha.
    cbn [fst snd forallb kept fmap list_fmap flat_map] in *.
    intros [Hd Hds]%andb_prop.
    destruct (decision_cases content) as [(Hp & _ & Hno)|[(Hp & _ & Hno)|(_ & Hu & _)]];
      [| |congruence]; rewrite Hp, Hno; cbn.
    + rewrite (IHyes Hds), <- !app_assoc. done.
    + rewrite (IHno Hds), <- !app_assoc. done.
Qed.

(** The loop when some decision does not parse: it stops at the first
    such decision, having asked about each solution up to it once. *)
Lemma filter_loop_undecided rules solutions valid mask w :
  responsive ->
  forallb decided (answers rules solutions (service w)).1 = false ->
  exists k w',
    (k < length solutions)%nat
    /\ filter_loop rules solutions valid mask w = (Raise InvalidAnswerError, w')
    /\ trace w'
       = trace w ++ flat_map answered (take (S k) (filter_request rules <$> solutions)).
Proof.
  intros Hresp. revert valid mask w.
  induction solutions as [|s solutions IH]; intros valid mask w; [done|].
  cbn [answers filter_loop]. unfold_st.
  destruct (Hresp (filter_request rules s) (service w)) as (content & st1 & Hc).
  fold (filter_request rules s). rewrite (ask_responds _ _ _ _ Hc), Hc.
  pose proof (IH valid (mask ++ [false])
                (mkWorld st1 (trace w ++ answered (filter_request rules s))))
    as IHyes.
  pose proof (IH (valid ++ [s]) (mask ++ [true])
                (mkWorld st1 (trace w ++ answered (filter_request rules s))))
    as IHno.
  cbn [service trace] in IHyes, IHno.
  destruct (answers rules solutions st1) as [texts st2] eqn:Ha.
  cbn [fst snd forallb] in *.
  destruct (decision_cases content)
    as [(Hp & Hd & Hno)|[(Hp & Hd & Hno)|(Hp & Hu & _)]]; rewrite Hp; cbn.
  - rewrite Hd. cbn. intros (k & w' & Hk & Hl & Ht)%IHyes.
    exists (S k), w'. split; [lia|]. split; [done|].
    rewrite Ht. cbn [flat_map take fmap list_fmap]. by rewrite <- app_assoc.
  - rewrite Hd. cbn. intros (k & w' & Hk & Hl & Ht)%IHno.
    exists (S k), w'. split; [lia|]. split; [done|].
    rewrite Ht. cbn [flat_map take fmap list_fmap]. by rewrite <- app_assoc.
  - intros _. exists 0%nat. eexists. split; [lia|]. split; [done|].
    cbn. by rewrite take_0.
Qed.

End FilteringFacts.

Section FilteringTheorems.

Context `{PyRuntime} `{Client}.

Lemma filter_solutions_unfold solutions policy w :
  filter_solutions solutions policy None w
  = match filter_loop (filtering_rules policy) solutions [] [] w with
    | (Ok (valid_solutions, _), w') => (Ok valid_solutions, w')
    | (Raise e, w') => (Raise e, w')
    | (OutOfFuel, w') => (OutOfFuel, w')
    end.
Proof.
  unfold filter_solutions. unfold_st.
  by destruct (filter_loop _ _ _ _ w) as [[[valid mask]|e|] w'].
Qed.

Lemma forallb_false_Exists {A} (p : A -> bool) (l : list A) :
  forallb p l = false <-> Exists (fun x => p x = false) l.
Proof.
  induction l as [|x l IH]; cbn.
  - split; [done|]. by intros ?%Exists_nil.
  - rewrite Exists_cons, <- IH. destruct (p x); cbn; intuition congruence.
Qed.


End FilteringTheorems.

Section Idempotence.

Context `{PyRuntime}.
Variable judge : Request -> string.

Local Abbreviation client := (FunctionClient judge).

Lemma function_client_responsive : @responsive client.
Proof. intros r st. by exists (judge r), st. Qed.

Lemma answers_function rules solutions st :
  @answers client rules solutions st
  = ((fun s => judge (filter_request rules s)) <$> solutions, st).
Proof.
  induction solutions as [|s solutions IH]; [done|].
  cbn [answers client_chat FunctionClient]. by rewrite IH.
Qed.

Lemma kept_filter rules solutions :
  kept solutions ((fun s => judge (filter_request rules s)) <$> solutions)
  = List.filter (fun s => says_no (judge (filter_request rules s))) solutions.
Proof.
  induction solutions as [|s solutions IH]; [done|]. cbn.
  by rewrite IH.
Qed.

Lemma says_no_decided text : says_no text = true -> decided text = true.
Proof.
  unfold says_no, decided. by destruct (answer_parser text _) as [[]| |].
Qed.

Lemma filter_twice {A} (p : A -> bool) (l : list A) :
  List.filter p (List.filter p l) = List.filter p l.
Proof.
  induction l as [|x l IH]; [done|]. cbn.
  destruct (p x) eqn:Hx; cbn; by rewrite ?Hx, IH.
Qed.

(** C9.  With the judge a function of the request, filtering the result
    of a filtering once more gives the result of the first filtering
    (the same list, or the same exception). *)
Theorem filter_solutions_idempotent solutions policy (w : @World client) :
  ((filtered ← @filter_solutions _ client solutions policy None;
    @filter_solutions _ client filtered policy None) w).1
  = (@filter_solutions _ client solutions policy None w).1.
Proof.
  unfold_st. rewrite !filter_solutions_unfold.
  set (rules := filtering_rules policy).
  set (verdict := fun s => judge (filter_request rules s)).
  destruct (forallb decided (@answers client rules solutions (service w)).1)
    eqn:Hall.
  - rewrite (filter_loop_decided _ _ _ _ _ function_client_responsive Hall).
    rewrite filter_solutions_unfold. fold rules.
    rewrite answers_function. cbn [fst snd app].
    rewrite kept_filter. fold verdict.
    set (survivors := List.filter (fun s => says_no (verdict s)) solutions).
    rewrite filter_loop_decided; [|apply function_client_responsive|].
    + rewrite answers_function. cbn [fst snd app]. rewrite kept_filter.
      fold verdict. unfold survivors. by rewrite filter_twice.
    + rewrite answers_function. cbn [fst]. apply forallb_forall.
      intros text (s & <- & Hs)%in_map_iff. apply says_no_decided.
      by apply List.filter_In in Hs as [_ Hs].
  - destruct (filter_loop_undecided _ _ [] [] _ function_client_responsive Hall)
      as (k & w' & _ & -> & _). done.
Qed.

End Idempotence.

(** ** The gateway gives up after five attempts *)

Section ChatTheorem.

Context `{Client}.


End ChatTheorem.

(** ** Sorting leaves the caller's objects alone *)

Section StoreFacts.

Context `{PyRuntime} `{Client}.

Lemma solutions_at_weaken (h h' : Store) items sols :
  h ⊆ h' -> solutions_at h items sols -> solutions_at h' items sols.
Proof.
  intros Hsub Hat. eapply Forall2_impl; [exact Hat|]. intros r s Hr.
  cbv beta in *. eapply lookup_weaken; [exact Hr|exact Hsub].
Qed.

Lemma solutions_at_last h items sols r :
  solutions_at h items sols -> last items = Some r ->
  exists s, last sols = Some s /\ h !! r = Some (SolutionObject s).
Proof.
  intros Hat. induction Hat as [|r0 s0 items sols Hr Hat IH]; [done|].
  destruct Hat as [|r1 s1 items sols Hr1 Hat].
  - cbn. intros [= <-]. eauto.
  - intros Hl. apply IH. exact Hl.
Qed.

Lemma new_list_extends (h : Store) items :
  h ⊆ <[fresh (dom h) := ListObject items]> h.
Proof.
  apply insert_subseteq. apply not_elem_of_dom. apply is_fresh.
Qed.

Lemma assert_solutions_pure items (m : Mem) :
  (assert_solutions items m).2 = m.
Proof.
  induction items as [|r items IH]; [done|].
  cbn [assert_solutions]. unfold_st. unfold load_solution.
  destruct (m.1 !! r) as [[?|?]|]; try done.
Qed.

Lemma assert_solutions_ok h w items sols :
  solutions_at h items sols -> assert_solutions items (h, w) = (Ok tt, (h, w)).
Proof.
  intros Hat. induction Hat as [|r s items sols Hr Hat IH]; [done|].
  cbn [assert_solutions]. unfold_st. unfold load_solution. cbn [fst].
  by rewrite Hr.
Qed.

(** The loop on references allocates and reads, and does what the loop
    on values does. *)
Lemma sorting_loop_ref_simulates fuel rules l items sols failed h w :
  h !! l = Some (ListObject items) -> solutions_at h items sols ->
  exists o h' w',
    sorting_loop_ref fuel rules l failed (h, w) = (o, (h', w'))
    /\ h ⊆ h'
    /\ match sorting_loop fuel rules sols failed w with
       | (Ok sols', w1) =>
           exists l' items',
             o = Ok l' /\ h' !! l' = Some (ListObject items')
             /\ solutions_at h' items' sols' /\ sublist items' items /\ w' = w1
       | (Raise e, w1) => o = Raise e /\ w' = w1
       | (OutOfFuel, w1) => o = OutOfFuel /\ w' = w1
       end.
Proof.
  revert l items sols failed h w.
  induction fuel as [|fuel IH]; intros l items sols failed h w Hl Hat.
  - cbn [sorting_loop_ref sorting_loop]. unfold_st. unfold load_list.
    cbn [fst]. rewrite Hl, (Forall2_length _ _ _ Hat).
    destruct (1 <? length sols)%nat.
    + exists OutOfFuel, h, w. done.
    + exists (Ok l), h, w. split; [done|]. split; [done|].
      exists l, items. done.
  - cbn [sorting_loop_ref sorting_loop]. unfold_st. unfold load_list.
    cbn [fst]. rewrite Hl, (Forall2_length _ _ _ Hat).
    destruct (1 <? length sols)%nat eqn:Hlen;
      [|exists (Ok l), h, w; split; [done|]; split; [done|];
        by exists l, items].
    destruct (items !! 0%nat) as [r1|] eqn:H1.
    2:{ pose proof (Forall2_length _ _ _ Hat). apply Nat.ltb_lt in Hlen.
        apply lookup_ge_None in H1. lia. }
    destruct (Forall2_lookup_l _ _ _ _ _ Hat H1) as (s1 & Hs1 & Hr1).
    destruct (last items) as [r2|] eqn:H2.
    2:{ apply last_None in H2. subst. done. }
    destruct (solutions_at_last _ _ _ _ Hat H2) as (s2 & Hs2 & Hr2).
    rewrite Hs1, Hs2. unfold load_solution. cbn [fst]. rewrite Hr1.
    cbn [fst]. rewrite Hr2. unfold in_world. cbn [fst snd].
    destruct (ask (SortRequest rules (commands s1) (commands s2)) w)
      as [[response|e|] w1].
    + destruct (answer_parser response VALID_SORTING_ANSWERS)
        as [[preference explanation]|e|].
      * unfold new_list. cbn [fst snd].
        set (items' := if ((if String.eqb preference "solution 1"
                            then 1 else 2) =? 1)%nat
                       then take (length sols - 1) items else drop 1 items).
        set (sols' := if ((if String.eqb preference "solution 1"
                           then 1 else 2) =? 1)%nat
                      then take (length sols - 1) sols else drop 1 sols).
        set (h1 := <[fresh (dom h) := ListObject items']> h).
        assert (h ⊆ h1) as Hsub by apply new_list_extends.
        assert (solutions_at h1 items' sols') as Hat'.
        { apply (solutions_at_weaken h); [done|]. unfold items', sols'.
          destruct (_ =? 1)%nat; [by apply Forall2_take|by apply Forall2_drop]. }
        assert (sublist items' items) as Hsl.
        { unfold items'. destruct (_ =? 1)%nat;
            [apply sublist_take|apply sublist_drop]. }
        destruct (IH (fresh (dom h)) items' sols' failed h1 w1)
          as (o & h' & w' & Heq & Hsub' & Hsim);
          [by apply lookup_insert_eq|done|].
        exists o, h', w'. split; [done|]. split; [by etrans|].
        destruct (sorting_loop fuel rules sols' failed w1) as [[sols''|e|] w2];
          [|done..].
        destruct Hsim as (l' & items'' & ? & ? & ? & ? & ?).
        exists l', items''.
        split; [done|]. split; [done|]. split; [done|]. split; [by etrans|done].
      * destruct e; try (by eexists (Raise _), h, w1).
        destruct (MAX_RETRIES <? S failed)%nat;
          [by exists (Raise SortingFailureError), h, w1|].
        by apply IH.
      * by exists OutOfFuel, h, w1.
    + by exists (Raise e), h, w1.
    + by exists OutOfFuel, h, w1.
Qed.

Lemma assert_solutions_cases h w items :
  (exists sols, solutions_at h items sols
                /\ assert_solutions items (h, w) = (Ok tt, (h, w)))
  \/ assert_solutions items (h, w) = (Raise AssertionError, (h, w)).
Proof.
  induction items as [|r items IH].
  - left. exists []. split; [constructor|done].
  - cbn [assert_solutions]. unfold_st. unfold load_solution. cbn [fst].
    destruct (h !! r) as [[?|s]|] eqn:Hr; [by right| |by right].
    destruct IH as [(sols & Hat & ->)| ->]; [|by right].
    left. exists (s :: sols). split; [by constructor|done].
Qed.

Lemma solutions_at_elem h items sols s :
  solutions_at h items sols -> s ∈ sols ->
  exists r, r ∈ items /\ h !! r = Some (SolutionObject s).
Proof.
  intros Hat Hs. apply list_elem_of_lookup in Hs as [i Hi].
  destruct (Forall2_lookup_r _ _ _ _ _ Hat Hi) as (r & Hr & Hobj).
  exists r. split; [|done]. apply list_elem_of_lookup. eauto.
Qed.

(** The function on references: whatever it is given, what was in the
    store is still there; given a list of solutions, it does what the
    function on values does and returns one of the references it was
    given. *)
Lemma get_best_solution_ref_run solutions policy h w :
  exists o h' w',
    get_best_solution_ref solutions policy (h, w) = (o, (h', w'))
    /\ h ⊆ h'
    /\ forall items sols,
         h !! solutions = Some (ListObject items) -> solutions_at h items sols ->
         match get_best_solution sols policy w with
         | (Ok s, w1) =>
             exists r, o = Ok r /\ r ∈ items
                       /\ h !! r = Some (SolutionObject s) /\ w' = w1
         | (Raise e, w1) => o = Raise e /\ w' = w1
         | (OutOfFuel, w1) => o = OutOfFuel /\ w' = w1
         end.
Proof.
  unfold get_best_solution_ref. unfold_st. unfold load_list at 1. cbn [fst].
  destruct (h !! solutions) as [[items|?]|] eqn:Hl;
    [|by exists (Raise AssertionError), h, w..].
  destruct (assert_solutions_cases h w items) as [(sols & Hat & ->)|Hassert].
  2:{ rewrite Hassert. exists (Raise AssertionError), h, w.
      split; [done|]. split; [done|]. intros items' sols' [= <-] Hat'.
      rewrite (assert_solutions_ok _ w _ _ Hat') in Hassert. discriminate. }
  pose proof (Forall2_length _ _ _ Hat) as Hlen.
  destruct items as [|r1 [|r2 more]].
  - exists (Raise Exception), h, w. split; [done|]. split; [done|].
    intros ? sols' [= <-] Hat'. apply Forall2_nil_inv_l in Hat' as ->. done.
  - exists (Ok r1), h, w. split; [done|]. split; [done|].
    intros ? sols' [= <-] Hat'.
    apply Forall2_cons_inv_l in Hat' as (s & ? & Hs & ->%Forall2_nil_inv_l & ->).
    cbn. exists r1. split; [done|]. split; [apply list_elem_of_here|]. done.
  - set (items0 := r1 :: r2 :: more) in *.
    destruct (sorting_loop_ref_simulates (length items0 + MAX_RETRIES)
                (sorting_rules policy) solutions items0 sols 0 h w Hl Hat)
      as (o & h' & w' & Heq & Hsub & Hsim).
    rewrite Heq.
    assert (forall sols', solutions_at h items0 sols' -> sols' = sols) as Huniq.
    { intros sols' Hat'. clear -Hat Hat'. revert sols' Hat'.
      induction Hat as [|r s items sols Hr Hat IH]; intros sols' Hat'.
      - by apply Forall2_nil_inv_l in Hat'.
      - apply Forall2_cons_inv_l in Hat' as (s' & sols'' & Hs & Hat' & ->).
        rewrite Hr in Hs. injection Hs as <-. f_equal. by apply IH. }
    rewrite Hlen in Hsim.
    assert (get_best_solution sols policy w
            = match sorting_loop (length sols + MAX_RETRIES)
                      (sorting_rules policy) sols 0 w with
              | (Ok remaining, w1) =>
                  match last remaining with
                  | Some s => (Ok s, w1)
                  | None => (Raise IndexError, w1)
                  end
              | (Raise e, w1) => (Raise e, w1)
              | (OutOfFuel, w1) => (OutOfFuel, w1)
              end) as Hpure.
    { apply get_best_solution_many. rewrite <- Hlen. cbn. lia. }
    destruct (sorting_loop _ _ sols 0 w) as [[remaining|e|] w1].
    + destruct Hsim as (l' & items' & -> & Hl' & Hat' & Hsl & ->).
      unfold load_list. cbn [fst]. rewrite Hl'.
      destruct (last items') as [r|] eqn:Hlast.
      * destruct (solutions_at_last _ _ _ _ Hat' Hlast) as (s & Hs & Hr).
        exists (Ok r), h', w1. split; [done|]. split; [done|].
        intros ? sols' [= <-] ->%Huniq. rewrite Hpure, Hs.
        exists r. split; [done|].
        assert (r ∈ items0) as Hin.
        { eapply elem_of_sublist; [|exact Hsl].
          by apply last_Some_elem_of. }
        split; [done|]. split; [|done].
        apply list_elem_of_lookup in Hin as [i Hi].
        destruct (Forall2_lookup_l _ _ _ _ _ Hat Hi) as (s' & _ & Hobj).
        cbv beta in Hobj.
        pose proof (lookup_weaken _ _ _ _ Hobj Hsub) as Hobj'.
        pose proof (eq_trans (eq_sym Hobj') Hr) as Hss.
        injection Hss as ->. exact Hobj.
      * exists (Raise IndexError), h', w1. split; [done|]. split; [done|].
        intros ? sols' [= <-] ->%Huniq. rewrite Hpure.
        apply last_None in Hlast as ->.
        apply Forall2_nil_inv_l in Hat' as ->. done.
    + destruct Hsim as [-> ->]. exists (Raise e), h', w1.
      split; [done|]. split; [done|].
      intros ? sols' [= <-] ->%Huniq. by rewrite Hpure.
    + destruct Hsim as [-> ->]. exists OutOfFuel, h', w1.
      split; [done|]. split; [done|].
      intros ? sols' [= <-] ->%Huniq. by rewrite Hpure.
Qed.

End StoreFacts.

Section StoreTheorem.

Context `{PyRuntime} `{Client}.

(** C10.  Whatever its outcome, [get_best_solution] run on the object
    store leaves every object the store held before the call as it was:
    the caller's list object and the solutions in it are unchanged, the
    slices being new objects. *)
Theorem get_best_solution_does_not_mutate solutions policy h w :
  exists o h' w',
    get_best_solution_ref solutions policy (h, w) = (o, (h', w'))
    /\ forall l obj, h !! l = Some obj -> h' !! l = Some obj.
Proof.
  destruct (get_best_solution_ref_run solutions policy h w)
    as (o & h' & w' & Heq & Hsub & _).
  exists o, h', w'. split; [done|]. intros l obj Hl.
  eapply lookup_weaken; [exact Hl|exact Hsub].
Qed.

End StoreTheorem.

(** ** The answer parser, stated *)

Section AnswerParserTheorem.

Context `{PyRuntime}.


End AnswerParserTheorem.

Section AnswerParserExamples.

Local Existing Instance no_repr.



End AnswerParserExamples.

(** ** The lifecycle tracker *)

Section TrackerFacts.

Import Tracker.

(** With a single record tracked, the cleaning step removes it exactly
    when its conflict is no longer detected or the grace period after
    its first command is over. *)
Lemma clean_single_record now rc solution first rest conf_list :
  commands solution = first :: rest ->
  clean_conflicts_under_resolution now
    (mkTracker [rc] {[callsigns rc := solution]}) conf_list
  = (Ok tt,
     if negb (conflict_in rc conf_list) || (now >? Command.time first + GRACE)
     then mkTracker [] ∅
     else mkTracker [rc] {[callsigns rc := solution]}).
Proof.
  intros Hc. unfold clean_conflicts_under_resolution, enumerate.
  cbn [conflicts_under_reso imap clean_loop]. unfold clean_step.
  cbn [conflicts_under_reso_solution].
  assert (drop_record 0 rc (mkTracker [rc] {[callsigns rc := solution]})
          = (Ok tt, mkTracker [] ∅)) as Hdrop.
  { unfold drop_record, list_pop, dict_pop. cbn.
    by rewrite lookup_singleton_eq, delete_singleton_eq. }
  destruct (conflict_in rc conf_list); cbn [negb orb].
  - rewrite lookup_singleton_eq, Hc. cbn [lookup list_lookup].
    destruct (now >? Command.time first + GRACE); [by rewrite Hdrop|done].
  - by rewrite Hdrop.
Qed.

End TrackerFacts.

Section TrackerExamples.

Import Tracker.

Example tracker_evicts_at_125 :
  clean_conflicts_under_resolution (seconds 125)
    (mkTracker [conflict_C] {[callsigns conflict_C := at_100]}) [conflict_C]
  = (Ok tt, mkTracker [] ∅).
Proof.
  rewrite (clean_single_record (seconds 125) conflict_C at_100 _ []
             [conflict_C] eq_refl).
  assert (negb (conflict_in conflict_C [conflict_C])
          || (seconds 125 >? seconds 100 + GRACE) = true) as Hb
    by (vm_compute; reflexivity).
  cbn [Command.time]. by rewrite Hb.
Qed.

Example tracker_retains_at_115 :
  clean_conflicts_under_resolution (seconds 115)
    (mkTracker [conflict_C] {[callsigns conflict_C := at_100]}) [conflict_C]
  = (Ok tt, mkTracker [conflict_C] {[callsigns conflict_C := at_100]}).
Proof.
  rewrite (clean_single_record (seconds 115) conflict_C at_100 _ []
             [conflict_C] eq_refl).
  assert (negb (conflict_in conflict_C [conflict_C])
          || (seconds 115 >? seconds 100 + GRACE) = false) as Hb
    by (vm_compute; reflexivity).
  cbn [Command.time]. by rewrite Hb.
Qed.

(** C8.  Two records removable in one pass.  With a third record behind
    them, the second [pop] takes the index of the copy into the list
    already shortened: the resolved conflict B stays in the list and the
    unresolved conflict C, still within its grace period, leaves it.
    With nothing behind them, the second [pop] is out of range. *)
Theorem clean_pops_at_stale_index :
  clean_conflicts_under_resolution (seconds 115) three_tracked [conflict_C]
  = (Ok tt, mkTracker [conflict_B] {[callsigns conflict_C := at_100]})
  /\ clean_conflicts_under_resolution (seconds 115) two_tracked []
     = (Raise IndexError,
        mkTracker [conflict_B] {[callsigns conflict_B := at_100]}).
Proof. split; compute_done. Qed.

End TrackerExamples.

(** ** Policy loading *)

Section DictFacts.

Lemma dict_get_None d k : k ∉ d.*1 -> Dict.get d k = None.
Proof.
  induction d as [|[k' v] d IH]; [done|]. cbn.
  intros Hk. apply not_elem_of_cons in Hk as [Hne Hk].
  destruct (String.eqb_spec k k'); [done|]. by apply IH.
Qed.

Lemma dict_set_keys d k v k' :
  k' ∈ (Dict.set d k v).*1 <-> k' = k \/ k' ∈ d.*1.
Proof.
  induction d as [|[k0 v0] d IH]; cbn.
  - rewrite list_elem_of_singleton, elem_of_nil. tauto.
  - destruct (String.eqb_spec k k0) as [->|Hne]; cbn.
    + rewrite !elem_of_cons. tauto.
    + rewrite !elem_of_cons, IH. tauto.
Qed.

Lemma dict_set_NoDup d k v : NoDup d.*1 -> NoDup (Dict.set d k v).*1.
Proof.
  induction d as [|[k0 v0] d IH]; cbn.
  - intros _. apply NoDup_singleton.
  - intros [Hk0 Hd]%NoDup_cons.
    destruct (String.eqb_spec k k0) as [->|Hne]; cbn.
    + by apply NoDup_cons.
    + apply NoDup_cons. split; [|by apply IH].
      rewrite dict_set_keys. intros [->|?]; done.
Qed.

Lemma dict_of_pairs_NoDup pairs : NoDup (Dict.of_pairs pairs).*1.
Proof.
  unfold Dict.of_pairs.
  assert (forall d, NoDup d.*1 ->
            NoDup (fold_left (fun d kv => Dict.set d kv.1 kv.2) pairs d).*1)
    as Hfold.
  { induction pairs as [|kv pairs IH]; intros d Hd; [done|].
    cbn. apply IH. by apply dict_set_NoDup. }
  apply Hfold. constructor.
Qed.

End DictFacts.

Section LoadsFacts.

Import Json.

Lemma lex_cons_S k c s : lex (S k) (String c s) = lex k s.
Proof. reflexivity. Qed.

Lemma lex_cons_O c s :
  lex 0 (String c s)
  = if is_ws c then lex 0 s
    else match punctuation c with
         | Some t => cons t <$> lex 0 s
         | None =>
             if Ascii.eqb c "034" then
               match scan_string s with
               | Some (ps, n) => cons (TScalar (JString (decode ps))) <$> lex n s
               | None => None
               end
             else
               match scan_word (String c s) with
               | Some (v, n) => cons (TScalar v) <$> lex (Nat.pred n) s
               | None => None
               end
         end.
Proof. reflexivity. Qed.

Lemma punctuation_flat c t : punctuation c = Some t -> flat t.
Proof.
  unfold punctuation. repeat case_match; intros [= <-]; exact I.
Qed.

Lemma scan_word_flat s v n : scan_word s = Some (v, n) -> flat (TScalar v).
Proof.
  unfold scan_word. repeat case_match; intros [= <- _]; exact I.
Qed.

Lemma lex_flat s : forall skip ts, lex skip s = Some ts -> Forall flat ts.
Proof.
  induction s as [|c s IH]; intros skip ts.
  - intros [= <-]. constructor.
  - destruct skip as [|k]; [|rewrite lex_cons_S; apply IH].
    rewrite lex_cons_O. destruct (is_ws c); [apply IH|].
    destruct (punctuation c) as [t|] eqn:Hp.
    + destruct (lex 0 s) as [ts'|] eqn:Hl; [|done]. intros [= <-].
      constructor; [by eapply punctuation_flat|by eapply IH].
    + destruct (Ascii.eqb c "034").
      * destruct (scan_string s) as [[ps n]|]; [|done].
        destruct (lex n s) as [ts'|] eqn:Hl; [|done]. intros [= <-].
        constructor; [exact I|by eapply IH].
      * destruct (scan_word (String c s)) as [[v n]|] eqn:Hw; [|done].
        destruct (lex (Nat.pred n) s) as [ts'|] eqn:Hl; [|done]. intros [= <-].
        constructor; [by eapply scan_word_flat|by eapply IH].
Qed.

Lemma step_done e stack t v stack' :
  flat t -> step e stack t = Some (Done v, stack') -> distinct_keys v.
Proof.
  intros Hflat Hstep.
  destruct e; destruct t as [| | | | | |[]];
    destruct stack as [|[?|? ?] [|[?|? ?] stack]];
    cbn in *; try done; simplify_eq; cbn; try done.
  - constructor.
  - apply dict_of_pairs_NoDup.
Qed.

Lemma run_distinct ts e stack v :
  Forall flat ts -> (forall v', e = Done v' -> distinct_keys v') ->
  run e stack ts = Some v -> distinct_keys v.
Proof.
  revert e stack. induction ts as [|t ts IH]; intros e stack Hflat He; cbn.
  - destruct e; try done. intros [= <-]. by apply He.
  - apply Forall_cons in Hflat as [Ht Hts].
    destruct (step e stack t) as [[e' stack']|] eqn:Hstep; [|done].
    apply IH; [done|]. intros v' ->. by eapply step_done.
Qed.

(** The keys of a decoded dictionary are distinct. *)
Lemma loads_distinct s d : loads s = Some (JObject d) -> NoDup d.*1.
Proof.
  unfold loads. destruct (lex 0 s) as [ts|] eqn:Hl; [|done].
  intros Hrun. apply (run_distinct ts Value [] (JObject d)); try done.
  by eapply lex_flat.
Qed.

End LoadsFacts.

Section PolicyFacts.

Import Policy.

Lemma append_rules_ok entries rules :
  forallb is_entry entries = true ->
  append_rules entries rules = Ok (rules ++ (rule_of <$> entries)).
Proof.
  revert rules. induction entries as [|v entries IH]; intros rules; cbn.
  - intros _. by rewrite app_nil_r.
  - intros [Hv He]%andb_prop.
    destruct v as [| | | | |[|[k x] members]]; try done. cbn.
    rewrite (IH _ He), <- app_assoc. done.
Qed.

Lemma append_rules_fails entries rules :
  forallb is_entry entries = false ->
  exists e, append_rules entries rules = Raise e
            /\ (e = AttributeError \/ e = StopIteration).
Proof.
  revert rules. induction entries as [|v entries IH]; intros rules; cbn; [done|].
  destruct v as [| | | | |[|[k x] members]]; cbn; eauto.
Qed.

Lemma listed_skip key value rest k entries :
  key <> k -> listed ((key, value) :: rest) k entries -> listed rest k entries.
Proof.
  intros Hne. unfold listed. cbn.
  by destruct (String.eqb_spec k key) as [->|_].
Qed.

Lemma listed_here key value rest entries :
  key ∉ rest.*1 -> listed ((key, value) :: rest) key entries ->
  value = JArray entries /\ listed rest key [].
Proof.
  intros Hk. unfold listed. cbn. rewrite String.eqb_refl.
  intros [[? _]|[= ->]]; [done|]. split; [done|]. left.
  split; [by apply dict_get_None|done].
Qed.

(** The loop over the members of a decoded dictionary with distinct
    keys. *)
Lemma parse_items_spec data self fe se :
  NoDup data.*1 ->
  listed data "FILTERING_RULES" fe -> listed data "SORTING_RULES" se ->
  (forallb is_entry (fe ++ se) = true ->
   parse_items data self
   = Ok {| filtering_rules := filtering_rules self ++ (rule_of <$> fe);
           sorting_rules := sorting_rules self ++ (rule_of <$> se) |})
  /\ (forallb is_entry (fe ++ se) = false ->
      exists e, parse_items data self = Raise e
                /\ (e = AttributeError \/ e = StopIteration)).
Proof.
  revert self fe se.
  induction data as [|[key value] rest IH]; intros self fe se Hnd Hf Hs.
  - destruct Hf as [[_ ->]|Hf]; [|done]. destruct Hs as [[_ ->]|Hs]; [|done].
    cbn. rewrite !app_nil_r. split; [by destruct self|done].
  - cbn [fmap list_fmap fst] in Hnd. apply NoDup_cons in Hnd as [Hkey Hnd].
    rewrite forallb_app. cbn [parse_items].
    destruct (String.eqb_spec key "FILTERING_RULES") as [->|HnF].
    + apply listed_here in Hf as [-> Hf]; [|done].
      apply listed_skip in Hs; [|done].
      destruct (IH {| filtering_rules := filtering_rules self ++ (rule_of <$> fe);
                      sorting_rules := sorting_rules self |} [] se Hnd Hf Hs)
        as [IHok IHfail].
      cbn [app forallb filtering_rules sorting_rules fmap list_fmap] in IHok, IHfail.
      rewrite app_nil_r in IHok.
      unfold extend. cbn [iterate].
      destruct (forallb is_entry fe) eqn:Hfe.
      * rewrite (append_rules_ok _ _ Hfe). cbn [andb]. by split.
      * destruct (append_rules_fails fe (filtering_rules self) Hfe)
          as (e & -> & He). cbn [andb]. split; [done|]. eauto.
    + destruct (String.eqb_spec key "SORTING_RULES") as [->|HnS].
      * apply listed_here in Hs as [-> Hs]; [|done].
        apply listed_skip in Hf; [|done].
        destruct (IH {| filtering_rules := filtering_rules self;
                        sorting_rules := sorting_rules self ++ (rule_of <$> se) |}
                    fe [] Hnd Hf Hs) as [IHok IHfail].
        rewrite forallb_app in IHok, IHfail.
        cbn [app forallb filtering_rules sorting_rules fmap list_fmap] in IHok, IHfail.
        rewrite app_nil_r, andb_true_r in *.
        unfold extend. cbn [iterate].
        destruct (forallb is_entry se) eqn:Hse.
        -- rewrite (append_rules_ok _ _ Hse). rewrite andb_true_r. by split.
        -- destruct (append_rules_fails se (sorting_rules self) Hse)
             as (e & -> & He). rewrite andb_false_r. split; [done|]. eauto.
      * apply listed_skip in Hf; [|done]. apply listed_skip in Hs; [|done].
        destruct (IH self fe se Hnd Hf Hs) as [IHok IHfail].
        rewrite forallb_app in IHok, IHfail. by split.
Qed.


End PolicyFacts.

Section PolicyExamples.



End PolicyExamples.

(** ** Runs on concrete inputs *)

Section Runs.

Local Existing Instance no_repr.

Lemma get_best_solution_is_tournament_witness :
  (@get_best_solution no_repr (FunctionClient first_judge)
     [solution_a; solution_b] Policy.empty (@mkWorld (FunctionClient first_judge) tt [])).1
  = Ok solution_a.
Proof.
  assert (@decisive no_repr (FunctionClient first_judge) VALID_SORTING_ANSWERS)
    as Hdec.
  { intros r st. exists (first_judge r), st.
    split; [reflexivity|vm_compute; reflexivity]. }
  assert (@always_first no_repr (FunctionClient first_judge)) as Hfirst.
  { intros r st. exists (first_judge r), st.
    split; [reflexivity|vm_compute; reflexivity]. }
  assert (2 <= length [solution_a; solution_b])%nat as Hlen by (simpl; lia).
  exact (proj2 (@get_best_solution_is_tournament no_repr
                  (FunctionClient first_judge) [solution_a; solution_b]
                  Policy.empty (@mkWorld (FunctionClient first_judge) tt []) Hdec Hlen)
           solution_a solution_b eq_refl Hfirst).
Defined.




End Runs.

(** ** Bounds that hold for every client *)

Section ChatBounds.

Context `{Client}.

Lemma slept_app tr1 tr2 : slept (tr1 ++ tr2) = slept tr1 + slept tr2.
Proof.
  induction tr1 as [|[] tr1 IH]; cbn [app slept]; lia.
Qed.

Lemma backoff_range k : 0 <= backoff k <= 5000.
Proof. unfold backoff. lia. Qed.

Lemma chat_attempts_bounded ks r w :
  exists o w' tr',
    chat_attempts ks r w = (o, w')
    /\ trace w' = trace w ++ tr'
    /\ judge_calls tr' = 0%nat
    /\ (attempts tr' <= length ks)%nat
    /\ (ks <> [] -> 1 <= attempts tr')%nat
    /\ 0 <= slept tr' <= foldr (fun k acc => backoff k + acc) 0 ks
    /\ match o with
       | Ok result => exists content, sequences result = [content]
       | Raise e => escapes e
       | OutOfFuel => False
       end.
Proof.
  revert w. induction ks as [|k ks IH]; intros w.
  - exists (Ok {| sequences := [EmptyString] |}), w, [].
    cbn. rewrite app_nil_r. repeat split; try done; try lia. by eexists.
  - cbn [chat_attempts]. unfold mbind, ST_bind, bind, CLIENT_chat.
    destruct (client_chat r (service w)) as [[content|e] st] eqn:Hc.
    + eexists _, _, [Attempt r]. split; [reflexivity|]. cbn.
      pose proof (backoff_range k).
      assert (0 <= foldr (fun k acc => backoff k + acc) 0 ks).
      { clear. induction ks as [|j ks IH]; cbn; [lia|].
        pose proof (backoff_range j). lia. }
      repeat split; try done; try lia. by eexists.
    + destruct (chat_handles e) eqn:He.
      * unfold emit. cbn [service trace].
        destruct (IH (mkWorld st ((trace w ++ [Attempt r]) ++ [Slept (backoff k)])))
          as (o & w' & tr' & -> & Htr & Hj & Ha & _ & Hs & Ho).
        exists o, w', (Attempt r :: Slept (backoff k) :: tr').
        split; [done|]. cbn [trace] in Htr. rewrite Htr, <- !app_assoc.
        split; [done|].
        change (Attempt r :: Slept (backoff k) :: tr')
          with ([Attempt r; Slept (backoff k)] ++ tr').
        rewrite judge_calls_app, attempts_app, slept_app.
        pose proof (backoff_range k). cbn.
        repeat split; try done; try lia.
      * eexists _, _, [Attempt r]. split; [reflexivity|]. cbn.
        pose proof (backoff_range k).
        assert (0 <= foldr (fun k acc => backoff k + acc) 0 ks).
        { clear. induction ks as [|j ks IH]; cbn; [lia|].
          pose proof (backoff_range j). lia. }
        repeat split; try done; try lia. by exists r, (service w), st.
Qed.

(** X1.  Whatever the client does, one call of [chat] adds to the trace
    one judge call with between one and five attempts and at most 10.5 s
    of sleep; it returns a dictionary holding exactly one sequence, or
    raises an exception that the client raised and whose class its
    handler does not name. *)
Theorem chat_is_bounded messages w :
  exists o w' tr',
    chat messages w = (o, w')
    /\ trace w' = trace w ++ Asked messages :: tr'
    /\ judge_calls tr' = 0%nat
    /\ (1 <= attempts tr' <= N_RETRIES)%nat
    /\ 0 <= slept tr' <= MAX_SLEEP
    /\ match o with
       | Ok result => exists content, sequences result = [content]
       | Raise e => escapes e
       | OutOfFuel => False
       end.
Proof.
  unfold chat, mbind, ST_bind, bind, emit.
  destruct (chat_attempts_bounded (seq 0 N_RETRIES) messages
              (mkWorld (service w) (trace w ++ [Asked messages])))
    as (o & w' & tr' & -> & Htr & Hj & Ha & Hone & Hs & Ho).
  exists o, w', tr'. split; [done|]. cbn [trace] in Htr.
  rewrite Htr, <- app_assoc. split; [done|]. split; [done|].
  split; [|split; [|done]].
  - split; [by apply Hone|]. by rewrite length_seq in Ha.
  - unfold MAX_SLEEP. cbn in Hs. unfold backoff in Hs. cbn in Hs. lia.
Qed.

End ChatBounds.

Section SortingBounds.

Context `{PyRuntime} `{Client}.

Lemma ask_bounded r w :
  exists o w' tr',
    ask r w = (o, w')
    /\ trace w' = trace w ++ tr'
    /\ judge_calls tr' = 1%nat
    /\ (1 <= attempts tr' <= N_RETRIES)%nat
    /\ match o with
       | Ok _ => True
       | Raise e => escapes e
       | OutOfFuel => False
       end.
Proof.
  unfold ask, chat, mbind, ST_bind, bind, emit.
  destruct (chat_attempts_bounded (seq 0 N_RETRIES) r
              (mkWorld (service w) (trace w ++ [Asked r])))
    as (o & w' & tr' & -> & Htr & Hj & Ha & Hone & _ & Ho).
  cbn [trace] in Htr. rewrite length_seq in Ha.
  assert (judge_calls (Asked r :: tr') = 1%nat
          /\ attempts (Asked r :: tr') = attempts tr') as [Hj' Ha'].
  { change (Asked r :: tr') with ([Asked r] ++ tr').
    rewrite judge_calls_app, attempts_app, Hj. by cbn. }
  assert (1 <= attempts tr')%nat as Hone' by by apply Hone.
  destruct o as [result|e|]; [| |done].
  - destruct Ho as [content Hseq]. rewrite Hseq. cbn.
    exists (Ok content), w', (Asked r :: tr').
    by rewrite Htr, <- app_assoc, Hj', Ha'.
  - exists (Raise e), w', (Asked r :: tr').
    by rewrite Htr, <- app_assoc, Hj', Ha'.
Qed.

Lemma within_nil calls : within calls [].
Proof. unfold within. cbn. lia. Qed.

Lemma within_app m n tr1 tr2 :
  within m tr1 -> within n tr2 -> within (m + n) (tr1 ++ tr2).
Proof.
  unfold within. rewrite judge_calls_app, attempts_app. unfold N_RETRIES. lia.
Qed.

Lemma within_weaken m n tr : (m <= n)%nat -> within m tr -> within n tr.
Proof. unfold within. lia. Qed.

Lemma within_one tr :
  judge_calls tr = 1%nat -> (1 <= attempts tr <= N_RETRIES)%nat -> within 1 tr.
Proof. unfold within, N_RETRIES. lia. Qed.

Lemma survivors_sublist preference (solutions : list Solution) :
  sublist (survivors preference solutions) solutions.
Proof.
  unfold survivors. destruct (String.eqb _ _).
  - apply sublist_take.
  - apply sublist_drop.
Qed.

(** The loop from any state: what is left, how much is asked. *)
Lemma sort_from_bounded n rules solutions failed w :
  (length solutions + (MAX_RETRIES - failed) <= n)%nat ->
  (failed <= MAX_RETRIES)%nat ->
  exists o w' tr',
    sort_from rules solutions failed w = (o, w')
    /\ trace w' = trace w ++ tr'
    /\ within (length solutions - 1 + (MAX_RETRIES - failed)) tr'
    /\ ((length solutions <= 1)%nat -> tr' = [])
    /\ match o with
       | Ok remaining =>
           sublist remaining solutions
           /\ length remaining = Nat.min 1 (length solutions)
       | Raise e => e = SortingFailureError \/ escapes e
       | OutOfFuel => False
       end.
Proof.
  revert solutions failed w.
  induction n as [|n IH]; intros solutions failed w Hn Hfailed.
  - assert (length solutions <= 1)%nat as Hlen by lia.
    rewrite sort_from_done by done.
    exists (Ok solutions), w, []. rewrite app_nil_r.
    split; [done|]. split; [done|]. split; [apply within_nil|].
    split; [done|]. split; [done|]. lia.
  - destruct (decide (length solutions <= 1)%nat) as [Hlen|Hlen].
    { rewrite sort_from_done by done.
      exists (Ok solutions), w, []. rewrite app_nil_r.
      split; [done|]. split; [done|]. split; [apply within_nil|].
      split; [done|]. split; [done|]. lia. }
    rewrite sort_from_step by (done || lia).
    destruct solutions as [|s1 solutions']; [cbn in Hlen; lia|].
    destruct (last (s1 :: solutions')) as [s2|] eqn:Hlast;
      [|by apply last_None in Hlast].
    cbn [lookup list_lookup].
    set (solutions := s1 :: solutions') in *.
    destruct (ask_bounded (SortRequest rules (commands s1) (commands s2)) w)
      as (o1 & w1 & tr1 & -> & Htr1 & Hj1 & Ha1 & Ho1).
    pose proof (within_one tr1 Hj1 Ha1) as Hw1.
    destruct o1 as [response|e|]; [| |done].
    + destruct (answer_parser_outcome response VALID_SORTING_ANSWERS
                  sorting_answers_lower) as [(token & -> & _)| ->].
      * destruct (IH (survivors token solutions) failed w1)
          as (o & w' & tr' & -> & Htr & Hw & Hnil & Ho);
          [rewrite survivors_length; lia|done|].
        exists o, w', (tr1 ++ tr'). split; [done|].
        rewrite Htr, Htr1, <- app_assoc. split; [done|].
        rewrite survivors_length in Hw, Ho.
        split; [|split; [lia|]].
        -- eapply within_weaken; [|by apply within_app]. lia.
        -- destruct o as [remaining|e|]; [|done|done].
           destruct Ho as [Hsub Hlen']. split.
           ++ etrans; [done|apply survivors_sublist].
           ++ lia.
      * destruct (MAX_RETRIES <? S failed)%nat eqn:Hmax.
        -- exists (Raise SortingFailureError), w1, tr1.
           split; [done|]. split; [done|].
           split; [eapply within_weaken; [|done]; lia|].
           split; [lia|]. by left.
        -- apply Nat.ltb_ge in Hmax.
           destruct (IH solutions (S failed) w1)
             as (o & w' & tr' & -> & Htr & Hw & Hnil & Ho); [lia|done|].
           exists o, w', (tr1 ++ tr'). split; [done|].
           rewrite Htr, Htr1, <- app_assoc. split; [done|].
           split; [|split; [lia|done]].
           eapply within_weaken; [|by apply within_app]. lia.
    + exists (Raise e), w1, tr1. split; [done|]. split; [done|].
      split; [eapply within_weaken; [|done]; lia|].
      split; [lia|]. by right.
Qed.

Lemma get_best_solution_bounded solutions policy w :
  exists o w' tr',
    get_best_solution solutions policy w = (o, w')
    /\ trace w' = trace w ++ tr'
    /\ within (length solutions - 1 + MAX_RETRIES) tr'
    /\ ((length solutions <= 1)%nat -> tr' = [])
    /\ match o with
       | Ok s => s ∈ solutions
       | Raise e =>
           (e = Exception /\ solutions = [])
           \/ e = SortingFailureError \/ escapes e
       | OutOfFuel => False
       end.
Proof.
  rewrite get_best_solution_unfold.
  destruct solutions as [|s [|s' solutions]].
  - exists (Raise Exception), w, []. rewrite app_nil_r.
    do 2 (split; [done|]). split; [apply within_nil|]. split; [done|]. by left.
  - exists (Ok s), w, []. rewrite app_nil_r.
    do 2 (split; [done|]). split; [apply within_nil|]. split; [done|].
    by apply list_elem_of_singleton.
  - set (all := s :: s' :: solutions).
    destruct (sort_from_bounded (length all + MAX_RETRIES) (sorting_rules policy)
                all 0 w) as (o & w' & tr' & -> & Htr & Hw & Hnil & Ho);
      [lia|unfold MAX_RETRIES; lia|].
    rewrite Nat.sub_0_r in Hw.
    destruct o as [remaining|e|]; [|by exists (Raise e), w', tr'; eauto 10|done].
    destruct Ho as [Hsub Hlen].
    destruct (last remaining) as [best|] eqn:Hlast.
    + exists (Ok best), w', tr'. do 4 (split; [done|]).
      eapply elem_of_sublist; [|done]. by apply last_Some_elem_of.
    + apply last_None in Hlast. subst remaining. cbn in Hlen. lia.
Qed.


End SortingBounds.

Section FilteringBounds.

Context `{PyRuntime} `{Client}.

Lemma filter_loop_bounded rules solutions valid mask w :
  exists o w' tr',
    filter_loop rules solutions valid mask w = (o, w')
    /\ trace w' = trace w ++ tr'
    /\ within (length solutions) tr'
    /\ match o with
       | Ok (valid', _) =>
           exists l, valid' = valid ++ l /\ sublist l solutions
                     /\ judge_calls tr' = length solutions
       | Raise e => e = InvalidAnswerError \/ escapes e
       | OutOfFuel => False
       end.
Proof.
  revert valid mask w.
  induction solutions as [|s solutions IH]; intros valid mask w.
  - exists (Ok (valid, mask)), w, []. rewrite app_nil_r.
    do 2 (split; [done|]). split; [apply within_nil|].
    exists []. by rewrite app_nil_r.
  - cbn [filter_loop]. unfold_st.
    destruct (ask_bounded (FilterRequest (commands s) rules) w)
      as (o1 & w1 & tr1 & -> & Htr1 & Hj1 & Ha1 & Ho1).
    pose proof (within_one tr1 Hj1 Ha1) as Hw1.
    destruct o1 as [response|e|]; [| |done].
    + destruct (decision_cases response) as [(-> & _)|[(-> & _)|(-> & _)]].
      * cbn.
        destruct (IH valid (mask ++ [false]) w1)
          as (o & w' & tr' & -> & Htr & Hw & Ho).
        exists o, w', (tr1 ++ tr'). split; [done|].
        rewrite Htr, Htr1, <- app_assoc. split; [done|].
        split; [by apply (within_app 1)|].
        destruct o as [[valid' mask']|e|]; [|done|done].
        destruct Ho as (l & -> & Hsub & Hcalls). exists l.
        split; [done|]. split; [by apply sublist_cons|].
        rewrite judge_calls_app, Hj1, Hcalls. done.
      * cbn.
        destruct (IH (valid ++ [s]) (mask ++ [true]) w1)
          as (o & w' & tr' & -> & Htr & Hw & Ho).
        exists o, w', (tr1 ++ tr'). split; [done|].
        rewrite Htr, Htr1, <- app_assoc. split; [done|].
        split; [by apply (within_app 1)|].
        destruct o as [[valid' mask']|e|]; [|done|done].
        destruct Ho as (l & -> & Hsub & Hcalls). exists (s :: l).
        split; [by rewrite <- app_assoc|]. split; [by apply sublist_skip|].
        rewrite judge_calls_app, Hj1, Hcalls. done.
      * cbn. exists (Raise InvalidAnswerError), w1, tr1.
        do 2 (split; [done|]).
        split; [eapply within_weaken; [|done]; cbn; lia|]. by left.
    + exists (Raise e), w1, tr1. do 2 (split; [done|]).
      split; [eapply within_weaken; [|done]; cbn; lia|]. by right.
Qed.

Lemma filter_solutions_bounded solutions policy w :
  exists o w' tr',
    filter_solutions solutions policy None w = (o, w')
    /\ trace w' = trace w ++ tr'
    /\ within (length solutions) tr'
    /\ match o with
       | Ok valid => sublist valid solutions /\ judge_calls tr' = length solutions
       | Raise e => e = InvalidAnswerError \/ escapes e
       | OutOfFuel => False
       end.
Proof.
  rewrite filter_solutions_unfold.
  destruct (filter_loop_bounded (filtering_rules policy) solutions [] [] w)
    as (o & w' & tr' & -> & Htr & Hw & Ho).
  destruct o as [[valid mask]|e|]; [|by exists (Raise e), w', tr'|done].
  destruct Ho as (l & -> & Hsub & Hcalls).
  by exists (Ok l), w', tr'.
Qed.

End FilteringBounds.

Section CallersFacts.

Context `{PyRuntime} `{Client} `{Random}.

Lemma try_filtering_unfold solutions policy w :
  try_filtering solutions policy w
  = match filter_solutions solutions policy None w with
    | (Ok [], w') => (Ok solutions, w')
    | (Ok valid, w') => (Ok valid, w')
    | (Raise _, w') => (Ok solutions, w')
    | (OutOfFuel, w') => (OutOfFuel, w')
    end.
Proof.
  unfold try_filtering, try_except. unfold_st.
  destruct (filter_solutions solutions policy None w) as [[[|s valid]|e|] w']; done.
Qed.

Lemma try_filtering_spec solutions policy w :
  exists valid w' tr',
    try_filtering solutions policy w = (Ok valid, w')
    /\ trace w' = trace w ++ tr'
    /\ within (length solutions) tr'
    /\ sublist valid solutions
    /\ (solutions <> [] -> valid <> [])
    /\ (filter_solutions solutions policy None w = (Ok valid, w')
        \/ valid = solutions).
Proof.
  rewrite try_filtering_unfold.
  destruct (filter_solutions_bounded solutions policy w)
    as (o & w' & tr' & Hf & Htr & Hw & Ho).
  rewrite Hf.
  destruct o as [[|s valid]|e|]; [| | |done].
  - exists solutions, w', tr'. do 3 (split; [done|]). split; [done|].
    split; [done|]. by right.
  - destruct Ho as [Hsub _].
    exists (s :: valid), w', tr'. do 3 (split; [done|]). split; [done|].
    split; [done|]. by left.
  - exists solutions, w', tr'. do 3 (split; [done|]). split; [done|].
    split; [done|]. by right.
Qed.


Lemma env_eta (e : Env) : mkEnv (world e) (generator e) = e.
Proof. by destruct e. Qed.

Lemma choice_spec solutions e :
  solutions <> [] ->
  exists s g, choice solutions e = (Ok s, mkEnv (world e) g) /\ s ∈ solutions.
Proof.
  intros Hne. unfold choice.
  destruct solutions as [|s0 solutions]; [done|]. cbn [length Nat.eqb].
  pose proof (randbelow_lt (S (length solutions)) (generator e)) as Hlt.
  destruct (randbelow (S (length solutions)) (generator e)) as [i g].
  cbn [fst] in Hlt.
  destruct (lookup_lt_is_Some_2 (s0 :: solutions) i) as [s Hs]; [cbn; lia|].
  rewrite Hs. exists s, g. split; [done|]. by eapply list_elem_of_lookup_2.
Qed.

Lemma try_sorting_empty policy e :
  try_sorting [] policy e = (Raise IndexError, e).
Proof. done. Qed.

Lemma try_sorting_spec solutions policy e :
  solutions <> [] ->
  exists s e' tr',
    try_sorting solutions policy e = (Ok s, e')
    /\ trace (world e') = trace (world e) ++ tr'
    /\ within (length solutions - 1 + MAX_RETRIES) tr'
    /\ ((length solutions <= 1)%nat -> tr' = [])
    /\ s ∈ solutions
    /\ (forall best w',
          get_best_solution solutions policy (world e) = (Ok best, w') -> s = best).
Proof.
  intros Hne. unfold try_sorting. unfold_st.
  destruct (choice_spec solutions e Hne) as (fallback & g & -> & Hin).
  unfold try_except, in_env. cbn [world generator].
  destruct (get_best_solution_bounded solutions policy (world e))
    as (o & w' & tr' & -> & Htr & Hw & Hnil & Ho).
  destruct o as [best|err|]; [| |done].
  - exists best, (mkEnv w' g), tr'. do 5 (split; [done|]).
    by intros ? ? [= <- _].
  - exists fallback, (mkEnv w' g), tr'. by do 5 (split; [done|]).
Qed.

(** X4.  [try_sorting] draws its fallback before it asks the judge: on
    the empty list the draw raises [IndexError] and nothing else happens;
    on any other list [try_sorting] never raises and returns one of the
    solutions it was given, the result of [get_best_solution] whenever
    there is one. *)
Theorem try_sorting_picks_a_solution solutions policy e :
  (solutions = [] -> try_sorting solutions policy e = (Raise IndexError, e))
  /\ (solutions <> [] ->
      exists s e' tr',
        try_sorting solutions policy e = (Ok s, e')
        /\ trace (world e') = trace (world e) ++ tr'
        /\ within (length solutions - 1 + MAX_RETRIES) tr'
        /\ s ∈ solutions
        /\ (forall best w',
              get_best_solution solutions policy (world e) = (Ok best, w') ->
              s = best)).
Proof.
  split.
  - intros ->. apply try_sorting_empty.
  - intros Hne.
    destruct (try_sorting_spec solutions policy e Hne)
      as (s & e' & tr' & Hs & Htr & Hw & _ & Hin & Hbest).
    by exists s, e', tr'.
Qed.

Lemma filter_then_sort_spec solutions policy e :
  (solutions = [] ->
   filter_then_sort solutions policy e = (Raise IndexError, e))
  /\ (solutions <> [] ->
      exists s e' tr',
        filter_then_sort solutions policy e = (Ok s, e')
        /\ trace (world e') = trace (world e) ++ tr'
        /\ within (2 * length solutions - 1 + MAX_RETRIES) tr'
        /\ s ∈ solutions).
Proof.
  unfold filter_then_sort. unfold_st. unfold in_env. split.
  - intros ->. rewrite try_filtering_unfold.
    rewrite filter_solutions_unfold. cbn. by rewrite env_eta.
  - intros Hne.
    destruct (try_filtering_spec solutions policy (world e))
      as (valid & w1 & tr1 & -> & Htr1 & Hw1 & Hsub & Hvalid & _).
    destruct (try_sorting_spec valid policy (mkEnv w1 (generator e)))
      as (s & e' & tr2 & -> & Htr2 & Hw2 & _ & Hin & _); [by apply Hvalid|].
    exists s, e', (tr1 ++ tr2). split; [done|]. cbn [world] in Htr2.
    rewrite Htr2, Htr1, <- app_assoc. split; [done|]. split.
    + pose proof (sublist_length _ _ Hsub).
      assert (length solutions <> 0%nat) by by destruct solutions.
      eapply within_weaken; [|by apply within_app]. lia.
    + by eapply elem_of_sublist.
Qed.

(** X5.  Filtering then sorting, as [main] chains them: for a list of
    [n >= 1] solutions the two steps never raise, whatever the judge
    does, and end with one of the [n] solutions after at most
    [2 n - 1 + MAX_RETRIES] judge calls of one to five attempts each.  On
    the empty list they raise [IndexError] without a judge call. *)
Theorem filter_then_sort_picks_a_solution solutions policy e :
  (solutions = [] ->
   filter_then_sort solutions policy e = (Raise IndexError, e))
  /\ (solutions <> [] ->
      exists s e' tr',
        filter_then_sort solutions policy e = (Ok s, e')
        /\ trace (world e') = trace (world e) ++ tr'
        /\ within (2 * length solutions - 1 + MAX_RETRIES) tr'
        /\ s ∈ solutions).
Proof. apply filter_then_sort_spec. Qed.

End CallersFacts.

Section PositionFacts.

Context `{PyRuntime} `{Client}.

Lemma sort_from_always_first rules first rest failed w :
  always_first -> (failed <= MAX_RETRIES)%nat ->
  exists w' tr',
    sort_from rules (first :: rest) failed w = (Ok [first], w')
    /\ trace w' = trace w ++ tr' /\ judge_calls tr' = length rest.
Proof.
  intros Hfirst Hfailed. revert w.
  induction rest as [|s rest IH] using rev_ind; intros w.
  - rewrite sort_from_done by done. exists w, []. by rewrite app_nil_r.
  - rewrite sort_from_step by (try done; cbn; rewrite ?length_app; cbn; lia).
    change (first :: rest ++ [s]) with ((first :: rest) ++ [s]).
    rewrite last_snoc. cbn [app lookup list_lookup].
    destruct (Hfirst (SortRequest rules (commands first) (commands s)) (service w))
      as (content & st' & Hc & Hp).
    rewrite (ask_responds _ _ _ _ Hc), Hp.
    assert (survivors "solution 1" (first :: rest ++ [s]) = first :: rest) as ->.
    { unfold survivors. cbn [String.eqb Ascii.eqb Bool.eqb].
      change (first :: rest ++ [s]) with ((first :: rest) ++ [s]).
      rewrite length_app. cbn [length]. rewrite take_app_le by (cbn; lia).
      apply take_ge. cbn. lia. }
    destruct (IH (mkWorld st' (trace w ++ answered
                (SortRequest rules (commands first) (commands s)))))
      as (w' & tr' & -> & Htr & Hcalls).
    exists w', (answered (SortRequest rules (commands first) (commands s)) ++ tr').
    split; [done|]. cbn [trace] in Htr. rewrite Htr, <- app_assoc.
    split; [done|]. rewrite judge_calls_app, Hcalls, length_app. cbn. lia.
Qed.

Lemma sort_from_always_second rules solutions final failed w :
  always_second -> (failed <= MAX_RETRIES)%nat ->
  exists w' tr',
    sort_from rules (solutions ++ [final]) failed w = (Ok [final], w')
    /\ trace w' = trace w ++ tr' /\ judge_calls tr' = length solutions.
Proof.
  intros Hsecond Hfailed. revert w.
  induction solutions as [|s solutions IH]; intros w.
  - rewrite sort_from_done by done. exists w, []. by rewrite app_nil_r.
  - rewrite sort_from_step by (try done; cbn; rewrite ?length_app; cbn; lia).
    change ((s :: solutions) ++ [final]) with (s :: solutions ++ [final]).
    change (s :: solutions ++ [final]) with ((s :: solutions) ++ [final]) at 2.
    rewrite last_snoc. cbn [lookup list_lookup].
    destruct (Hsecond (SortRequest rules (commands s) (commands final)) (service w))
      as (content & st' & Hc & Hp).
    rewrite (ask_responds _ _ _ _ Hc), Hp.
    assert (survivors "solution 2" (s :: solutions ++ [final])
            = solutions ++ [final]) as -> by done.
    destruct (IH (mkWorld st' (trace w ++ answered
                (SortRequest rules (commands s) (commands final)))))
      as (w' & tr' & -> & Htr & Hcalls).
    exists w', (answered (SortRequest rules (commands s) (commands final)) ++ tr').
    split; [done|]. cbn [trace] in Htr. rewrite Htr, <- app_assoc.
    split; [done|]. rewrite judge_calls_app, Hcalls. cbn. lia.
Qed.

(** X6.  Position decides against a judge that never changes its mind:
    if it answers "solution 1" whatever it is asked, the solution given
    first is returned, and if it answers "solution 2", the one given
    last, for lists of any length and after one judge call per solution
    but one. *)
Theorem constant_judge_picks_by_position solutions policy w s :
  (always_first -> head solutions = Some s ->
   exists w' tr',
     get_best_solution solutions policy w = (Ok s, w')
     /\ trace w' = trace w ++ tr'
     /\ judge_calls tr' = (length solutions - 1)%nat)
  /\ (always_second -> last solutions = Some s ->
      exists w' tr',
        get_best_solution solutions policy w = (Ok s, w')
        /\ trace w' = trace w ++ tr'
        /\ judge_calls tr' = (length solutions - 1)%nat).
Proof.
  split.
  - intros Hfirst Hhead. rewrite get_best_solution_unfold.
    destruct solutions as [|first [|second rest]]; [done| |];
      cbn in Hhead; injection Hhead as ->.
    + exists w, []. by rewrite app_nil_r.
    + destruct (sort_from_always_first (sorting_rules policy) s (second :: rest)
                  0 w Hfirst) as (w' & tr' & -> & Htr & Hcalls);
        [unfold MAX_RETRIES; lia|].
      exists w', tr'. cbn [last]. split; [done|]. split; [done|].
      rewrite Hcalls. cbn. lia.
  - intros Hsecond Hlast. rewrite get_best_solution_unfold.
    destruct solutions as [|first [|second rest]]; [done| |].
    + cbn in Hlast. injection Hlast as ->. exists w, []. by rewrite app_nil_r.
    + destruct (last_Some (first :: second :: rest) s) as [Hsplit _].
      destruct (Hsplit Hlast) as [l Hl]. rewrite Hl.
      destruct (sort_from_always_second (sorting_rules policy) l s 0 w Hsecond)
        as (w' & tr' & -> & Htr & Hcalls); [unfold MAX_RETRIES; lia|].
      assert (length l = S (length rest)) as Hlen.
      { apply (f_equal length) in Hl. rewrite length_app in Hl. cbn in Hl. lia. }
      destruct l as [|a [|b l]]; [done| |].
      * exists w', tr'. rewrite length_app. cbn in *. split; [done|].
        split; [done|]. lia.
      * exists w', tr'. split; [done|]. split; [done|].
        rewrite Hcalls, length_app. cbn. lia.
Qed.

End PositionFacts.

Section MockedClientFacts.

Context `{PyRuntime}.

Local Existing Instance MockedClient.

Lemma mocked_ask r answer tr :
  ask r (mkWorld (answer : @remote MockedClient) tr)
  = (Ok answer, mkWorld (answer : @remote MockedClient) (tr ++ answered r)).
Proof. by apply ask_responds. Qed.

Lemma mocked_filter_loop rules solutions valid mask answer tr :
  decided answer = true ->
  exists mask',
    filter_loop rules solutions valid mask
      (mkWorld (answer : @remote MockedClient) tr)
    = (Ok (valid ++ (if says_no answer then solutions else []), mask'),
       mkWorld (answer : @remote MockedClient)
         (tr ++ flat_map answered (filter_request rules <$> solutions))).
Proof.
  intros Hdecided. revert valid mask tr.
  induction solutions as [|s solutions IH]; intros valid mask tr.
  - exists mask. destruct (says_no answer); cbn; by rewrite !app_nil_r.
  - cbn [filter_loop]. unfold_st. rewrite mocked_ask.
    destruct (decision_cases answer) as [(Hp & _ & Hno)|[(Hp & _ & Hno)|(_ & Hd & _)]];
      [| |congruence]; rewrite Hp, Hno in *; cbn.
    + destruct (IH valid (mask ++ [false])
                  (tr ++ answered (FilterRequest (commands s) rules)))
        as [mask' ->].
      exists mask'. by rewrite <- !app_assoc.
    + destruct (IH (valid ++ [s]) (mask ++ [true])
                  (tr ++ answered (FilterRequest (commands s) rules)))
        as [mask' ->].
      exists mask'. by rewrite <- !app_assoc.
Qed.

Lemma mocked_sort_from rules solutions failed answer tr :
  unparseable answer = true ->
  (2 <= length solutions)%nat -> (failed <= MAX_RETRIES)%nat ->
  exists tr',
    sort_from rules solutions failed (mkWorld (answer : @remote MockedClient) tr)
    = (Raise SortingFailureError,
       mkWorld (answer : @remote MockedClient) (tr ++ tr'))
    /\ judge_calls tr' = (S MAX_RETRIES - failed)%nat.
Proof.
  intros Hu Hlen Hfailed.
  assert (answer_parser answer VALID_SORTING_ANSWERS = Raise InvalidAnswerError)
    as Hp.
  { unfold unparseable in Hu.
    by destruct (answer_parser answer VALID_SORTING_ANSWERS) as [?|[]|]. }
  remember (MAX_RETRIES - failed)%nat as budget eqn:Hbudget.
  revert failed tr Hfailed Hbudget.
  induction budget as [|budget IH]; intros failed tr Hfailed Hbudget.
  - rewrite sort_from_step by (done || lia).
    destruct solutions as [|s1 solutions']; [cbn in Hlen; lia|].
    destruct (last (s1 :: solutions')) as [s2|] eqn:Hlast;
      [|by apply last_None in Hlast].
    cbn [lookup list_lookup]. rewrite mocked_ask, Hp.
    assert ((MAX_RETRIES <? S failed)%nat = true) as ->
      by (apply Nat.ltb_lt; lia).
    eexists. split; [done|].
    change (judge_calls (answered _)) with 1%nat. lia.
  - rewrite sort_from_step by (done || lia).
    destruct solutions as [|s1 solutions']; [cbn in Hlen; lia|].
    destruct (last (s1 :: solutions')) as [s2|] eqn:Hlast;
      [|by apply last_None in Hlast].
    cbn [lookup list_lookup]. rewrite mocked_ask, Hp.
    assert ((MAX_RETRIES <? S failed)%nat = false) as ->
      by (apply Nat.ltb_ge; lia).
    destruct (IH (S failed)
                (tr ++ answered (SortRequest rules (commands s1) (commands s2))))
      as (tr' & -> & Hcalls); [lia|lia|].
    eexists. rewrite <- app_assoc. split; [done|].
    rewrite judge_calls_app, Hcalls.
    change (judge_calls (answered _)) with 1%nat. lia.
Qed.


End MockedClientFacts.

(** ** The lifecycle tracker, pass by pass *)

Section TrackerPasses.

Import Tracker.

Lemma clean_step_retained now conf_list idx rc t :
  is_Some (first_command t rc) -> removable now conf_list t rc = false ->
  clean_step now conf_list idx rc t = (Ok tt, t).
Proof.
  intros [c Hc] Hr. unfold removable in Hr. rewrite Hc in Hr.
  apply orb_false_elim in Hr as [Hin Hlate]. unfold clean_step. rewrite Hin.
  unfold first_command in Hc.
  destruct (conflicts_under_reso_solution t !! callsigns rc) as [solution|];
    [|done].
  by rewrite Hc, Hlate.
Qed.

Lemma clean_step_removed now conf_list idx rc t :
  is_Some (first_command t rc) -> removable now conf_list t rc = true ->
  (idx < length (conflicts_under_reso t))%nat ->
  clean_step now conf_list idx rc t
  = (Ok tt, mkTracker (delete idx (conflicts_under_reso t))
              (delete (callsigns rc) (conflicts_under_reso_solution t))).
Proof.
  intros [c Hc] Hr Hidx. unfold removable in Hr. rewrite Hc in Hr.
  unfold first_command in Hc.
  destruct (conflicts_under_reso_solution t !! callsigns rc) as [solution|] eqn:Hs;
    [|done].
  assert (drop_record idx rc t
          = (Ok tt, mkTracker (delete idx (conflicts_under_reso t))
                      (delete (callsigns rc) (conflicts_under_reso_solution t))))
    as Hdrop.
  { unfold drop_record, list_pop, dict_pop. rewrite Hs.
    by apply Nat.ltb_lt in Hidx as ->. }
  unfold clean_step. rewrite Hs, Hc.
  destruct (conflict_in rc conf_list); cbn [negb orb] in *; [|done].
  by rewrite Hr.
Qed.

Lemma clean_loop_app now conf_list pairs1 pairs2 t :
  clean_loop now conf_list (pairs1 ++ pairs2) t
  = match clean_loop now conf_list pairs1 t with
    | (Ok _, t') => clean_loop now conf_list pairs2 t'
    | failed => failed
    end.
Proof.
  revert t. induction pairs1 as [|[idx rc] pairs1 IH]; intros t; [done|].
  cbn [app clean_loop].
  destruct (clean_step now conf_list idx rc t) as [[[]|e|] t']; [apply IH|done|done].
Qed.

Lemma clean_loop_retained now conf_list pairs t :
  (forall idx rc, (idx, rc) ∈ pairs ->
     is_Some (first_command t rc) /\ removable now conf_list t rc = false) ->
  clean_loop now conf_list pairs t = (Ok tt, t).
Proof.
  induction pairs as [|[idx rc] pairs IH]; intros Hall; [done|].
  cbn [clean_loop].
  destruct (Hall idx rc) as [Hrec Hret]; [by left|].
  rewrite clean_step_retained by done. apply IH.
  intros idx' rc' Hin. apply (Hall idx' rc'). by right.
Qed.

Lemma enumerate_snd (l : list Conflict) idx rc offset :
  (idx, rc) ∈ imap (fun i c => (offset + i, c)%nat) l -> rc ∈ l.
Proof.
  intros (i & c & [= -> ->] & Hc)%elem_of_lookup_imap.
  by eapply list_elem_of_lookup_2.
Qed.

(** The test depends on the call signs only. *)
Lemma removable_same_callsigns now conf_list t a b :
  callsigns a = callsigns b ->
  removable now conf_list t a = removable now conf_list t b.
Proof.
  intros Heq. unfold removable, first_command, conflict_in, conflict_eqb.
  by rewrite Heq.
Qed.

(** X8.  A pass in which at most one record is due to leave does what
    the cleaning step is for.  When no record of the list is removable,
    the tracker is left as it was; when exactly one is, that record leaves
    the list, its solution leaves the dictionary, and every other record
    stays in place.  (Every conflict of the list is assumed to have a
    solution with a first command in the dictionary.) *)
Theorem clean_removes_a_single_record now t conf_list :
  recorded t ->
  ((forall rc, rc ∈ conflicts_under_reso t ->
               removable now conf_list t rc = false) ->
   clean_conflicts_under_resolution now t conf_list = (Ok tt, t))
  /\ (forall before rc after,
        conflicts_under_reso t = before ++ rc :: after ->
        removable now conf_list t rc = true ->
        (forall r, r ∈ before ++ after -> removable now conf_list t r = false) ->
        clean_conflicts_under_resolution now t conf_list
        = (Ok tt, mkTracker (before ++ after)
                    (delete (callsigns rc) (conflicts_under_reso_solution t)))).
Proof.
  intros Hrec. unfold clean_conflicts_under_resolution, enumerate. split.
  - intros Hnone. apply clean_loop_retained. intros idx rc Hin.
    apply (enumerate_snd _ idx rc 0) in Hin. by split; [apply Hrec|apply Hnone].
  - intros before rc after Hlist Hrc Hothers. rewrite Hlist.
    rewrite imap_app. cbn [imap]. rewrite clean_loop_app.
    rewrite clean_loop_retained.
    2:{ intros idx r Hin. apply (enumerate_snd _ idx r 0) in Hin. split.
        - apply Hrec. rewrite Hlist. apply elem_of_app. by left.
        - apply Hothers. apply elem_of_app. by left. }
    cbn [clean_loop]. rewrite clean_step_removed; try done.
    2:{ apply Hrec. rewrite Hlist. apply elem_of_app. right. by left. }
    2:{ rewrite Hlist, length_app. cbn. lia. }
    rewrite Hlist.
    assert (delete (length before + 0)%nat (before ++ rc :: after)
            = before ++ after) as ->.
    { rewrite Nat.add_0_r.
      rewrite (delete_middle before after rc). done. }
    apply clean_loop_retained. intros idx r Hin.
    assert (r ∈ after) as Hr.
    { apply elem_of_lookup_imap in Hin as (i & c & [= -> ->] & Hc).
      by eapply list_elem_of_lookup_2. }
    assert (callsigns r <> callsigns rc) as Hne.
    { intros Heq.
      assert (removable now conf_list t r = false) as Hret
        by (apply Hothers, elem_of_app; by right).
      rewrite (removable_same_callsigns _ _ _ _ _ Heq), Hrc in Hret. done. }
    assert (first_command
              (mkTracker (before ++ after)
                 (delete (callsigns rc) (conflicts_under_reso_solution t))) r
            = first_command t r) as Hsame.
    { unfold first_command. cbn [conflicts_under_reso_solution].
      by rewrite lookup_delete_ne. }
    split.
    + rewrite Hsame. apply Hrec. rewrite Hlist. apply elem_of_app. right. by right.
    + unfold removable. rewrite Hsame. apply Hothers. apply elem_of_app. by right.
Qed.

(** X10.  A conflict of the list whose solution is missing from the
    dictionary stops the pass with [KeyError], whether it is still
    detected or not; in the second case the record has already left the
    list when the exception is raised.  (The records before it are
    assumed to stay.) *)
Theorem clean_raises_on_missing_solution now t conf_list before rc after :
  conflicts_under_reso t = before ++ rc :: after ->
  (forall r, r ∈ before ->
     is_Some (first_command t r) /\ removable now conf_list t r = false) ->
  conflicts_under_reso_solution t !! callsigns rc = None ->
  clean_conflicts_under_resolution now t conf_list
  = (Raise KeyError,
     if conflict_in rc conf_list then t
     else mkTracker (before ++ after) (conflicts_under_reso_solution t)).
Proof.
  intros Hlist Hbefore Hmissing.
  unfold clean_conflicts_under_resolution, enumerate. rewrite Hlist.
  rewrite imap_app. cbn [imap]. rewrite clean_loop_app.
  rewrite clean_loop_retained.
  2:{ intros idx r Hin. apply (enumerate_snd _ idx r 0) in Hin. by apply Hbefore. }
  cbn [clean_loop]. unfold clean_step. rewrite Hmissing.
  destruct (conflict_in rc conf_list); cbn [negb]; [done|].
  unfold drop_record, list_pop, dict_pop. rewrite Hmissing, Hlist.
  rewrite Nat.add_0_r.
  assert ((length before <? length (before ++ rc :: after))%nat = true) as ->.
  { apply Nat.ltb_lt. rewrite length_app. cbn. lia. }
  by rewrite (delete_middle before after rc).
Qed.

Lemma lookup_foldl_delete (d : gmap (gset string) Solution) (gone : list Conflict) k :
  foldl (fun d rc => delete (callsigns rc) d) d gone !! k
  = if decide (k ∈ callsigns <$> gone) then None else d !! k.
Proof.
  revert d. induction gone as [|rc gone IH]; intros d; [done|].
  cbn [foldl fmap list_fmap]. rewrite IH.
  destruct (decide (k = callsigns rc)) as [->|Hne].
  - rewrite lookup_delete_eq.
    rewrite (decide_True (P := _ ∈ callsigns rc :: _)) by by left.
    by destruct (decide _).
  - rewrite lookup_delete_ne by done.
    destruct (decide (k ∈ callsigns <$> gone)) as [Hin|Hout].
    + by rewrite decide_True by by right.
    + rewrite decide_False; [done|]. by intros [?|?]%elem_of_cons.
Qed.

(** The loop over what is left of the copy, from any state of the
    tracker. *)
Lemma clean_loop_dictionary now conf_list pairs t :
  (forall idx rc, (idx, rc) ∈ pairs -> is_Some (first_command t rc)) ->
  NoDup (callsigns <$> pairs.*2) ->
  exists o t',
    clean_loop now conf_list pairs t = (o, t')
    /\ (o = Ok tt \/ o = Raise IndexError)
    /\ (o = Ok tt ->
        conflicts_under_reso_solution t'
        = foldl (fun d rc => delete (callsigns rc) d)
            (conflicts_under_reso_solution t)
            (List.filter (removable now conf_list t) pairs.*2)
        /\ (length (conflicts_under_reso t')
            + length (List.filter (removable now conf_list t) pairs.*2)
            = length (conflicts_under_reso t))%nat).
Proof.
  revert t. induction pairs as [|[idx rc] pairs IH]; intros t Hrec Hnodup.
  - exists (Ok tt), t. cbn. split; [done|]. split; [by left|]. intros _.
    split; [done|lia].
  - cbn [clean_loop fmap list_fmap snd] in *.
    apply NoDup_cons in Hnodup as [Hfresh Hnodup].
    destruct (Hrec idx rc) as [c Hc]; [by left|].
    cbn [List.filter].
    destruct (removable now conf_list t rc) eqn:Hr.
    + destruct (decide (idx < length (conflicts_under_reso t))%nat) as [Hidx|Hidx].
      * rewrite clean_step_removed by done.
        set (t1 := mkTracker _ _).
        assert (forall r, callsigns r ∈ callsigns <$> pairs.*2 ->
                          first_command t1 r = first_command t r) as Hsame.
        { intros r Hin. unfold first_command, t1.
          cbn [conflicts_under_reso_solution].
          rewrite lookup_delete_ne; [done|].
          intros Heq. apply Hfresh. by rewrite Heq. }
        assert (forall r, r ∈ pairs.*2 -> callsigns r ∈ callsigns <$> pairs.*2)
          as Hmem by (intros r Hin; by apply list_elem_of_fmap_2).
        destruct (IH t1) as (o & t' & -> & Ho & Hok); [|done|].
        { intros idx' r Hin. rewrite Hsame.
          - apply (Hrec idx' r). by right.
          - apply Hmem. apply list_elem_of_fmap. by exists (idx', r). }
        exists o, t'. split; [done|]. split; [done|]. intros Hoo.
        destruct (Hok Hoo) as [Hdict Hlen].
        assert (List.filter (removable now conf_list t1) pairs.*2
                = List.filter (removable now conf_list t) pairs.*2) as Hfilter.
        { apply filter_ext_in. intros r Hin%list_elem_of_In.
          unfold removable. by rewrite Hsame by by apply Hmem. }
        rewrite Hfilter in Hdict, Hlen. split; [done|].
        cbn [length]. unfold t1 in Hlen. cbn [conflicts_under_reso] in Hlen.
        rewrite length_delete in Hlen by by apply lookup_lt_is_Some. lia.
      * exists (Raise IndexError), t. split; [|split; [by right|done]].
        unfold clean_step, drop_record, list_pop.
        assert ((idx <? length (conflicts_under_reso t))%nat = false) as Hlt
          by (apply Nat.ltb_ge; lia).
        unfold removable in Hr. rewrite Hc in Hr. unfold first_command in Hc.
        destruct (conflicts_under_reso_solution t !! callsigns rc) as [solution|];
          [|done].
        rewrite Hc, Hlt.
        destruct (conflict_in rc conf_list); cbn [negb orb] in *; [|done].
        by rewrite Hr.
    + rewrite clean_step_retained by (done || by eexists).
      destruct (IH t) as (o & t' & -> & Ho & Hok); [|done|by exists o, t'].
      intros idx' r Hin. apply (Hrec idx' r). by right.
Qed.

(** X9.  The dictionary side of a pass is always right, the list side
    only in number.  For a tracker that lists no conflict twice and
    records a solution with a first command for each, a pass either
    completes or raises [IndexError]; when it completes, the dictionary
    has lost exactly the solutions of the removable conflicts, and the
    list has lost as many records as there were removable ones. *)
Theorem clean_keeps_the_dictionary_right now t conf_list :
  recorded t -> NoDup (callsigns <$> conflicts_under_reso t) ->
  exists o t',
    clean_conflicts_under_resolution now t conf_list = (o, t')
    /\ (o = Ok tt \/ o = Raise IndexError)
    /\ (o = Ok tt ->
        (forall rc, rc ∈ conflicts_under_reso t ->
           conflicts_under_reso_solution t' !! callsigns rc
           = if removable now conf_list t rc then None
             else conflicts_under_reso_solution t !! callsigns rc)
        /\ (forall k, k ∉ callsigns <$> conflicts_under_reso t ->
              conflicts_under_reso_solution t' !! k
              = conflicts_under_reso_solution t !! k)
        /\ (length (conflicts_under_reso t')
            + length (List.filter (removable now conf_list t)
                        (conflicts_under_reso t))
            = length (conflicts_under_reso t))%nat).
Proof.
  intros Hrec Hnodup. unfold clean_conflicts_under_resolution, enumerate.
  set (pairs := imap (fun idx rc => (idx, rc)) (conflicts_under_reso t)).
  assert (pairs.*2 = conflicts_under_reso t) as Hsnd.
  { unfold pairs. generalize (conflicts_under_reso t). intros l.
    rewrite fmap_imap. cbn. clear. revert l.
    assert (forall (f : nat -> nat) (l : list Conflict),
              imap (fun i c => c) l = l) as Hid.
    { intros _ l. induction l as [|c l IH]; [done|]. cbn.
      f_equal. rewrite <- IH at 2. by apply imap_ext. }
    intros l. exact (Hid id l). }
  destruct (clean_loop_dictionary now conf_list pairs t) as (o & t' & Hrun & Ho & Hok).
  { intros idx rc Hin. apply Hrec. rewrite <- Hsnd.
    apply list_elem_of_fmap. by exists (idx, rc). }
  { by rewrite Hsnd. }
  exists o, t'. split; [done|]. split; [done|]. intros Hoo.
  destruct (Hok Hoo) as [Hdict Hlen]. rewrite Hsnd in Hdict, Hlen.
  split; [|split; [|done]].
  - intros rc Hin. rewrite Hdict, lookup_foldl_delete.
    destruct (removable now conf_list t rc) eqn:Hr.
    + rewrite decide_True; [done|]. apply list_elem_of_fmap. exists rc.
      split; [done|]. apply list_elem_of_In, List.filter_In.
      split; [by apply list_elem_of_In|done].
    + rewrite decide_False; [done|].
      intros (r & Heq & Hr')%list_elem_of_fmap.
      apply list_elem_of_In, List.filter_In in Hr' as [_ Hr'].
      by rewrite <- (removable_same_callsigns _ _ _ _ _ Heq), Hr in Hr'.
  - intros k Hk. rewrite Hdict, lookup_foldl_delete.
    rewrite decide_False; [done|].
    intros (r & -> & Hr')%list_elem_of_fmap. apply Hk.
    apply list_elem_of_fmap. exists r. split; [done|].
    apply list_elem_of_In, List.filter_In in Hr' as [Hr' _].
    by apply list_elem_of_In.
Qed.

Lemma clean_loop_all_removable now conf_list suffix i t :
  (forall rc, rc ∈ suffix ->
     is_Some (first_command t rc) /\ removable now conf_list t rc = true) ->
  NoDup (callsigns <$> suffix) ->
  suffix <> [] ->
  (length (conflicts_under_reso t) <= i + 2 * (length suffix - 1))%nat ->
  (clean_loop now conf_list (imap (fun idx rc => (i + idx, rc)%nat) suffix) t).1
  = Raise IndexError.
Proof.
  revert i t. induction suffix as [|rc suffix IH]; intros i t Hall Hnodup Hne Hlen;
    [done|].
  cbn [imap clean_loop]. rewrite Nat.add_0_r.
  apply NoDup_cons in Hnodup as [Hfresh Hnodup].
  destruct (Hall rc) as [[c Hc] Hr]; [by left|].
  destruct (decide (i < length (conflicts_under_reso t))%nat) as [Hidx|Hidx].
  - rewrite clean_step_removed by (done || by eexists).
    set (t1 := mkTracker _ _).
    assert (suffix <> []) as Hne' by (intros ->; cbn in Hlen; lia).
    erewrite (imap_ext _ (fun idx r => (S i + idx, r)%nat));
      [|intros; cbn; f_equal; lia].
    apply IH; [|done|done|].
    + intros r Hin.
      assert (first_command t1 r = first_command t r) as Hsame.
      { unfold first_command, t1. cbn [conflicts_under_reso_solution].
        rewrite lookup_delete_ne; [done|].
        intros Heq. apply Hfresh. rewrite Heq. by apply list_elem_of_fmap_2. }
      unfold removable. rewrite Hsame. apply Hall. by right.
    + unfold t1. cbn [conflicts_under_reso].
      rewrite length_delete by by apply lookup_lt_is_Some.
      cbn [length] in *. destruct suffix; [done|]. cbn [length] in *. lia.
  - unfold clean_step, drop_record, list_pop.
    assert ((i <? length (conflicts_under_reso t))%nat = false) as Hlt
      by (apply Nat.ltb_ge; lia).
    unfold removable in Hr. rewrite Hc in Hr. unfold first_command in Hc.
    destruct (conflicts_under_reso_solution t !! callsigns rc) as [solution|];
      [|done].
    rewrite Hc, Hlt.
    destruct (conflict_in rc conf_list); cbn [negb orb] in *; [|done].
    by rewrite Hr.
Qed.

(** X11.  When two records or more are under resolution and all of them
    are due to leave in the same pass (for instance because no conflict
    is detected any more), the pass does not complete: it raises
    [IndexError].  (No conflict is listed twice and each has a solution
    with a first command.) *)
Theorem clean_raises_when_all_leave now t conf_list :
  recorded t -> NoDup (callsigns <$> conflicts_under_reso t) ->
  (2 <= length (conflicts_under_reso t))%nat ->
  (forall rc, rc ∈ conflicts_under_reso t ->
              removable now conf_list t rc = true) ->
  (clean_conflicts_under_resolution now t conf_list).1 = Raise IndexError.
Proof.
  intros Hrec Hnodup Hlen Hall.
  unfold clean_conflicts_under_resolution, enumerate.
  apply (clean_loop_all_removable now conf_list (conflicts_under_reso t) 0 t).
  - intros rc Hin. by split; [apply Hrec|apply Hall].
  - done.
  - intros Hnil. rewrite Hnil in Hlen. cbn in Hlen. lia.
  - lia.
Qed.

End TrackerPasses.

(** ** The answer parser, in general *)

Section AnswerParserContract.

Context `{PyRuntime}.


Lemma answer_parser_on_any_object pre a e post valid :
  forallb is_lower (elements valid) = true ->
  no_open_bracket pre = true ->
  all_chars plain_char a = true -> all_chars plain_char e = true ->
  closes_first post = false ->
  answer_parser (pre +:+ answer_object a e +:+ post) valid
  = let answer := Py.strip (Py.lower (Py.remove_newlines a)) in
    if decide (answer ∈ valid) then Ok (answer, EmptyString)
    else Raise InvalidAnswerError.
Proof.
  intros Hlower Hpre [Ha Haopen]%plain_remove_newlines
    [He Hopen]%plain_remove_newlines Hpost.
  unfold answer_parser. rewrite Hlower. cbn [negb].
  rewrite !remove_newlines_app.
  assert (Py.remove_newlines (answer_object a e)
          = answer_object (Py.remove_newlines a) (Py.remove_newlines e)) as ->.
  { unfold answer_object. by rewrite !remove_newlines_app. }
  set (a' := Py.remove_newlines a) in *.
  set (e' := Py.remove_newlines e) in *.
  set (x := "Answer" +:+ quote +:+ ": " +:+ quote +:+ a' +:+ quote +:+ ", "
            +:+ quote +:+ "Explanation" +:+ quote +:+ ": " +:+ quote +:+ e' +:+ quote).
  assert (answer_object a' e' = String "{" (String "034" (x +:+ "}"))) as Hshape.
  { unfold answer_object, x. by rewrite !string_app_assoc. }
  assert (no_open_bracket x = true) as Hx.
  { unfold x, no_open_bracket. rewrite !all_chars_app.
    fold (no_open_bracket a'). fold (no_open_bracket e').
    by rewrite Hopen, Haopen. }
  rewrite Hshape, !string_app_cons, string_app_assoc.
  change ("}" +:+ ?s) with (String "}" s).
  rewrite search_finds; [|by rewrite no_open_remove_newlines|done|done
                         |by rewrite closes_first_remove_newlines].
  rewrite <- Hshape, loads_answer_object by done.
  reflexivity.
Qed.


End AnswerParserContract.

(** ** Loading a policy into a policy *)

Section PolicyAppend.

Import Policy.

Lemma append_rules_prefix entries pre rules :
  append_rules entries (pre ++ rules)
  = match append_rules entries rules with
    | Ok r => Ok (pre ++ r)
    | Raise e => Raise e
    | OutOfFuel => OutOfFuel
    end.
Proof.
  revert rules. induction entries as [|v entries IH]; intros rules; [done|].
  cbn [append_rules]. destruct (rule_of_entry v) as [r|e|]; [|done|done].
  by rewrite <- app_assoc, IH.
Qed.

Lemma extend_prefix value pre rules :
  extend value (pre ++ rules)
  = match extend value rules with
    | Ok r => Ok (pre ++ r)
    | Raise e => Raise e
    | OutOfFuel => OutOfFuel
    end.
Proof.
  unfold extend. destruct (iterate value) as [entries|e|]; [|done|done].
  apply append_rules_prefix.
Qed.

Lemma parse_items_prefix items p q :
  parse_items items (policy_app p q)
  = match parse_items items q with
    | Ok q' => Ok (policy_app p q')
    | Raise e => Raise e
    | OutOfFuel => OutOfFuel
    end.
Proof.
  revert q. induction items as [|[key value] items IH]; intros q; [done|].
  cbn [parse_items].
  destruct (String.eqb key "FILTERING_RULES").
  - cbn [policy_app filtering_rules sorting_rules]. rewrite extend_prefix.
    destruct (extend value (filtering_rules q)) as [rules|e|]; [|done|done].
    apply (IH {| filtering_rules := rules; sorting_rules := sorting_rules q |}).
  - destruct (String.eqb key "SORTING_RULES"); [|apply IH].
    cbn [policy_app filtering_rules sorting_rules]. rewrite extend_prefix.
    destruct (extend value (sorting_rules q)) as [rules|e|]; [|done|done].
    apply (IH {| filtering_rules := filtering_rules q; sorting_rules := rules |}).
Qed.

(** X14.  [parse_json] adds to the policy it is called on.  Its result on
    a policy that already holds rules is that policy followed by what
    the same source gives on an empty one, list by list; a source that
    cannot be loaded into an empty policy fails in the same way on any
    policy.  Loading the same source twice therefore repeats its rules. *)
Theorem parse_json_appends contents self :
  parse_json contents self
  = match load contents with
    | Ok loaded => Ok (policy_app self loaded)
    | Raise e => Raise e
    | OutOfFuel => OutOfFuel
    end.
Proof.
  unfold load, parse_json.
  destruct (Json.loads contents) as [[| | | | |data]|]; try done.
  replace self with (policy_app self empty) at 1.
  - apply parse_items_prefix.
  - destruct self. unfold policy_app. cbn. by rewrite !app_nil_r.
Qed.

End PolicyAppend.

(** ** Listing the conflicts *)

Section ListConflicts.

Lemma list_conflicts_loop_spec offset confpairs dcpa tcpa acc :
  (offset <= length dcpa)%nat -> (offset <= length tcpa)%nat ->
  list_conflicts_loop
    (imap (fun idx conflict => (offset + idx, conflict)%nat) confpairs)
    dcpa tcpa acc
  = if decide (offset + length confpairs <= length dcpa
               /\ offset + length confpairs <= length tcpa)%nat
    then Ok (acc ++ zip_with (fun c dt => mkConflict c dt.1 dt.2) confpairs
                      (zip (drop offset dcpa) (drop offset tcpa)))
    else Raise IndexError.
Proof.
  revert offset acc.
  induction confpairs as [|c confpairs IH]; intros offset acc Hdcpa Htcpa.
  - cbn. rewrite decide_True by lia. by rewrite app_nil_r.
  - cbn [imap list_conflicts_loop length]. rewrite Nat.add_0_r.
    destruct (dcpa !! offset) as [d|] eqn:Hd.
    + destruct (tcpa !! offset) as [t|] eqn:Ht.
      * erewrite (imap_ext _ (fun idx conflict => (S offset + idx, conflict)%nat));
          [|intros; cbn; f_equal; lia].
        apply lookup_lt_Some in Hd as Hd', Ht as Ht'.
        rewrite IH by lia.
        destruct (decide (S offset + length confpairs <= length dcpa
                          /\ S offset + length confpairs <= length tcpa)%nat)
          as [Hlen|Hlen].
        -- rewrite decide_True by lia. f_equal. rewrite <- app_assoc. f_equal.
           rewrite (drop_S dcpa d offset Hd), (drop_S tcpa t offset Ht). done.
        -- rewrite decide_False by lia. done.
      * rewrite decide_False; [done|]. apply lookup_ge_None in Ht. lia.
    + rewrite decide_False; [done|]. apply lookup_ge_None in Hd. lia.
Qed.

(** X15.  [list_conflicts] pairs the i-th set of call signs with the i-th
    distance and the i-th time.  It needs a distance and a time for every
    set: with at least as many of each it returns one conflict per set,
    in order, and reads nothing beyond; with fewer it raises
    [IndexError]. *)
Theorem list_conflicts_zips confpairs dcpa tcpa :
  list_conflicts confpairs dcpa tcpa
  = if decide (length confpairs <= length dcpa
               /\ length confpairs <= length tcpa)%nat
    then Ok (zip_with (fun c dt => mkConflict c dt.1 dt.2) confpairs
               (zip dcpa tcpa))
    else Raise IndexError.
Proof.
  unfold list_conflicts.
  apply (list_conflicts_loop_spec 0 confpairs dcpa tcpa []); lia.
Qed.

End ListConflicts.

(** ** Plain generation *)

Section GenerateFacts.

Context `{Generator}.

Lemma generate_attempts_all_fail prompt ks s :
  (forall p b, exists b', client_generate p b = (Throws ResponseError, b')) ->
  exists b',
    generate_attempts ks prompt s
    = (Ok {| sequences := [EmptyString] |},
       mkSession b'
         (log s ++ flat_map (fun k => [Tried prompt; Paused (backoff k)]) ks)).
Proof.
  intros Hfail. revert s. induction ks as [|k ks IH]; intros s.
  - exists (server s). cbn. rewrite app_nil_r. by destruct s.
  - cbn [generate_attempts flat_map].
    destruct (Hfail prompt (server s)) as [b ->]. cbn [log].
    destruct (IH (mkSession b ((log s ++ [Tried prompt]) ++ [Paused (backoff k)])))
      as [b' ->].
    exists b'. cbn [log]. by rewrite <- !app_assoc.
Qed.

(** X16.  [generate] retries after [ollama.ResponseError] and after
    nothing else.  A reply at the first attempt is returned at once; any
    other exception of the first attempt, [TypeError] and [ValueError]
    included, reaches the caller after that single attempt and without a
    sleep; and when every attempt raises [ResponseError], [generate]
    makes five attempts, sleeps after each and returns the empty text. *)
Theorem generate_retries_response_errors_only prompt s :
  (forall response b,
     client_generate prompt (server s) = (Responds response, b) ->
     generate prompt s
     = (Ok {| sequences := [response] |}, mkSession b (log s ++ [Tried prompt])))
  /\ (forall e b,
        client_generate prompt (server s) = (Throws e, b) ->
        e <> ResponseError ->
        generate prompt s = (Raise e, mkSession b (log s ++ [Tried prompt])))
  /\ ((forall p b, exists b', client_generate p b = (Throws ResponseError, b')) ->
      exists b',
        generate prompt s
        = (Ok {| sequences := [EmptyString] |},
           mkSession b'
             (log s ++ [Tried prompt; Paused 100; Tried prompt; Paused 1100;
                        Tried prompt; Paused 2100; Tried prompt; Paused 3100;
                        Tried prompt; Paused 4100]))).
Proof.
  unfold generate, N_RETRIES. split; [|split].
  - intros response b Hc. cbn [seq generate_attempts]. by rewrite Hc.
  - intros e b Hc He. cbn [seq generate_attempts]. rewrite Hc. by destruct e.
  - intros Hfail.
    destruct (generate_attempts_all_fail prompt (seq 0 5) s Hfail) as [b' ->].
    by exists b'.
Qed.

End GenerateFacts.

(** ** One cycle of the main loop *)

Section MainLoopFacts.

Context `{PyRuntime} `{Client} `{Random}.

Variable resolve : Conflict -> outcome (list Solution).

Lemma conflict_in_app rc l1 l2 :
  conflict_in rc (l1 ++ l2) = conflict_in rc l1 || conflict_in rc l2.
Proof. unfold conflict_in. apply existsb_app. Qed.

Lemma conflict_in_self rc : conflict_in rc [rc] = true.
Proof.
  unfold conflict_in, conflict_eqb. cbn. by rewrite bool_decide_eq_true_2.
Qed.

Lemma conflict_in_callsigns rc l :
  conflict_in rc l = true <-> callsigns rc ∈ callsigns <$> l.
Proof.
  unfold conflict_in. rewrite existsb_exists. split.
  - intros (x & Hx%list_elem_of_In & Heq). unfold conflict_eqb in Heq.
    apply bool_decide_eq_true_1 in Heq. rewrite Heq. by apply list_elem_of_fmap_2.
  - intros (x & Heq & Hx)%list_elem_of_fmap. exists x.
    split; [by apply list_elem_of_In|].
    unfold conflict_eqb. by apply bool_decide_eq_true_2.
Qed.

Lemma handle_conflict_tracked policy conflict c :
  conflict_in conflict (conflicts_under_reso (tracker c)) = true ->
  handle_conflict resolve policy conflict c = (Ok tt, c).
Proof. intros Hin. unfold handle_conflict. by rewrite Hin. Qed.

Lemma handle_conflicts_tracked policy conf_list c :
  (forall conflict, conflict ∈ conf_list ->
     conflict_in conflict (conflicts_under_reso (tracker c)) = true) ->
  handle_conflicts resolve policy conf_list c = (Ok tt, c).
Proof.
  induction conf_list as [|conflict rest IH]; intros Hall; [done|].
  cbn [handle_conflicts]. unfold_st.
  rewrite handle_conflict_tracked by (apply Hall; by left).
  apply IH. intros conflict' Hin. apply Hall. by right.
Qed.

(** X17.  Conflicts that are under resolution cost nothing: the loop
    passes over them without a call to the solver or the judge and
    without a line on the stack.  And the first conflict that is not
    under resolution and for which the solver returns no solution stops
    the loop with [IndexError], the state being left as it was. *)
Theorem handle_conflicts_skips_and_stops policy conf_list c :
  ((forall conflict, conflict ∈ conf_list ->
      conflict_in conflict (conflicts_under_reso (tracker c)) = true) ->
   handle_conflicts resolve policy conf_list c = (Ok tt, c))
  /\ (forall before conflict after,
        conf_list = before ++ conflict :: after ->
        (forall b, b ∈ before ->
           conflict_in b (conflicts_under_reso (tracker c)) = true) ->
        conflict_in conflict (conflicts_under_reso (tracker c)) = false ->
        resolve conflict = Ok [] ->
        handle_conflicts resolve policy conf_list c = (Raise IndexError, c)).
Proof.
  split; [apply handle_conflicts_tracked|].
  intros before conflict after -> Hbefore Hnew Hnone.
  induction before as [|b before IH].
  - cbn [app handle_conflicts]. unfold_st. unfold handle_conflict.
    rewrite Hnew, Hnone.
    rewrite (proj1 (filter_then_sort_spec [] policy (env c)) eq_refl).
    by destruct c.
  - cbn [app handle_conflicts]. unfold_st.
    rewrite handle_conflict_tracked by (apply Hbefore; by left).
    apply IH. intros b' Hin. apply Hbefore. by right.
Qed.

Lemma handle_conflicts_spec policy conf_list c :
  (forall conflict, conflict ∈ conf_list ->
     exists solutions, resolve conflict = Ok solutions /\ solutions <> []) ->
  exists c' news,
    handle_conflicts resolve policy conf_list c = (Ok tt, c')
    /\ conflicts_under_reso (tracker c')
       = conflicts_under_reso (tracker c) ++ news
    /\ sublist news conf_list
    /\ (forall conflict, conflict ∈ conf_list ->
          conflict_in conflict (conflicts_under_reso (tracker c')) = true)
    /\ (NoDup (callsigns <$> conflicts_under_reso (tracker c)) ->
        NoDup (callsigns <$> conflicts_under_reso (tracker c')))
    /\ (exists chosen,
          Forall2
            (fun conflict best =>
               conflict_in conflict (conflicts_under_reso (tracker c)) = false
               /\ (exists solutions,
                      resolve conflict = Ok solutions /\ best ∈ solutions)
               /\ conflicts_under_reso_solution (tracker c') !! callsigns conflict
                  = Some best)
            news chosen
          /\ stack c' = stack c ++ flat_map apply_solution chosen)
    /\ (forall k, k ∉ callsigns <$> news ->
          conflicts_under_reso_solution (tracker c') !! k
          = conflicts_under_reso_solution (tracker c) !! k).
Proof.
  revert c. induction conf_list as [|conflict rest IH]; intros c Hres.
  - exists c, []. rewrite app_nil_r. cbn.
    split; [done|]. split; [done|]. split; [done|].
    split; [by intros ? ?%elem_of_nil|]. split; [done|].
    split; [|done]. exists []. split; [constructor|by rewrite app_nil_r].
  - cbn [handle_conflicts]. unfold_st.
    destruct (conflict_in conflict (conflicts_under_reso (tracker c))) eqn:Hin.
    + rewrite handle_conflict_tracked by done.
      destruct (IH c) as (c' & news & -> & Hlist & Hsub & Hall & Hnd & Hnews & Hold).
      { intros conflict' Hin'. apply Hres. by right. }
      exists c', news. split; [done|]. split; [done|].
      split; [by apply sublist_cons|]. split; [|done].
      intros conflict' [->|Hin']%elem_of_cons; [|by apply Hall].
      rewrite Hlist, conflict_in_app, Hin. done.
    + unfold handle_conflict. rewrite Hin.
      destruct (Hres conflict) as (solutions & Hsol & Hne); [by left|].
      rewrite Hsol.
      destruct (filter_then_sort_spec solutions policy (env c)) as [_ Hpick].
      destruct (Hpick Hne) as (best & e' & tr' & -> & _ & _ & Hbest).
      set (c1 := mkCycle _ e' _).
      destruct (IH c1)
        as (c' & news & -> & Hlist & Hsub & Hall & Hnd & (chosen & Hnews & Hstack)
            & Hold).
      { intros conflict' Hin'. apply Hres. by right. }
      unfold c1 in Hlist, Hnd, Hnews, Hold, Hstack.
      cbn [tracker stack conflicts_under_reso conflicts_under_reso_solution]
        in Hlist, Hnd, Hnews, Hold, Hstack.
      assert (callsigns conflict ∉ callsigns <$> news) as Hfresh.
      { intros (n & Heq & Hn)%list_elem_of_fmap.
        apply list_elem_of_lookup in Hn as [i Hi].
        destruct (Forall2_lookup_l _ _ _ _ _ Hnews Hi) as (b & _ & Hnot & _).
        rewrite conflict_in_app in Hnot. apply orb_false_elim in Hnot as [_ Hnot].
        unfold conflict_in, conflict_eqb in Hnot. cbn in Hnot.
        rewrite bool_decide_eq_true_2 in Hnot; [done|]. by symmetry. }
      exists c', (conflict :: news). split; [done|].
      split; [by rewrite Hlist, <- app_assoc|].
      split; [by apply sublist_skip|].
      split; [|split; [|split]].
      * intros conflict' [->|Hin']%elem_of_cons; [|by apply Hall].
        rewrite Hlist, !conflict_in_app, conflict_in_self. by rewrite orb_true_r.
      * intros Hnodup. apply Hnd. rewrite fmap_app. apply NoDup_app.
        split; [done|]. split; [|apply NoDup_singleton].
        intros k Hk [->|[]%elem_of_nil]%elem_of_cons.
        apply conflict_in_callsigns in Hk. congruence.
      * exists (best :: chosen). split.
        -- apply Forall2_cons. split.
           ++ split; [done|]. split; [by exists solutions|].
              rewrite Hold by done. by rewrite lookup_insert_eq.
           ++ eapply Forall2_impl; [exact Hnews|].
              intros n b (Hnot & Hb & Hentry).
              rewrite conflict_in_app in Hnot.
              by apply orb_false_elim in Hnot as [Hnot _].
        -- rewrite Hstack. cbn [flat_map]. by rewrite <- app_assoc.
      * intros k Hk. rewrite Hold.
        -- rewrite lookup_insert_ne; [done|].
           intros <-. apply Hk. cbn. by left.
        -- intros Hin'. apply Hk. cbn. by right.
Qed.

(** X18.  When the solver has a solution or more for every conflict, the
    loop over the detected conflicts completes, and after it every one of
    them is under resolution.  The list has grown by the conflicts that
    were not under resolution, each once and in the order of detection;
    it holds no conflict twice if it held none twice before; the
    dictionary holds, for each new conflict, one of the solutions the
    solver gave for it, the other entries being as they were; and the
    stack has received the lines of these solutions, in that order. *)
Theorem handle_conflicts_registers policy conf_list c :
  (forall conflict, conflict ∈ conf_list ->
     exists solutions, resolve conflict = Ok solutions /\ solutions <> []) ->
  exists c' news,
    handle_conflicts resolve policy conf_list c = (Ok tt, c')
    /\ conflicts_under_reso (tracker c')
       = conflicts_under_reso (tracker c) ++ news
    /\ sublist news conf_list
    /\ (forall conflict, conflict ∈ conf_list ->
          conflict_in conflict (conflicts_under_reso (tracker c')) = true)
    /\ (NoDup (callsigns <$> conflicts_under_reso (tracker c)) ->
        NoDup (callsigns <$> conflicts_under_reso (tracker c')))
    /\ (exists chosen,
          Forall2
            (fun conflict best =>
               conflict_in conflict (conflicts_under_reso (tracker c)) = false
               /\ (exists solutions,
                      resolve conflict = Ok solutions /\ best ∈ solutions)
               /\ conflicts_under_reso_solution (tracker c') !! callsigns conflict
                  = Some best)
            news chosen
          /\ stack c' = stack c ++ flat_map apply_solution chosen)
    /\ (forall k, k ∉ callsigns <$> news ->
          conflicts_under_reso_solution (tracker c') !! k
          = conflicts_under_reso_solution (tracker c) !! k).
Proof. apply handle_conflicts_spec. Qed.

(** X19.  Two cycles of the main loop in which the judge is not asked.
    When no record is due to leave and every detected conflict is under
    resolution, the cycle changes nothing: the program waits.  When two
    records or more are under resolution and all of them are due to leave
    in the same cycle, the cycle raises [IndexError] out of the cleaning
    step, with the random generator, the world and the stack untouched. *)
Theorem main_loop_body_waits_or_stops policy now confpairs dcpa tcpa conf_list c :
  list_conflicts confpairs dcpa tcpa = Ok conf_list ->
  recorded (tracker c) ->
  ((forall rc, rc ∈ conflicts_under_reso (tracker c) ->
      removable now conf_list (tracker c) rc = false) ->
   (forall conflict, conflict ∈ conf_list ->
      conflict_in conflict (conflicts_under_reso (tracker c)) = true) ->
   main_loop_body resolve policy now confpairs dcpa tcpa c = (Ok tt, c))
  /\ (NoDup (callsigns <$> conflicts_under_reso (tracker c)) ->
      (2 <= length (conflicts_under_reso (tracker c)))%nat ->
      (forall rc, rc ∈ conflicts_under_reso (tracker c) ->
         removable now conf_list (tracker c) rc = true) ->
      exists t,
        main_loop_body resolve policy now confpairs dcpa tcpa c
        = (Raise IndexError, mkCycle t (env c) (stack c))).
Proof.
  intros Hconf Hrec. unfold main_loop_body. rewrite Hconf. split.
  - intros Hnone Htracked.
    assert (Tracker.clean_conflicts_under_resolution now (tracker c) conf_list
            = (Ok tt, tracker c)) as ->.
    { unfold Tracker.clean_conflicts_under_resolution, Tracker.enumerate.
      apply clean_loop_retained. intros idx rc Hin.
      apply (enumerate_snd _ idx rc 0) in Hin.
      by split; [apply Hrec|apply Hnone]. }
    assert (mkCycle (tracker c) (env c) (stack c) = c) as -> by by destruct c.
    destruct (0 <? length conf_list)%nat; [|done].
    by apply handle_conflicts_tracked.
  - intros Hnodup Htwo Hall.
    pose proof (clean_loop_all_removable now conf_list
                  (conflicts_under_reso (tracker c)) 0 (tracker c)) as Hstop.
    unfold Tracker.clean_conflicts_under_resolution, Tracker.enumerate.
    destruct (Tracker.clean_loop _ _ _ _) as [o t]. cbn [fst] in Hstop.
    rewrite Hstop; [by exists t| |done| |lia].
    + intros rc Hin. by split; [apply Hrec|apply Hall].
    + intros Hnil. rewrite Hnil in Htwo. cbn in Htwo. lia.
Qed.

End MainLoopFacts.

(** ** The dummy solver *)

Section DummySolverFacts.

Context `{Traffic}.

Variable iteration : gset string -> list string.

Ltac step_outcome :=
  match goal with
  | Hrun : and_then ?o _ = Ok _ |- _ =>
      let E := fresh "E" in
      destruct o eqn:E; cbn [and_then] in Hrun; [|discriminate Hrun|discriminate Hrun]
  end.

Lemma make_command_time kind time value c :
  make_command kind time value = Ok c ->
  Command.time c = seconds time /\ Command.kind c = kind.
Proof.
  unfold make_command. intros Hrun. step_outcome. by injection Hrun as <-.
Qed.

Lemma heading_and_altitude_spec callsigns execution_time solutions idx result idx' :
  heading_and_altitude callsigns execution_time solutions idx = Ok (result, idx') ->
  exists news,
    result = solutions ++ news
    /\ length news = (2 * length callsigns)%nat
    /\ Forall (fun s => callsign s ∈ callsigns
                        /\ starts_at (seconds execution_time) s) news
    /\ idx' = match last callsigns with
              | Some c => Some (id2idx c)
              | None => idx
              end.
Proof.
  revert solutions idx.
  induction callsigns as [|c callsigns IH]; intros solutions idx Hrun.
  - injection Hrun as <- <-. exists []. by rewrite app_nil_r.
  - cbn [heading_and_altitude] in Hrun. repeat step_outcome.
    apply IH in Hrun as (news & -> & Hlen & Hall & ->).
    match goal with
    | E1 : make_command Command.Heading execution_time _ = Ok ?turn |- _ =>
        apply make_command_time in E1 as [Hturn _]
    end.
    eexists (_ :: _ :: news). rewrite <- !app_assoc. split; [reflexivity|].
    split; [cbn; lia|]. split.
    + apply Forall_cons. split; [split; [by left|by eexists _, _]|].
      apply Forall_cons. split; [split; [by left|by eexists _, _]|].
      eapply Forall_impl; [exact Hall|]. intros s [Hs Hstart].
      split; [by right|done].
    + destruct callsigns as [|c' callsigns']; [done|].
      rewrite (last_cons_cons c c' callsigns').
      destruct (last (c' :: callsigns')) eqn:Hl; [done|].
      by apply last_None in Hl.
Qed.

Lemma speed_spec callsigns execution_time i solutions result :
  speed callsigns execution_time (Some i) solutions = Ok result ->
  callsigns <> [] ->
  exists v slow resume news,
    tas i = Ok v
    /\ make_command Command.Speed execution_time (round2 (reduced (to_knots v)))
       = Ok slow
    /\ make_command Command.Speed (execution_time + 60 * 2) (round2 (to_knots v))
       = Ok resume
    /\ result = solutions ++ news
    /\ length news = length callsigns
    /\ Forall (fun s => callsign s ∈ callsigns /\ commands s = [slow; resume]) news.
Proof.
  revert solutions.
  induction callsigns as [|c callsigns IH]; intros solutions Hrun Hne; [done|].
  cbn [speed] in Hrun. repeat step_outcome.
  destruct callsigns as [|c' callsigns'].
  - injection Hrun as <-. eexists _, _, _, [_].
    do 3 (split; [done|]). split; [done|]. split; [done|].
    apply Forall_singleton. split; [by left|done].
  - apply IH in Hrun as (v' & slow' & resume' & news & Hv & Hslow & Hresume
                         & -> & Hlen & Hall); [|done].
    injection Hv as <-.
    rewrite E0 in Hslow. injection Hslow as <-.
    rewrite E1 in Hresume. injection Hresume as <-.
    eexists _, _, _, (_ :: news). do 3 (split; [done|]).
    rewrite <- app_assoc. split; [done|]. split; [cbn [length] in *; lia|].
    apply Forall_cons. split; [split; [by left|done]|].
    eapply Forall_impl; [exact Hall|]. intros s [Hs Hc]. split; [by right|done].
Qed.

Lemma resolve_spec conflict current_time solutions :
  resolve iteration conflict current_time = Ok solutions ->
  let cs := iteration (callsigns conflict) in
  exists execution_time basic extra,
    int_of (float_add current_time 30) = Ok execution_time
    /\ (2 <= length cs)%nat
    /\ solutions = basic ++ extra
    /\ length basic = (2 * length cs)%nat
    /\ Forall (fun s => callsign s ∈ cs
                        /\ starts_at (seconds execution_time) s) basic
    /\ (extra = []
        \/ exists c_last v slow resume,
             last cs = Some c_last
             /\ tas (id2idx c_last) = Ok v
             /\ make_command Command.Speed execution_time
                  (round2 (reduced (to_knots v))) = Ok slow
             /\ make_command Command.Speed (execution_time + 60 * 2)
                  (round2 (to_knots v)) = Ok resume
             /\ length extra = length cs
             /\ Forall (fun s => callsign s ∈ cs /\ commands s = [slow; resume])
                  extra).
Proof.
  intros Hrun cs. unfold resolve in Hrun. fold cs in Hrun.
  step_outcome. step_outcome.
  match goal with
  | E : heading_and_altitude _ _ _ _ = Ok ?p |- _ => destruct p as [basic idx]
  end.
  match goal with
  | E : heading_and_altitude _ _ _ _ = Ok _ |- _ =>
      apply heading_and_altitude_spec in E as (news & Hbasic & Hlen & Hall & Hidx)
  end.
  cbn [app] in Hbasic. subst basic.
  destruct (cs !! 0%nat) as [cs0|] eqn:H0; [|discriminate Hrun].
  step_outcome.
  destruct (cs !! 1%nat) as [cs1|] eqn:H1; [|discriminate Hrun].
  step_outcome.
  assert (2 <= length cs)%nat as Htwo.
  { apply lookup_lt_Some in H1. lia. }
  eexists _. destruct (float_lt _ 30).
  - injection Hrun as <-. exists news, []. rewrite app_nil_r.
    do 5 (split; [done|]). by left.
  - destruct (last cs) as [c_last|] eqn:Hlast;
      [|apply last_None in Hlast; rewrite Hlast in Htwo; cbn in Htwo; lia].
    subst idx.
    apply speed_spec in Hrun
      as (v & slow & resume & extra & Hv & Hslow & Hresume & -> & Hlen' & Hall');
      [|intros Hnil; rewrite Hnil in Htwo; cbn in Htwo; lia].
    exists news, extra. do 5 (split; [done|]). right.
    by exists c_last, v, slow, resume.
Qed.

(** X20.  What [DummySolver.resolve] returns, when it returns.  The
    conflict has two call signs or more; there are two solutions per call
    sign, or three when the speed solutions are added; every solution is
    addressed to one of the call signs of the conflict and has a first
    command, due at [int(current_time + 30)] seconds. *)
Theorem dummy_solver_solutions conflict current_time solutions :
  resolve iteration conflict current_time = Ok solutions ->
  let cs := iteration (callsigns conflict) in
  exists execution_time,
    int_of (float_add current_time 30) = Ok execution_time
    /\ (2 <= length cs)%nat
    /\ (length solutions = 2 * length cs
        \/ length solutions = 3 * length cs)%nat
    /\ Forall (fun s => callsign s ∈ cs
                        /\ starts_at (seconds execution_time) s) solutions.
Proof.
  intros Hrun cs.
  destruct (resolve_spec conflict current_time solutions Hrun)
    as (execution_time & basic & extra & Het & Htwo & -> & Hlen & Hall & Hextra).
  fold cs in Htwo, Hlen, Hall, Hextra.
  exists execution_time. split; [done|]. split; [done|].
  destruct Hextra as [->|(c_last & v & slow & resume & _ & _ & Hslow & _
                          & Hlen' & Hall')].
  - rewrite app_nil_r. split; [by left|done].
  - split; [right; rewrite length_app; lia|].
    apply Forall_app. split; [done|].
    eapply Forall_impl; [exact Hall'|]. intros s [Hs Hc]. split; [done|].
    apply make_command_time in Hslow as [Htime _].
    by exists slow, [resume].
Qed.

(** X21.  The speed solutions do not depend on the aircraft they are
    addressed to.  When [DummySolver.resolve] adds them, that is when it
    returns three solutions per call sign, the solutions after the first
    two per call sign all carry the same two commands, computed from the
    speed of the aircraft whose call sign was iterated last. *)
Theorem dummy_solver_speed_solutions conflict current_time solutions :
  resolve iteration conflict current_time = Ok solutions ->
  let cs := iteration (callsigns conflict) in
  length solutions = (3 * length cs)%nat ->
  exists execution_time c_last v slow resume,
    int_of (float_add current_time 30) = Ok execution_time
    /\ last cs = Some c_last
    /\ tas (id2idx c_last) = Ok v
    /\ make_command Command.Speed execution_time
         (round2 (reduced (to_knots v))) = Ok slow
    /\ make_command Command.Speed (execution_time + 60 * 2)
         (round2 (to_knots v)) = Ok resume
    /\ Forall (fun s => commands s = [slow; resume])
         (drop (2 * length cs) solutions).
Proof.
  intros Hrun cs Hthree.
  destruct (resolve_spec conflict current_time solutions Hrun)
    as (execution_time & basic & extra & Het & Htwo & -> & Hlen & Hall & Hextra).
  fold cs in Htwo, Hlen, Hall, Hextra.
  destruct Hextra as [->|(c_last & v & slow & resume & Hlast & Hv & Hslow & Hresume
                          & Hlen' & Hall')].
  - rewrite app_nil_r in Hthree. lia.
  - exists execution_time, c_last, v, slow, resume. do 5 (split; [done|]).
    rewrite <- Hlen, drop_app_length.
    eapply Forall_impl; [exact Hall'|]. by intros s [_ Hc].
Qed.

End DummySolverFacts.

(** ** What the caller of the sorting gets back *)

Section StoreResult.

Context `{PyRuntime} `{Client}.

(** X22.  [get_best_solution] on the object store.  An argument that is
    not a list object, or a list with an item that is not a [Solution],
    fails the assertions at the start, before any judge call.  For a list
    of solutions, a result is a reference taken from the caller's list:
    the caller gets one of its own objects back, the one holding the
    solution that sorting the values selects. *)
Theorem get_best_solution_returns_an_item solutions policy h w :
  ((forall items, h !! solutions <> Some (ListObject items)) ->
   get_best_solution_ref solutions policy (h, w) = (Raise AssertionError, (h, w)))
  /\ (forall items,
        h !! solutions = Some (ListObject items) ->
        (forall sols, ~ solutions_at h items sols) ->
        get_best_solution_ref solutions policy (h, w)
        = (Raise AssertionError, (h, w)))
  /\ (forall items sols r h' w',
        h !! solutions = Some (ListObject items) ->
        solutions_at h items sols ->
        get_best_solution_ref solutions policy (h, w) = (Ok r, (h', w')) ->
        r ∈ items
        /\ exists s, h !! r = Some (SolutionObject s)
                     /\ get_best_solution sols policy w = (Ok s, w')).
Proof.
  split; [|split].
  - intros Hnot. unfold get_best_solution_ref. unfold_st. unfold load_list.
    cbn [fst]. destruct (h !! solutions) as [[items|s]|] eqn:Hl; try done.
    by destruct (Hnot items).
  - intros items Hl Hnot. unfold get_best_solution_ref. unfold_st.
    unfold load_list. cbn [fst]. rewrite Hl.
    destruct (assert_solutions_cases h w items) as [(sols & Hsols & _)| ->];
      [by destruct (Hnot sols)|done].
  - intros items sols r h' w' Hl Hsols Hrun.
    destruct (get_best_solution_ref_run solutions policy h w)
      as (o & h1 & w1 & Hrun' & _ & Hsim).
    rewrite Hrun in Hrun'. injection Hrun' as <- <- <-.
    specialize (Hsim items sols Hl Hsols).
    destruct (get_best_solution sols policy w) as [[s|e|] w2].
    + destruct Hsim as (r' & [= <-] & Hin & Hr & ->). split; [done|]. by exists s.
    + by destruct Hsim.
    + by destruct Hsim.
Qed.

End StoreResult.

(** ** Runs of the callers on concrete inputs *)

Section CallerRuns.

Local Existing Instance no_repr.

Lemma try_sorting_picks_a_solution_witness :
  exists s e' tr',
    @try_sorting no_repr (FunctionClient second_judge) FirstDraw
      [solution_a; solution_b] Policy.empty
      (@mkEnv (FunctionClient second_judge) FirstDraw
         (@mkWorld (FunctionClient second_judge) tt []) tt)
    = (Ok s, e')
    /\ trace (world e') = [] ++ tr'
    /\ within (2 - 1 + MAX_RETRIES) tr'
    /\ s ∈ [solution_a; solution_b]
    /\ (forall best w',
          @get_best_solution no_repr (FunctionClient second_judge)
            [solution_a; solution_b] Policy.empty
            (@mkWorld (FunctionClient second_judge) tt [])
          = (Ok best, w') -> s = best).
Proof.
  assert ([solution_a; solution_b] <> []) as Hne by discriminate.
  exact (proj2 (@try_sorting_picks_a_solution no_repr
                  (FunctionClient second_judge) FirstDraw
                  [solution_a; solution_b] Policy.empty
                  (@mkEnv (FunctionClient second_judge) FirstDraw
                     (@mkWorld (FunctionClient second_judge) tt []) tt)) Hne).
Defined.

Lemma filter_then_sort_picks_a_solution_witness :
  exists s e' tr',
    @filter_then_sort no_repr (FunctionClient altitude_judge) FirstDraw
      [solution_b; solution_a] no_altitude
      (@mkEnv (FunctionClient altitude_judge) FirstDraw
         (@mkWorld (FunctionClient altitude_judge) tt []) tt)
    = (Ok s, e')
    /\ trace (world e') = [] ++ tr'
    /\ within (2 * 2 - 1 + MAX_RETRIES) tr'
    /\ s ∈ [solution_b; solution_a].
Proof.
  assert ([solution_b; solution_a] <> []) as Hne by discriminate.
  exact (proj2 (@filter_then_sort_picks_a_solution no_repr
                  (FunctionClient altitude_judge) FirstDraw
                  [solution_b; solution_a] no_altitude
                  (@mkEnv (FunctionClient altitude_judge) FirstDraw
                     (@mkWorld (FunctionClient altitude_judge) tt []) tt)) Hne).
Defined.

Lemma constant_judge_picks_by_position_witness :
  exists w' tr',
    @get_best_solution no_repr (FunctionClient second_judge)
      [solution_a; solution_b; solution_c] Policy.empty
      (@mkWorld (FunctionClient second_judge) tt [])
    = (Ok solution_c, w')
    /\ trace w' = [] ++ tr'
    /\ judge_calls tr' = (3 - 1)%nat.
Proof.
  assert (@always_second no_repr (FunctionClient second_judge)) as Hsecond.
  { intros r st. exists (second_judge r), st.
    split; [reflexivity|vm_compute; reflexivity]. }
  exact (proj2 (@constant_judge_picks_by_position no_repr
                  (FunctionClient second_judge)
                  [solution_a; solution_b; solution_c] Policy.empty
                  (@mkWorld (FunctionClient second_judge) tt []) solution_c)
           Hsecond eq_refl).
Defined.




Lemma generate_retries_response_errors_only_witness :
  exists b',
    @generate FailingGenerator "Why is the sky blue?"
      (@mkSession FailingGenerator tt [])
    = (Ok {| sequences := [EmptyString] |},
       @mkSession FailingGenerator b'
         ([] ++ [Tried "Why is the sky blue?"; Paused 100;
                 Tried "Why is the sky blue?"; Paused 1100;
                 Tried "Why is the sky blue?"; Paused 2100;
                 Tried "Why is the sky blue?"; Paused 3100;
                 Tried "Why is the sky blue?"; Paused 4100])).
Proof.
  assert (forall p b, exists b',
            @client_generate FailingGenerator p b = (Throws ResponseError, b'))
    as Hfail by (intros p b; exists b; reflexivity).
  exact (proj2 (proj2 (@generate_retries_response_errors_only FailingGenerator
                         "Why is the sky blue?"
                         (@mkSession FailingGenerator tt []))) Hfail).
Defined.

End CallerRuns.

Section TrackerRuns.

Import Tracker.

Lemma three_tracked_recorded : recorded three_tracked.
Proof.
  intros rc Hin. cbn in Hin.
  repeat (apply elem_of_cons in Hin as [->|Hin]);
    [..|by apply elem_of_nil in Hin]; vm_compute; eexists; reflexivity.
Qed.

Lemma two_tracked_recorded : recorded two_tracked.
Proof.
  intros rc Hin. cbn in Hin.
  repeat (apply elem_of_cons in Hin as [->|Hin]);
    [..|by apply elem_of_nil in Hin]; vm_compute; eexists; reflexivity.
Qed.

(** Conflict B is no longer detected; A and C are, and are within their
    grace period. *)
Lemma clean_removes_a_single_record_witness :
  clean_conflicts_under_resolution (seconds 115) three_tracked
    [conflict_A; conflict_C]
  = (Ok tt,
     mkTracker ([conflict_A] ++ [conflict_C])
       (delete (callsigns conflict_B) (conflicts_under_reso_solution three_tracked))).
Proof.
  apply (proj2 (clean_removes_a_single_record (seconds 115) three_tracked
                  [conflict_A; conflict_C] three_tracked_recorded)
           [conflict_A] conflict_B [conflict_C]).
  - reflexivity.
  - vm_compute. reflexivity.
  - intros r Hin. cbn in Hin.
    repeat (apply elem_of_cons in Hin as [->|Hin]);
      [..|by apply elem_of_nil in Hin]; vm_compute; reflexivity.
Defined.

Lemma clean_keeps_the_dictionary_right_witness :
  exists o t',
    clean_conflicts_under_resolution (seconds 115) three_tracked [conflict_C]
    = (o, t')
    /\ (o = Ok tt \/ o = Raise IndexError)
    /\ (o = Ok tt ->
        (forall rc, rc ∈ conflicts_under_reso three_tracked ->
           conflicts_under_reso_solution t' !! callsigns rc
           = if removable (seconds 115) [conflict_C] three_tracked rc then None
             else conflicts_under_reso_solution three_tracked !! callsigns rc)
        /\ (forall k, k ∉ callsigns <$> conflicts_under_reso three_tracked ->
              conflicts_under_reso_solution t' !! k
              = conflicts_under_reso_solution three_tracked !! k)
        /\ (length (conflicts_under_reso t')
            + length (List.filter (removable (seconds 115) [conflict_C] three_tracked)
                        (conflicts_under_reso three_tracked))
            = length (conflicts_under_reso three_tracked))%nat).
Proof.
  apply (clean_keeps_the_dictionary_right (seconds 115) three_tracked
           [conflict_C] three_tracked_recorded).
  apply (bool_decide_unpack _). vm_compute. reflexivity.
Defined.

Lemma clean_raises_on_missing_solution_witness :
  clean_conflicts_under_resolution (seconds 115) unrecorded []
  = (Raise KeyError,
     if conflict_in conflict_A [] then unrecorded
     else mkTracker ([] ++ []) (conflicts_under_reso_solution unrecorded)).
Proof.
  apply (clean_raises_on_missing_solution (seconds 115) unrecorded []
           [] conflict_A []).
  - reflexivity.
  - intros r Hin. by apply elem_of_nil in Hin.
  - reflexivity.
Defined.

Lemma clean_raises_when_all_leave_witness :
  (clean_conflicts_under_resolution (seconds 115) two_tracked []).1
  = Raise IndexError.
Proof.
  apply (clean_raises_when_all_leave (seconds 115) two_tracked []
           two_tracked_recorded).
  - apply (bool_decide_unpack _). vm_compute. reflexivity.
  - simpl. lia.
  - intros rc Hin. reflexivity.
Defined.

End TrackerRuns.

Section MainLoopRuns.

Local Existing Instance no_repr.

Lemma handle_conflicts_registers_witness :
  exists c' news,
    @handle_conflicts no_repr (FunctionClient first_judge) FirstDraw
      two_solutions Policy.empty [conflict_A]
      (@mkCycle (FunctionClient first_judge) FirstDraw (mkTracker [] ∅)
         (@mkEnv (FunctionClient first_judge) FirstDraw
            (@mkWorld (FunctionClient first_judge) tt []) tt) [])
    = (Ok tt, c')
    /\ conflicts_under_reso (tracker c') = [] ++ news
    /\ sublist news [conflict_A]
    /\ (forall conflict, conflict ∈ [conflict_A] ->
          conflict_in conflict (conflicts_under_reso (tracker c')) = true).
Proof.
  destruct (@handle_conflicts_registers no_repr (FunctionClient first_judge)
              FirstDraw two_solutions Policy.empty [conflict_A]
              (@mkCycle (FunctionClient first_judge) FirstDraw (mkTracker [] ∅)
                 (@mkEnv (FunctionClient first_judge) FirstDraw
                    (@mkWorld (FunctionClient first_judge) tt []) tt) []))
    as (c' & news & Hrun & Hlist & Hsub & Hall & _).
  - intros conflict _. exists [solution_a; solution_b]. split; [reflexivity|discriminate].
  - exists c', news. repeat split; assumption.
Defined.

Lemma handle_conflicts_skips_and_stops_witness :
  @handle_conflicts no_repr (FunctionClient first_judge) FirstDraw
    no_solution Policy.empty ([] ++ conflict_A :: [])
    (@mkCycle (FunctionClient first_judge) FirstDraw (mkTracker [] ∅)
       (@mkEnv (FunctionClient first_judge) FirstDraw
          (@mkWorld (FunctionClient first_judge) tt []) tt) [])
  = (Raise IndexError,
     @mkCycle (FunctionClient first_judge) FirstDraw (mkTracker [] ∅)
       (@mkEnv (FunctionClient first_judge) FirstDraw
          (@mkWorld (FunctionClient first_judge) tt []) tt) []).
Proof.
  apply (proj2 (@handle_conflicts_skips_and_stops no_repr
                  (FunctionClient first_judge) FirstDraw no_solution Policy.empty
                  ([] ++ conflict_A :: [])
                  (@mkCycle (FunctionClient first_judge) FirstDraw (mkTracker [] ∅)
                     (@mkEnv (FunctionClient first_judge) FirstDraw
                        (@mkWorld (FunctionClient first_judge) tt []) tt) []))
           [] conflict_A []).
  - reflexivity.
  - intros b Hb. by apply elem_of_nil in Hb.
  - reflexivity.
  - reflexivity.
Defined.

(** Both tracked conflicts have vanished from the detection. *)
Lemma main_loop_body_waits_or_stops_witness :
  exists t,
    @main_loop_body no_repr (FunctionClient first_judge) FirstDraw
      two_solutions Policy.empty (seconds 115) [] [] []
      (@mkCycle (FunctionClient first_judge) FirstDraw two_tracked
         (@mkEnv (FunctionClient first_judge) FirstDraw
            (@mkWorld (FunctionClient first_judge) tt []) tt) [])
    = (Raise IndexError,
       @mkCycle (FunctionClient first_judge) FirstDraw t
         (@mkEnv (FunctionClient first_judge) FirstDraw
            (@mkWorld (FunctionClient first_judge) tt []) tt) []).
Proof.
  apply (proj2 (@main_loop_body_waits_or_stops no_repr
                  (FunctionClient first_judge) FirstDraw two_solutions Policy.empty
                  (seconds 115) [] [] [] []
                  (@mkCycle (FunctionClient first_judge) FirstDraw two_tracked
                     (@mkEnv (FunctionClient first_judge) FirstDraw
                        (@mkWorld (FunctionClient first_judge) tt []) tt) [])
                  eq_refl two_tracked_recorded)).
  - apply (bool_decide_unpack _). vm_compute. reflexivity.
  - simpl. lia.
  - intros rc Hin. reflexivity.
Defined.

End MainLoopRuns.

Section DummySolverRuns.

Local Existing Instance crossing_traffic.

Lemma crossing_resolution :
  exists solutions,
    resolve in_order conflict_A (100 : @float crossing_traffic) = Ok solutions
    /\ length solutions = 6%nat.
Proof. eexists. split; vm_compute; reflexivity. Qed.

Lemma dummy_solver_solutions_witness :
  exists solutions execution_time,
    resolve in_order conflict_A (100 : @float crossing_traffic) = Ok solutions
    /\ int_of (float_add (100 : @float crossing_traffic) 30) = Ok execution_time
    /\ (2 <= length (in_order (callsigns conflict_A)))%nat
    /\ Forall (fun s => callsign s ∈ in_order (callsigns conflict_A)
                        /\ starts_at (seconds execution_time) s) solutions.
Proof.
  destruct crossing_resolution as (solutions & Hrun & _).
  destruct (dummy_solver_solutions in_order conflict_A
              (100 : @float crossing_traffic) solutions Hrun)
    as (execution_time & Het & Htwo & _ & Hall).
  by exists solutions, execution_time.
Defined.

Lemma dummy_solver_speed_solutions_witness :
  exists solutions slow resume,
    resolve in_order conflict_A (100 : @float crossing_traffic) = Ok solutions
    /\ Forall (fun s => commands s = [slow; resume])
         (drop (2 * length (in_order (callsigns conflict_A))) solutions).
Proof.
  destruct crossing_resolution as (solutions & Hrun & Hlen).
  destruct (dummy_solver_speed_solutions in_order conflict_A
              (100 : @float crossing_traffic) solutions Hrun Hlen)
    as (execution_time & c_last & v & slow & resume & _ & _ & _ & _ & _ & Hall).
  by exists solutions, slow, resume.
Defined.

End DummySolverRuns.

Section StoreRuns.

Local Existing Instance no_repr.

Lemma two_in_store_run :
  @get_best_solution_ref no_repr (FunctionClient first_judge) 1%positive
    Policy.empty (two_in_store, @mkWorld (FunctionClient first_judge) tt [])
  = (Ok 2%positive,
     (<[4%positive := ListObject [2%positive]]> two_in_store,
      @mkWorld (FunctionClient first_judge) tt
        (answered (SortRequest [] (commands solution_a) (commands solution_b))))).
Proof. vm_compute. reflexivity. Qed.

Lemma get_best_solution_returns_an_item_witness :
  (2%positive : loc) ∈ [2%positive; 3%positive]
  /\ exists s, two_in_store !! 2%positive = Some (SolutionObject s)
               /\ @get_best_solution no_repr (FunctionClient first_judge)
                    [solution_a; solution_b] Policy.empty
                    (@mkWorld (FunctionClient first_judge) tt [])
                  = (Ok s,
                     @mkWorld (FunctionClient first_judge) tt
                       (answered (SortRequest [] (commands solution_a)
                                    (commands solution_b)))).
Proof.
  apply (proj2 (proj2 (@get_best_solution_returns_an_item no_repr
                         (FunctionClient first_judge) 1%positive Policy.empty
                         two_in_store (@mkWorld (FunctionClient first_judge) tt [])))
           [2%positive; 3%positive] [solution_a; solution_b] 2%positive
           (<[4%positive := ListObject [2%positive]]> two_in_store)).
  - vm_compute. reflexivity.
  - repeat constructor.
  - exact two_in_store_run.
Defined.

End StoreRuns.
